(** * Verification of the execution-trace recorder ([record.py])

  The development follows the source file top to bottom:

  - [Ast]: the fragment of the Python 2 [ast] node classes that
    [record.py] inspects and builds;
  - [Rewriter]: [_make_record_state_call_expr],
    [_make_return_trace_call_exprs] and [_fill_body_with_record];
  - [Semantics]: a big-step interpreter for the rewritten trees, used to
    state what the injected statements do when they run;
  - [Session]: the module-level state of [record.py], the decorator
    [record] and the closure [wrapped] it returns;
  - [Preservation]: what it means for a rewritten body to run like the
    original one;
  - [Samples]: small functions the statements are evaluated on;
  - [ObjectModel]: a heap of Python objects with [copy.deepcopy], used for
    the independence of recorded snapshots.

  [Markers], [Growth], [Coverage] and [Reflection] hold what further
  properties are stated with: the line markers of a tree, stores and files
  that only grow, the cells a copy allocates, and runs of a rewritten body
  read back on the original.

  The properties come after all definitions, one module of facts for each
  part. *)

From stdpp Require Import base option strings list gmap.
From Stdlib Require Import ZArith Lia.

Open Scope Z_scope.
Open Scope string_scope.
Open Scope list_scope.

(** ** Statement trees *)

Module Ast.

Inductive expr_context : Type := Load | Store.

(** Expressions.  [Name], [Num] and [Call] are the node classes the
    rewriter builds; every other expression of the traced function is an
    opaque piece of source text.  Column offsets, the line numbers of
    expression nodes and the (always empty) keyword list of [Call] are
    left out. *)
#[warnings="-register-all"]
Inductive expr : Type :=
| Name (id : string) (ctx : expr_context)
| Num (n : Z)
| Call (func : expr) (args : list expr)
| Src (code : string).

(** Statements of the Python 2.7 grammar, with the attributes
    [_fill_body_with_record] looks at: [lineno], [body], [orelse],
    [handlers] and, for [Return] and [Assign], [value].  [Simple] stands for
    the remaining statement classes that own no statement list ([Delete],
    [AugAssign], [Print], [Assert], [Import], [Global], ...).  The [exec]
    statement, whose [body] attribute is an expression, is not
    represented.  [value] of [Assign] is optional because the rewriter
    copies it from [Return], where it is. *)
#[warnings="-register-all"]
Inductive stmt : Type :=
| FunctionDef (lineno : Z) (name : string) (body : list stmt)
| ClassDef (lineno : Z) (name : string) (body : list stmt)
| Return (lineno : Z) (value : option expr)
| Assign (lineno : Z) (targets : list expr) (value : option expr)
| Expr (lineno : Z) (value : expr)
| Pass (lineno : Z)
| Break (lineno : Z)
| Continue (lineno : Z)
| Raise (lineno : Z) (type : option expr)
| Simple (lineno : Z) (code : string)
| For (lineno : Z) (target iter : expr) (body orelse : list stmt)
| While (lineno : Z) (test : expr) (body orelse : list stmt)
| If (lineno : Z) (test : expr) (body orelse : list stmt)
| With (lineno : Z) (context_expr : expr) (body : list stmt)
| TryExcept (lineno : Z) (body : list stmt) (handlers : list excepthandler)
            (orelse : list stmt)
| TryFinally (lineno : Z) (body finalbody : list stmt)
with excepthandler : Type :=
| ExceptHandler (lineno : Z) (type name : option expr) (body : list stmt).

Definition lineno_of (item : stmt) : Z :=
  match item with
  | FunctionDef l _ _ | ClassDef l _ _ | Return l _ | Assign l _ _
  | Expr l _ | Pass l | Break l | Continue l | Raise l _ | Simple l _
  | For l _ _ _ _ | While l _ _ _ | If l _ _ _ | With l _ _
  | TryExcept l _ _ _ | TryFinally l _ _ => l
  end.

Definition handler_body (handler : excepthandler) : list stmt :=
  match handler with ExceptHandler _ _ _ body => body end.

End Ast.
Import Ast.

(** ** The rewriter *)

Module Rewriter.

Definition RECORD_FN_NAME : string := "_record_state_fn_hidden_123".
Definition DUMP_FN_NAME : string := "_dump_state_fn_hidden_123".
Definition RETVAL_NAME : string := "_retval_hidden_123".
Definition RECORD_STORE_NAME : string := "_record_store_hidden_123".

Definition _make_record_state_call_expr (lineno : Z) : stmt :=
  let name := Name "locals" Load in
  let locals_call := Call name [] in
  let num := Num lineno in
  let name := Name RECORD_FN_NAME Load in
  let call := Call name [num; locals_call] in
  let expr := Expr 0 call in
  expr.

(** [item] is a [Return] node, given by its two attributes. *)
Definition _make_return_trace_call_exprs
    (item_lineno : Z) (item_value : option expr) : list stmt :=
  let store_name := Name RETVAL_NAME Store in
  let load_name := Name RETVAL_NAME Load in
  let assign := Assign 0 [store_name] item_value in
  let ret := Return 0 (Some load_name) in
  [assign; _make_record_state_call_expr item_lineno; ret].

Section Loop.

(** The part of a loop iteration between [has_nested = False] and
    [new_body.append(item)]: the item with its nested bodies rewritten,
    and the final [has_nested]. *)
Variable nested : stmt -> stmt * bool.

Definition fill_step (new_body : list stmt) (item : stmt) : list stmt :=
  match item with
  | Return l v => new_body ++ _make_return_trace_call_exprs l v
  | _ =>
      let '(item, has_nested) := nested item in
      let new_body := new_body ++ [item] in
      if has_nested then new_body
      else new_body ++ [_make_record_state_call_expr (lineno_of item)]
  end.

(** The function body from [new_body = []] on. *)
Definition fill_from (prepend : bool) (lineno : Z)
    (original_body : list stmt) : list stmt :=
  let new_body := [] in
  let new_body :=
    if prepend then new_body ++ [_make_record_state_call_expr lineno]
    else new_body in
  fold_left fill_step original_body new_body.

End Loop.

(** The three [hasattr] blocks, by node class: which of [body], [orelse]
    and [handlers] the class has.  For [orelse] the prepend flag is
    [False] exactly for [TryExcept]; handlers never get one.
    [finalbody] is no attribute the function looks at. *)
Fixpoint fill_nested (item : stmt) : stmt * bool :=
  match item with
  | FunctionDef l name body =>
      (FunctionDef l name (fill_from fill_nested true l body), true)
  | ClassDef l name body =>
      (ClassDef l name (fill_from fill_nested true l body), true)
  | With l ctx body =>
      (With l ctx (fill_from fill_nested true l body), true)
  | TryFinally l body finalbody =>
      (TryFinally l (fill_from fill_nested true l body) finalbody, true)
  | For l target iter body orelse =>
      (For l target iter (fill_from fill_nested true l body)
                         (fill_from fill_nested true l orelse), true)
  | While l test body orelse =>
      (While l test (fill_from fill_nested true l body)
                    (fill_from fill_nested true l orelse), true)
  | If l test body orelse =>
      (If l test (fill_from fill_nested true l body)
                 (fill_from fill_nested true l orelse), true)
  | TryExcept l body handlers orelse =>
      (TryExcept l (fill_from fill_nested true l body)
         (map (fun handler =>
                 match handler with
                 | ExceptHandler hl ty nm hbody =>
                     ExceptHandler hl ty nm
                       (fill_from fill_nested false hl hbody)
                 end) handlers)
         (fill_from fill_nested false l orelse), true)
  | _ => (item, false)
  end.

(** [lineno] defaults to [None] in the source and is read only under
    [prepend]; every call with [prepend=True] passes a node's line
    number, so the parameter is an integer here. *)
Definition _fill_body_with_record
    (original_body : list stmt) (prepend : bool) (lineno : Z) : list stmt :=
  fill_from fill_nested prepend lineno original_body.

(** What the loop does to one handler of a [TryExcept]. *)
Definition fill_handler (handler : excepthandler) : excepthandler :=
  match handler with
  | ExceptHandler hl ty nm hbody =>
      ExceptHandler hl ty nm (_fill_body_with_record hbody false hl)
  end.

(** The statement classes without [body], [orelse] and [handlers], other
    than [Return]. *)
Definition plain (item : stmt) : bool :=
  match item with
  | Assign _ _ _ | Expr _ _ | Pass _ | Break _ | Continue _ | Raise _ _
  | Simple _ _ => true
  | _ => false
  end.

(** *** Reading a rewritten tree back

    [is_record_call] recognises the expression built by
    [_make_record_state_call_expr].  [original_of] undoes the rewriting: it
    drops the capture statements and folds the three statements that
    replace a [Return] back into it.  [untraced] holds of a body in which no
    statement that the rewriter reaches is itself a capture statement. *)

Definition is_record_call (e : expr) : option Z :=
  match e with
  | Call (Name f Load) [Num lineno; Call (Name g Load) []] =>
      if String.eqb f RECORD_FN_NAME && String.eqb g "locals"
      then Some lineno else None
  | _ => None
  end.

Definition is_capture (item : stmt) : bool :=
  match item with
  | Expr _ e => bool_decide (is_Some (is_record_call e))
  | _ => false
  end.

Definition is_retval (e : expr) (ctx : expr_context) : bool :=
  match e, ctx with
  | Name x Store, Store | Name x Load, Load => String.eqb x RETVAL_NAME
  | _, _ => false
  end.

Fixpoint original_list (f : stmt -> stmt) (body : list stmt) : list stmt :=
  match body with
  | [] => []
  | Assign l [target] v :: rest =>
      match rest with
      | Expr _ e :: Return _ (Some r) :: rest' =>
          match is_record_call e with
          | Some lineno =>
              if is_retval target Store && is_retval r Load
              then Return lineno v :: original_list f rest'
              else Assign l [target] v :: original_list f rest
          | None => Assign l [target] v :: original_list f rest
          end
      | _ => Assign l [target] v :: original_list f rest
      end
  | item :: rest =>
      if is_capture item then original_list f rest
      else f item :: original_list f rest
  end.

Fixpoint original_item (item : stmt) : stmt :=
  match item with
  | FunctionDef l name body =>
      FunctionDef l name (original_list original_item body)
  | ClassDef l name body => ClassDef l name (original_list original_item body)
  | With l ctx body => With l ctx (original_list original_item body)
  | TryFinally l body finalbody =>
      TryFinally l (original_list original_item body) finalbody
  | For l target iter body orelse =>
      For l target iter (original_list original_item body)
                        (original_list original_item orelse)
  | While l test body orelse =>
      While l test (original_list original_item body)
                   (original_list original_item orelse)
  | If l test body orelse =>
      If l test (original_list original_item body)
                (original_list original_item orelse)
  | TryExcept l body handlers orelse =>
      TryExcept l (original_list original_item body)
        (map (fun handler =>
                match handler with
                | ExceptHandler hl ty nm hbody =>
                    ExceptHandler hl ty nm (original_list original_item hbody)
                end) handlers)
        (original_list original_item orelse)
  | _ => item
  end.

Definition original_of (body : list stmt) : list stmt :=
  original_list original_item body.

Fixpoint untraced_item (item : stmt) : bool :=
  negb (is_capture item) &&
  match item with
  | FunctionDef _ _ body | ClassDef _ _ body | With _ _ body
  | TryFinally _ body _ => forallb untraced_item body
  | For _ _ _ body orelse | While _ _ body orelse | If _ _ body orelse =>
      forallb untraced_item body && forallb untraced_item orelse
  | TryExcept _ body handlers orelse =>
      forallb untraced_item body
      && forallb (fun handler =>
                    match handler with
                    | ExceptHandler _ _ _ hbody => forallb untraced_item hbody
                    end) handlers
      && forallb untraced_item orelse
  | _ => true
  end.

Definition untraced (body : list stmt) : bool := forallb untraced_item body.

(** Rewriting and reading back returns the statements of an untraced body
    as they were, one after the other. *)
Definition roundtrip_item (item : stmt) : Prop :=
  untraced_item item = true ->
  forall rest, original_of (_fill_body_with_record rest false 0) = rest ->
    original_of (_fill_body_with_record (item :: rest) false 0) = item :: rest.

End Rewriter.
Import Rewriter.

(** ** Running a statement tree

    Values are identified by their content here (object identity and
    in-place mutation are the subject of [ObjectModel] below), so
    [copy.deepcopy] of a dictionary of locals is that dictionary.  What the
    host language does with the expressions and statements of the traced
    function that the rewriter never looks into is a parameter, [host]. *)

Module Semantics.

#[warnings="-register-all"]
Inductive value : Type :=
| VNone
| VBool (b : bool)
| VInt (n : Z)
| VStr (s : string)
| VList (items : list value)
| VDict (items : list (string * value))
| VSet (items : list value)
| VExc (cls : string) (args : list value).

(** A raised exception: its class name and arguments. *)
Definition exn : Type := string * list value.

Inductive result (A : Type) : Type :=
| Ok (a : A)
| Exc (e : exn).
Arguments Ok {A} a.
Arguments Exc {A} e.

Definition TypeError (msg : string) : exn := ("TypeError", [VStr msg]).
Definition ValueError (msg : string) : exn := ("ValueError", [VStr msg]).
Definition IOError (msg : string) : exn := ("IOError", [VStr msg]).
Definition KeyError (key : string) : exn := ("KeyError", [VStr key]).

Abbreviation locals := (gmap string value).

(** One entry of [_record_store_hidden_123['data']]. *)
Definition snapshot : Type := Z * locals.

(** The module global [_record_store_hidden_123]: [None], or the
    dictionary [{'data': [...]}] given by its only entry. *)
Abbreviation record_store := (option (list snapshot)).

Definition deepcopy (f_locals : locals) : locals := f_locals.

Definition _record_state_fn_hidden_123
    (lineno : Z) (f_locals : locals) (_record_store_hidden_123 : record_store)
  : result record_store :=
  match _record_store_hidden_123 with
  | None => Exc (TypeError "'NoneType' object has no attribute '__getitem__'")
  | Some data => Ok (Some (data ++ [(lineno, deepcopy f_locals)]))
  end.

Record host : Type := {
  (** expressions other than numbers and bound local names *)
  eval_src : expr -> locals -> result value;
  (** assignment to a target other than a plain name *)
  store_target : expr -> value -> locals -> result locals;
  (** the statements gathered under [Simple] *)
  exec_simple : string -> locals -> result locals;
  (** whether an [except] clause of the given type catches an exception *)
  exc_matches : expr -> exn -> locals -> bool
}.

Definition truthy (v : value) : bool :=
  match v with
  | VNone => false
  | VBool b => b
  | VInt n => negb (n =? 0)%Z
  | VStr s => negb (String.eqb s "")
  | VList items | VSet items => match items with [] => false | _ => true end
  | VDict items => match items with [] => false | _ => true end
  | VExc _ _ => true
  end.


(** What a [for] loop iterates over. *)
Definition iterate (v : value) : result (list value) :=
  match v with
  | VList items | VSet items => Ok items
  | VDict items => Ok (map (fun kv => VStr kv.1) items)
  | VStr s =>
      Ok (map (fun c => VStr (String c EmptyString)) (String.list_ascii_of_string s))
  | _ => Exc (TypeError "object is not iterable")
  end.

Inductive outcome : Type :=
| Normal
| Returned (v : value)
| Raised (e : exn)
| Broke
| Continued.

(** The locals of the running call and the module's record store. *)
Definition frame : Type := locals * record_store.

Section Exec.

Context (H : host).

Definition eval_expr (e : expr) (f_locals : locals) : result value :=
  match e with
  | Num n => Ok (VInt n)
  | Name x _ =>
      match f_locals !! x with
      | Some v => Ok v
      | None => eval_src H e f_locals
      end
  | _ => eval_src H e f_locals
  end.

Definition assign (target : expr) (v : value) (f_locals : locals)
  : result locals :=
  match target with
  | Name x _ => Ok (<[x := v]> f_locals)
  | _ => store_target H target v f_locals
  end.

Fixpoint assign_all (targets : list expr) (v : value) (f_locals : locals)
  : outcome * locals :=
  match targets with
  | [] => (Normal, f_locals)
  | target :: targets =>
      match assign target v f_locals with
      | Ok f_locals => assign_all targets v f_locals
      | Exc e => (Raised e, f_locals)
      end
  end.

Definition runner : Type := stmt -> frame -> option (outcome * frame).

Fixpoint exec_block (run : runner) (body : list stmt) (fr : frame)
  : option (outcome * frame) :=
  match body with
  | [] => Some (Normal, fr)
  | item :: rest =>
      match run item fr with
      | Some (Normal, fr) => exec_block run rest fr
      | r => r
      end
  end.

Fixpoint exec_for (target : expr)
    (run_body run_orelse : frame -> option (outcome * frame))
    (items : list value) (fr : frame) : option (outcome * frame) :=
  match items with
  | [] => run_orelse fr
  | v :: items =>
      match assign target v fr.1 with
      | Exc e => Some (Raised e, fr)
      | Ok f_locals =>
          match run_body (f_locals, fr.2) with
          | Some (Normal, fr) | Some (Continued, fr) =>
              exec_for target run_body run_orelse items fr
          | Some (Broke, fr) => Some (Normal, fr)
          | r => r
          end
      end
  end.

Fixpoint exec_handlers (run : runner) (handlers : list excepthandler)
    (e : exn) (fr : frame) : option (outcome * frame) :=
  match handlers with
  | [] => Some (Raised e, fr)
  | ExceptHandler _ type name body :: handlers =>
      if match type with
         | None => true
         | Some t => exc_matches H t e fr.1
         end
      then
        match name with
        | None => exec_block run body fr
        | Some target =>
            match assign target (VExc e.1 e.2) fr.1 with
            | Ok f_locals => exec_block run body (f_locals, fr.2)
            | Exc e' => Some (Raised e', fr)
            end
        end
      else exec_handlers run handlers e fr
  end.

(** [fuel] bounds the nesting depth of compound statements plus the number
    of [while] iterations; [None] is an exhausted bound or a statement
    outside the interpreted fragment ([def], [class], [with],
    [try]/[finally], a bare [raise], and an [Assign] without value, which
    does not compile). *)
Fixpoint exec_stmt (fuel : nat) (item : stmt) (fr : frame) {struct fuel}
  : option (outcome * frame) :=
  match item with
  | Pass _ => Some (Normal, fr)
  | Break _ => Some (Broke, fr)
  | Continue _ => Some (Continued, fr)
  | Expr _ e =>
      match is_record_call e with
      | Some lineno =>
          match _record_state_fn_hidden_123 lineno fr.1 fr.2 with
          | Ok store => Some (Normal, (fr.1, store))
          | Exc x => Some (Raised x, fr)
          end
      | None =>
          match eval_expr e fr.1 with
          | Ok _ => Some (Normal, fr)
          | Exc x => Some (Raised x, fr)
          end
      end
  | Assign _ targets (Some e) =>
      match eval_expr e fr.1 with
      | Ok v =>
          let '(o, f_locals) := assign_all targets v fr.1 in
          Some (o, (f_locals, fr.2))
      | Exc x => Some (Raised x, fr)
      end
  | Simple _ code =>
      match exec_simple H code fr.1 with
      | Ok f_locals => Some (Normal, (f_locals, fr.2))
      | Exc x => Some (Raised x, fr)
      end
  | Return _ None => Some (Returned VNone, fr)
  | Return _ (Some e) =>
      match eval_expr e fr.1 with
      | Ok v => Some (Returned v, fr)
      | Exc x => Some (Raised x, fr)
      end
  | Raise _ (Some e) =>
      match eval_expr e fr.1 with
      | Ok (VExc cls args) => Some (Raised (cls, args), fr)
      | Ok _ =>
          Some (Raised (TypeError "exceptions must derive from BaseException"),
                fr)
      | Exc x => Some (Raised x, fr)
      end
  | If _ test body orelse =>
      match fuel with
      | O => None
      | S fuel =>
          match eval_expr test fr.1 with
          | Ok v =>
              if truthy v then exec_block (exec_stmt fuel) body fr
              else exec_block (exec_stmt fuel) orelse fr
          | Exc x => Some (Raised x, fr)
          end
      end
  | While l test body orelse =>
      match fuel with
      | O => None
      | S fuel =>
          match eval_expr test fr.1 with
          | Ok v =>
              if truthy v then
                match exec_block (exec_stmt fuel) body fr with
                | Some (Normal, fr) | Some (Continued, fr) =>
                    exec_stmt fuel (While l test body orelse) fr
                | Some (Broke, fr) => Some (Normal, fr)
                | r => r
                end
              else exec_block (exec_stmt fuel) orelse fr
          | Exc x => Some (Raised x, fr)
          end
      end
  | For _ target iter body orelse =>
      match fuel with
      | O => None
      | S fuel =>
          match eval_expr iter fr.1 with
          | Ok v =>
              match iterate v with
              | Ok items =>
                  exec_for target (exec_block (exec_stmt fuel) body)
                           (exec_block (exec_stmt fuel) orelse) items fr
              | Exc x => Some (Raised x, fr)
              end
          | Exc x => Some (Raised x, fr)
          end
      end
  | TryExcept _ body handlers orelse =>
      match fuel with
      | O => None
      | S fuel =>
          match exec_block (exec_stmt fuel) body fr with
          | Some (Raised x, fr) => exec_handlers (exec_stmt fuel) handlers x fr
          | Some (Normal, fr) => exec_block (exec_stmt fuel) orelse fr
          | r => r
          end
      end
  | _ => None
  end.

(** Binding of the call's arguments to the parameter names: positional
    arguments first, then keywords; no defaults. *)
Fixpoint bind_positional (params : list string) (args : list value)
    (f_locals : locals) : result (list string * locals) :=
  match args, params with
  | [], _ => Ok (params, f_locals)
  | _ :: _, [] => Exc (TypeError "too many positional arguments")
  | v :: args, p :: params => bind_positional params args (<[p := v]> f_locals)
  end.

Fixpoint bind_keywords (params : list string) (kwargs : list (string * value))
    (f_locals : locals) : result locals :=
  match kwargs with
  | [] =>
      match params with
      | [] => Ok f_locals
      | _ => Exc (TypeError "missing arguments")
      end
  | (k, v) :: kwargs =>
      if bool_decide (k ∈ params)
      then bind_keywords (filter (fun p => p ≠ k) params) kwargs
                         (<[k := v]> f_locals)
      else Exc (TypeError "unexpected keyword argument")
  end.

Definition bind_args (params : list string) (args : list value)
    (kwargs : list (string * value)) : result locals :=
  match bind_positional params args ∅ with
  | Ok (params, f_locals) => bind_keywords params kwargs f_locals
  | Exc e => Exc e
  end.

(** Calling a compiled function with the given parameter names and body.
    A function that falls off its end returns [None]. *)
Definition call_function (fuel : nat) (params : list string) (body : list stmt)
    (args : list value) (kwargs : list (string * value))
    (store : record_store) : option (result value * record_store) :=
  match bind_args params args kwargs with
  | Exc e => Some (Exc e, store)
  | Ok f_locals =>
      match exec_block (exec_stmt fuel) body (f_locals, store) with
      | Some (Normal, fr) => Some (Ok VNone, fr.2)
      | Some (Returned v, fr) => Some (Ok v, fr.2)
      | Some (Raised e, fr) => Some (Exc e, fr.2)
      | _ => None
      end
  end.

End Exec.

End Semantics.

(** ** The decorator and its module state *)

Module Session.
Import Semantics.

(** A function object, as far as [record] uses it: [f.__name__], what
    [inspect.getsource(f)] returns ([None] when it raises), the
    definition that source parses to (its parameter names and
    [parsed.body[0].body]), and the exception, if any, that executing the
    definition in the globals of [f.__module__] raises (a default value or
    a further decorator that is no global of the module). *)
Record function : Type := {
  fn_name : string;
  fn_source : option string;
  fn_params : list string;
  fn_body : list stmt;
  fn_exec_error : option exn
}.

(** One [json.dump] into the trace file: the source record, the record
    store, or what is left of a dump that raised half way. *)
Inductive line : Type :=
| SourceLine (source : string)
| StateLine (store : record_store)
| TornLine.

(** The closure [wrapped]: the variables of [record] it refers to. *)
Record closure : Type := {
  wrapped_f : function;
  wrapped_source : string;
  wrapped_first_dump_call : bool;
  wrapped_file : nat
}.

(** What a global name of the traced function's module can be bound to:
    a plain function, or a wrapper returned by [record]. *)
Inductive callable : Type :=
| Function (g : function)
| Wrapper (w : closure).

(** The module globals of [record.py], the globals [env] of the module that
    defines the traced function, and the temporary files by descriptor. *)
Record state : Type := {
  _record_store_hidden_123 : record_store;
  num_fns_recorded : Z;
  _blocked : bool;
  env : gmap string callable;
  files : list (list line)
}.

Definition initial : state := {|
  _record_store_hidden_123 := None;
  num_fns_recorded := 0;
  _blocked := false;
  env := ∅;
  files := []
|}.

Definition set_store (store : record_store) (st : state) : state :=
  {| _record_store_hidden_123 := store;
     num_fns_recorded := num_fns_recorded st;
     _blocked := _blocked st;
     env := env st;
     files := files st |}.

Definition set_num_fns_recorded (n : Z) (st : state) : state :=
  {| _record_store_hidden_123 := _record_store_hidden_123 st;
     num_fns_recorded := n;
     _blocked := _blocked st;
     env := env st;
     files := files st |}.

Definition set_blocked (b : bool) (st : state) : state :=
  {| _record_store_hidden_123 := _record_store_hidden_123 st;
     num_fns_recorded := num_fns_recorded st;
     _blocked := b;
     env := env st;
     files := files st |}.

Definition set_env (e : gmap string callable) (st : state) : state :=
  {| _record_store_hidden_123 := _record_store_hidden_123 st;
     num_fns_recorded := num_fns_recorded st;
     _blocked := _blocked st;
     env := e;
     files := files st |}.

Definition set_files (fs : list (list line)) (st : state) : state :=
  {| _record_store_hidden_123 := _record_store_hidden_123 st;
     num_fns_recorded := num_fns_recorded st;
     _blocked := _blocked st;
     env := env st;
     files := fs |}.

(** [file.write] of one more line. *)
Definition write (file : nat) (l : line) (st : state) : state :=
  set_files (alter (fun content => content ++ [l]) file (files st)) st.

(** What [json.dump] accepts: sets and exception instances are not
    serializable. *)
Fixpoint json_serializable (v : value) : bool :=
  match v with
  | VNone | VBool _ | VInt _ | VStr _ => true
  | VList items => forallb json_serializable items
  | VDict items => forallb (fun kv => json_serializable kv.2) items
  | VSet _ | VExc _ _ => false
  end.

Definition store_serializable (store : record_store) : bool :=
  match store with
  | None => true
  | Some data =>
      forallb (fun snap : snapshot =>
                 forallb (fun kv => json_serializable kv.2)
                         (map_to_list snap.2)) data
  end.

Definition dump_recorded_state (file : nat) (st : state)
  : result unit * state :=
  if store_serializable (_record_store_hidden_123 st)
  then (Ok tt, write file (StateLine (_record_store_hidden_123 st)) st)
  else (Exc (TypeError "is not JSON serializable"), write file TornLine st).

Definition dump_fn_source (file : nat) (source : string) (st : state) : state :=
  write file (SourceLine source) st.

(** [compile] rejects a tree in which a required field is missing; the only
    such field the rewriter can leave empty is the value of an [Assign]. *)
Fixpoint compilable_item (item : stmt) : bool :=
  match item with
  | Assign _ _ None => false
  | FunctionDef _ _ body | ClassDef _ _ body | With _ _ body =>
      forallb compilable_item body
  | TryFinally _ body finalbody =>
      forallb compilable_item body && forallb compilable_item finalbody
  | For _ _ _ body orelse | While _ _ body orelse | If _ _ body orelse =>
      forallb compilable_item body && forallb compilable_item orelse
  | TryExcept _ body handlers orelse =>
      forallb compilable_item body
      && forallb (fun handler =>
                    match handler with
                    | ExceptHandler _ _ _ hbody => forallb compilable_item hbody
                    end) handlers
      && forallb compilable_item orelse
  | _ => true
  end.

Definition compilable (body : list stmt) : bool := forallb compilable_item body.

(** What [record] returns: [f] itself, or [wrapped]. *)
Inductive decorated : Type :=
| Unchanged (f : function)
| Wrapped (w : closure).

(** The function object that [exec] binds to [f.__name__]. *)
Definition instrumented (f : function) : function :=
  {| fn_name := fn_name f; fn_source := None; fn_params := fn_params f;
     fn_body := _fill_body_with_record (fn_body f) false 0;
     fn_exec_error := None |}.

Definition record (f : function) (st : state) : result decorated * state :=
  (* Make sure this is not a recursive decorator application. *)
  if _blocked st then (Ok (Unchanged f), st)
  (* We only support recording one fn's executions at the moment. *)
  else if negb (num_fns_recorded st =? 0)%Z then
    (Exc (ValueError "Cannot `record` more than one function at a time."), st)
  else
    let st := set_num_fns_recorded (num_fns_recorded st + 1) st in
    match fn_source f with
    | None => (Exc (IOError "could not get source code"), st)
    | Some source =>
        let original_body := fn_body f in
        (* Update body *)
        let new_body := _fill_body_with_record original_body false 0 in
        (* Compile and inject modified function back into its env. *)
        if negb (compilable new_body) then
          (Exc (ValueError "field value is required for Assign"), st)
        else
          (* env[RECORD_FN_NAME] = globals()[RECORD_FN_NAME]: the name the
             capture calls use is resolved by the interpreter
             ([Semantics.exec_stmt]) to [_record_state_fn_hidden_123]. *)
          let st := set_blocked true st in
          (* exec(new_f_compiled, env): the definition still carries its
             decorator, which returns its argument at the guard above. *)
          match fn_exec_error f with
          | Some e => (Exc e, st)
          | None =>
              let st :=
                set_env (<[fn_name f := Function (instrumented f)]> (env st))
                        st in
              let st := set_blocked false st in
              (* Init record store. *)
              let st := set_store (Some []) st in
              let first_dump_call := true in
              let file := length (files st) in
              let st := set_files (files st ++ [[]]) st in
              (Ok (Wrapped {| wrapped_f := f; wrapped_source := source;
                              wrapped_first_dump_call := first_dump_call;
                              wrapped_file := file |}), st)
          end
    end.

Section Calls.

Context (H : host).

(** Calling a function object: its body on the bound arguments. *)
Definition call (fuel : nat) (g : function) (args : list value)
    (kwargs : list (string * value)) (store : record_store)
  : option (result value * record_store) :=
  call_function H fuel (fn_params g) (fn_body g) args kwargs store.

(** [wrapped] from the first [if] on: [r] is what the call in its first
    line came to. *)
Definition wrapped_rest (w : closure) (r : option (result value * state))
  : option (result value * state) :=
  match r with
  | None => None
  | Some (Exc e, st) => Some (Exc e, st)
  | Some (Ok ret, st) =>
      let st :=
        if wrapped_first_dump_call w
        then dump_fn_source (wrapped_file w) (wrapped_source w) st
        else st in
      match dump_recorded_state (wrapped_file w) st with
      | (Ok _, st) => Some (Ok ret, st)
      | (Exc e, st) => Some (Exc e, st)
      end
  end.

(** [env[f.__name__]] is looked up at every call; what it finds may be
    a wrapper, whose call is one more level of [fuel]. *)
Fixpoint wrapped (fuel : nat) (w : closure) (args : list value)
    (kwargs : list (string * value)) (st : state) {struct fuel}
  : option (result value * state) :=
  wrapped_rest w
    match env st !! fn_name (wrapped_f w) with
    | None => Some (Exc (KeyError (fn_name (wrapped_f w))), st)
    | Some (Function g) =>
        match call fuel g args kwargs (_record_store_hidden_123 st) with
        | None => None
        | Some (r, store) => Some (r, set_store store st)
        end
    | Some (Wrapper w') =>
        match fuel with
        | O => None
        | S fuel => wrapped fuel w' args kwargs st
        end
    end.

(** What the program goes on to do: decorate again, call a wrapper, or
    bind a global name of the module, as the [def] statement does with
    what its decorator returned when the function is defined at module
    level. *)
Inductive op : Type :=
| Decorate (g : function)
| Invoke (w : closure) (args : list value) (kwargs : list (string * value))
| Bind (name : string) (c : callable).

Definition run_op (fuel : nat) (o : op) (st : state) : option state :=
  match o with
  | Decorate g => Some (record g st).2
  | Invoke w args kwargs => snd <$> wrapped fuel w args kwargs st
  | Bind name c => Some (set_env (<[name := c]> (env st)) st)
  end.

Fixpoint run_ops (fuel : nat) (ops : list op) (st : state) : option state :=
  match ops with
  | [] => Some st
  | o :: ops =>
      match run_op fuel o st with
      | None => None
      | Some st => run_ops fuel ops st
      end
  end.

End Calls.

(** The guard of [record] is closed: the counter is set and no
    re-entrant application is under way. *)
Definition taken (st : state) : Prop :=
  num_fns_recorded st ≠ 0%Z /\ _blocked st = false.

(** What [wrapped] leaves alone, and what it keeps. *)
Definition untouched (st st' : state) : Prop :=
  num_fns_recorded st' = num_fns_recorded st
  /\ _blocked st' = _blocked st /\ env st' = env st
  /\ (is_Some (_record_store_hidden_123 st) ->
      is_Some (_record_store_hidden_123 st')).

(** The name of [f] is bound to the rewritten function. *)
Definition bound (f : function) (st : state) : Prop :=
  env st !! fn_name f = Some (Function (instrumented f)).

(** The trace file of a wrapper, and the kinds of record in it. *)
Definition trace_file (w : closure) (st : state) : list line :=
  default [] (files st !! wrapped_file w).

Definition is_source (l : line) : bool :=
  match l with SourceLine _ => true | _ => false end.

Definition is_execution (l : line) : bool :=
  match l with StateLine _ => true | _ => false end.

End Session.

(** ** Original and rewritten runs side by side

    [agree]: both record stores are initialised and, unless the function
    has returned, the locals are the same.  [item_sim] and [body_sim]: what
    a statement or a body does, its rewriting does too, from the same
    locals and with the same bound, as long as the rewritten tree
    compiles. *)

Module Preservation.
Import Semantics Session.

Section Relations.

Context (H : host).

Definition agree (o : outcome) (fr fr1 : frame) : Prop :=
  is_Some fr.2 /\ is_Some fr1.2
  /\ match o with Returned _ => True | _ => fr1.1 = fr.1 end.

Definition item_sim (n : nat) (item : stmt) : Prop :=
  forall f_locals S S1 o fr,
    is_Some S -> is_Some S1 ->
    compilable (_fill_body_with_record [item] false 0) = true ->
    exec_stmt H n item (f_locals, S) = Some (o, fr) ->
    exists fr1,
      exec_block (exec_stmt H n) (_fill_body_with_record [item] false 0)
                 (f_locals, S1) = Some (o, fr1)
      /\ agree o fr fr1.

Definition body_sim (n : nat) (body : list stmt) : Prop :=
  forall p l f_locals S S1 o fr,
    is_Some S -> is_Some S1 ->
    compilable (_fill_body_with_record body p l) = true ->
    exec_block (exec_stmt H n) body (f_locals, S) = Some (o, fr) ->
    exists fr1,
      exec_block (exec_stmt H n) (_fill_body_with_record body p l)
                 (f_locals, S1) = Some (o, fr1)
      /\ agree o fr fr1.

(** The record store, once initialised, stays initialised. *)
Definition keeps_store (run : runner) : Prop :=
  forall item fr o fr', is_Some fr.2 -> run item fr = Some (o, fr') ->
    is_Some fr'.2.

End Relations.

End Preservation.

(** ** Sample functions

    A small host: the calls [set()], [ValueError()] and [range(n)], the
    augmented assignment [total += i], and [except] clauses that name the
    exception class or [Exception]. *)

Module Samples.
Import Semantics Session.

Definition sample_eval (e : expr) (f_locals : locals) : result value :=
  match e with
  | Call (Name f Load) [] =>
      if String.eqb f "set" then Ok (VSet [])
      else if String.eqb f "ValueError" then Ok (VExc "ValueError" [])
      else Exc ("NameError", [VStr f])
  | Call (Name f Load) [Num n] =>
      if String.eqb f "range" then Ok (VList (VInt <$> seqZ 0 n))
      else Exc ("NameError", [VStr f])
  | Name x _ => Exc ("NameError", [VStr x])
  | _ => Exc (TypeError "unsupported expression")
  end.

Definition sample_simple (code : string) (f_locals : locals) : result locals :=
  if String.eqb code "total += i" then
    match f_locals !! "total", f_locals !! "i" with
    | Some (VInt a), Some (VInt b) => Ok (<["total" := VInt (a + b)]> f_locals)
    | _, _ => Exc (TypeError "unsupported operand type(s) for +=")
    end
  else Exc (TypeError "unsupported statement").

Definition sample_matches (t : expr) (e : exn) (f_locals : locals) : bool :=
  match t with
  | Name cls _ => String.eqb cls e.1 || String.eqb cls "Exception"
  | _ => false
  end.

Definition sample_host : host := {|
  eval_src := sample_eval;
  store_target := fun _ _ _ => Exc (TypeError "unsupported target");
  exec_simple := sample_simple;
  exc_matches := sample_matches
|}.

(** [[
@record
def foo():
    return 3
]] *)
Definition foo : function := {|
  fn_name := "foo";
  fn_source := Some "@record
def foo():
    return 3
";
  fn_params := [];
  fn_body := [Return 3 (Some (Num 3))];
  fn_exec_error := None
|}.

(** [[
@record
def bare():
    return
]] *)
Definition bare : function := {|
  fn_name := "bare";
  fn_source := Some "@record
def bare():
    return
";
  fn_params := [];
  fn_body := [Return 3 None];
  fn_exec_error := None
|}.

(** [[
@record
def keep():
    s = set()
    return 1
]] *)
Definition keep : function := {|
  fn_name := "keep";
  fn_source := Some "@record
def keep():
    s = set()
    return 1
";
  fn_params := [];
  fn_body := [Assign 3 [Name "s" Store] (Some (Call (Name "set" Load) []));
              Return 4 (Some (Num 1))];
  fn_exec_error := None
|}.

(** [[
@record
def check(x):
    y = 1
    if x:
        raise ValueError()
    return y
]] *)
Definition check : function := {|
  fn_name := "check";
  fn_source := Some "@record
def check(x):
    y = 1
    if x:
        raise ValueError()
    return y
";
  fn_params := ["x"];
  fn_body := [Assign 3 [Name "y" Store] (Some (Num 1));
              If 4 (Name "x" Load)
                 [Raise 5 (Some (Call (Name "ValueError" Load) []))] [];
              Return 6 (Some (Name "y" Load))];
  fn_exec_error := None
|}.

(** [[
@record
def total3():
    total = 0
    for i in range(3):
        total += i
    return total
]] *)
Definition total3 : function := {|
  fn_name := "total3";
  fn_source := Some "@record
def total3():
    total = 0
    for i in range(3):
        total += i
    return total
";
  fn_params := [];
  fn_body := [Assign 3 [Name "total" Store] (Some (Num 0));
              For 4 (Name "i" Store) (Call (Name "range" Load) [Num 3])
                  [Simple 5 "total += i"] [];
              Return 6 (Some (Name "total" Load))];
  fn_exec_error := None
|}.

(** [[
@record
def ident(x):
    return x
]] *)
Definition ident : function := {|
  fn_name := "ident";
  fn_source := Some "@record
def ident(x):
    return x
";
  fn_params := ["x"];
  fn_body := [Return 3 (Some (Name "x" Load))];
  fn_exec_error := None
|}.

(** [[
@record
def guarded():
    try:
        pass
    finally:
        return 1
]] *)
Definition guarded : function := {|
  fn_name := "guarded";
  fn_source := Some "@record
def guarded():
    try:
        pass
    finally:
        return 1
";
  fn_params := [];
  fn_body := [TryFinally 3 [Pass 4] [Return 6 (Some (Num 1))]];
  fn_exec_error := None
|}.

(** [[
def outer():
    d = 5
    @record
    def local_default(x=d):
        return x
]]
    The default value is a local of [outer] and no global of the module:
    executing the definition there raises. *)
Definition local_default : function := {|
  fn_name := "local_default";
  fn_source := Some "    @record
    def local_default(x=d):
        return x
";
  fn_params := ["x"];
  fn_body := [Return 3 (Some (Name "x" Load))];
  fn_exec_error := Some ("NameError", [VStr "name 'd' is not defined"])
|}.

(** A function defined where its source cannot be retrieved. *)
Definition dynamic : function := {|
  fn_name := "dynamic";
  fn_source := None;
  fn_params := [];
  fn_body := [Pass 1];
  fn_exec_error := None
|}.

(** The wrapper that [record] returns for a sample function decorated
    first in a new process, and the state it leaves. *)
Definition wrapper_of (f : function) : closure := {|
  wrapped_f := f;
  wrapped_source := default "" (fn_source f);
  wrapped_first_dump_call := true;
  wrapped_file := 0
|}.

Definition registered_state (f : function) : state := (record f initial).2.

End Samples.

(** ** Objects, identity and [copy.deepcopy]

    Here a value is a reference into a heap of objects, so that two names
    can be bound to one list and a list can be changed in place.  The
    capture function is the same line of [record.py] as in [Semantics], now
    with [copy.deepcopy] as the [copy] module implements it for atomic
    values, lists and dictionaries with string keys: a memo of the objects
    already copied, the copy of a container registered in the memo before
    its items are copied. *)

Module ObjectModel.

Abbreviation loc := nat.

Inductive obj : Type :=
| ONone
| OInt (n : Z)
| OStr (s : string)
| OList (items : list loc)
| ODict (items : list (string * loc)).

(** Addresses are positions; a new object goes to the end. *)
Abbreviation heap := (list obj).

Definition atomic (o : obj) : bool :=
  match o with
  | ONone | OInt _ | OStr _ => true
  | OList _ | ODict _ => false
  end.

(** [y.append(a)] and [y[key] = a]. *)
Definition list_append (y a : loc) (h : heap) : heap :=
  match h !! y with
  | Some (OList items) => <[y := OList (items ++ [a])]> h
  | _ => h
  end.

Definition dict_setitem (y : loc) (key : string) (a : loc) (h : heap) : heap :=
  match h !! y with
  | Some (ODict items) =>
      <[y := ODict (filter (fun kv => kv.1 ≠ key) items ++ [(key, a)])]> h
  | _ => h
  end.

Definition copier : Type :=
  loc -> gmap loc loc -> heap -> option (loc * gmap loc loc * heap).

(** [for a in x: y.append(deepcopy(a, memo))] *)
Fixpoint copy_list_items (deepcopy : copier) (y : loc) (items : list loc)
    (memo : gmap loc loc) (h : heap) : option (gmap loc loc * heap) :=
  match items with
  | [] => Some (memo, h)
  | a :: items =>
      match deepcopy a memo h with
      | None => None
      | Some (a', memo, h) =>
          copy_list_items deepcopy y items memo (list_append y a' h)
      end
  end.

(** [for key, value in x.iteritems():
       y[deepcopy(key, memo)] = deepcopy(value, memo)];
    keys are strings, which [deepcopy] returns as they are. *)
Fixpoint copy_dict_items (deepcopy : copier) (y : loc)
    (items : list (string * loc)) (memo : gmap loc loc) (h : heap)
  : option (gmap loc loc * heap) :=
  match items with
  | [] => Some (memo, h)
  | (key, a) :: items =>
      match deepcopy a memo h with
      | None => None
      | Some (a', memo, h) =>
          copy_dict_items deepcopy y items memo (dict_setitem y key a' h)
      end
  end.

(** [copy.deepcopy(x, memo)]; [fuel] bounds the recursion depth. *)
Fixpoint deepcopy (fuel : nat) (x : loc) (memo : gmap loc loc) (h : heap)
  : option (loc * gmap loc loc * heap) :=
  match fuel with
  | O => None
  | S fuel =>
      match memo !! x with
      | Some y => Some (y, memo, h)
      | None =>
          match h !! x with
          | None => None
          | Some (OList items) =>
              let y := length h in
              let h := h ++ [OList []] in
              let memo := <[x := y]> memo in
              match copy_list_items (deepcopy fuel) y items memo h with
              | None => None
              | Some (memo, h) => Some (y, <[x := y]> memo, h)
              end
          | Some (ODict items) =>
              let y := length h in
              let h := h ++ [ODict []] in
              let memo := <[x := y]> memo in
              match copy_dict_items (deepcopy fuel) y items memo h with
              | None => None
              | Some (memo, h) => Some (y, <[x := y]> memo, h)
              end
          | Some _ => Some (x, <[x := x]> memo, h)
          end
      end
  end.

(** The heap, the entries of [_record_store_hidden_123['data']] (a line
    number and the address of the copied locals), and the addresses that
    the copies occupy; no name of the traced function is ever bound to one
    of those. *)
Record state : Type := {
  objects : heap;
  data : list (Z * loc);
  copies : gset loc
}.

Definition _record_state_fn_hidden_123 (fuel : nat) (lineno : Z)
    (f_locals : loc) (st : state) : option state :=
  match deepcopy fuel f_locals ∅ (objects st) with
  | None => None
  | Some (y, _, h) =>
      Some {| objects := h;
              data := data st ++ [(lineno, y)];
              copies := copies st
                        ∪ set_seq (length (objects st))
                                  (length h - length (objects st)) |}
  end.

(** What the traced function can do to the heap between two capture
    calls: create an object, or change a list or a dictionary in place;
    rebinding a local name is [SetKey] on the dictionary of locals. *)
Inductive mutation : Type :=
| New (o : obj)
| SetItem (l : loc) (i : nat) (a : loc)
| Append (l : loc) (a : loc)
| SetKey (l : loc) (key : string) (a : loc)
| DelKey (l : loc) (key : string).

Definition mutate (m : mutation) (h : heap) : heap :=
  match m with
  | New o => h ++ [o]
  | SetItem l i a =>
      match h !! l with
      | Some (OList items) => <[l := OList (<[i := a]> items)]> h
      | _ => h
      end
  | Append l a => list_append l a h
  | SetKey l key a => dict_setitem l key a h
  | DelKey l key =>
      match h !! l with
      | Some (ODict items) =>
          <[l := ODict (filter (fun kv => kv.1 ≠ key) items)]> h
      | _ => h
      end
  end.

Definition target (m : mutation) : option loc :=
  match m with
  | New _ => None
  | SetItem l _ _ | Append l _ | SetKey l _ _ | DelKey l _ => Some l
  end.

Inductive event : Type :=
| Capture (lineno : Z) (f_locals : loc)
| Mutate (m : mutation).

(** One step of an instrumented run.  A mutation aimed at a copy is not a
    step the traced function can take. *)
Definition step (fuel : nat) (ev : event) (st : state) : option state :=
  match ev with
  | Capture lineno f_locals =>
      _record_state_fn_hidden_123 fuel lineno f_locals st
  | Mutate m =>
      match target m with
      | Some l =>
          if bool_decide (l ∈ copies st) then None
          else Some {| objects := mutate m (objects st);
                       data := data st; copies := copies st |}
      | None => Some {| objects := mutate m (objects st);
                        data := data st; copies := copies st |}
      end
  end.

Fixpoint run (fuel : nat) (evs : list event) (st : state) : option state :=
  match evs with
  | [] => Some st
  | ev :: evs =>
      match step fuel ev st with
      | None => None
      | Some st => run fuel evs st
      end
  end.

(** The store as [record] initialises it, over any heap. *)
Definition fresh (h : heap) : state :=
  {| objects := h; data := []; copies := ∅ |}.

(** The content of the object at an address, as a value. *)
Fixpoint content (fuel : nat) (h : heap) (l : loc) : option Semantics.value :=
  match fuel with
  | O => None
  | S fuel =>
      match h !! l with
      | None => None
      | Some ONone => Some Semantics.VNone
      | Some (OInt n) => Some (Semantics.VInt n)
      | Some (OStr s) => Some (Semantics.VStr s)
      | Some (OList items) =>
          Semantics.VList <$> mapM (content fuel h) items
      | Some (ODict items) =>
          Semantics.VDict <$>
            mapM (fun kv => pair kv.1 <$> content fuel h kv.2) items
      end
  end.

(** *** Invariants of copying

    [children]: the addresses an object refers to. *)

Definition children (o : obj) : list loc :=
  match o with
  | OList items => items
  | ODict items => items.*2
  | _ => []
  end.

(** During one [deepcopy] that started on heap [h0]: an address is [good]
    when it is a cell created by this copy or an atomic object of [h0]. *)
Definition good (h0 : heap) (len : nat) (c : loc) : Prop :=
  (length h0 <= c < len)%nat
  \/ exists o, h0 !! c = Some o /\ atomic o = true.

Record copying (h0 : heap) (memo : gmap loc loc) (h : heap) : Prop := {
  copying_length : (length h0 <= length h)%nat;
  copying_old : forall l, (l < length h0)%nat -> h !! l = h0 !! l;
  copying_new : forall l, (length h0 <= l < length h)%nat ->
    exists o, h !! l = Some o /\ atomic o = false
              /\ Forall (good h0 (length h)) (children o);
  copying_memo : forall k v, memo !! k = Some v -> good h0 (length h) v
}.

Definition copier_ok (h0 : heap) (cp : copier) : Prop :=
  forall x memo h y memo' h',
    copying h0 memo h -> cp x memo h = Some (y, memo', h') ->
    copying h0 memo' h' /\ good h0 (length h') y
    /\ (length h <= length h')%nat.

(** An address is settled when it is one of the copies or an atomic
    object. *)
Definition settled (owned : gset loc) (h : heap) (l : loc) : Prop :=
  l ∈ owned \/ exists o, h !! l = Some o /\ atomic o = true.

(** Every copy is on the heap and refers to settled addresses only. *)
Definition closed (owned : gset loc) (h : heap) : Prop :=
  forall l, l ∈ owned ->
    exists o, h !! l = Some o /\ Forall (settled owned h) (children o).

Definition store_ok (st : state) : Prop :=
  closed (copies st) (objects st)
  /\ Forall (fun snap => settled (copies st) (objects st) snap.2) (data st).

(** [h'] keeps the copies and the atomic objects of [h]. *)
Definition keeps (owned : gset loc) (h h' : heap) : Prop :=
  (forall l, l ∈ owned -> h' !! l = h !! l)
  /\ (forall l o, h !! l = Some o -> atomic o = true -> h' !! l = Some o).

(** *** Invariants of a copy being a copy

    A heap as Python builds it: every reference is to an object on the
    heap and a dictionary has each key once. *)
Definition wf_obj (h : heap) (o : obj) : bool :=
  forallb (fun c => c <? length h)%nat (children o)
  && match o with
     | ODict items => bool_decide (NoDup items.*1)
     | _ => true
     end.

Definition wf_heap (h : heap) : bool := forallb (wf_obj h) h.

(** [v] holds the finished copy of the object at [k]: the same kind of
    object, its items the copies that the memo gives for the items at
    [k]. *)
Definition image (h0 : heap) (memo : gmap loc loc) (h : heap) (k v : loc)
  : Prop :=
  match h0 !! k with
  | Some (OList items) =>
      (length h0 <= v)%nat
      /\ exists items', h !! v = Some (OList items')
           /\ Forall2 (fun a a' => memo !! a = Some a') items items'
  | Some (ODict items) =>
      (length h0 <= v)%nat
      /\ exists items', h !! v = Some (ODict items')
           /\ Forall2 (fun kv kv' : string * loc =>
                         kv.1 = kv'.1 /\ memo !! kv.2 = Some kv'.2)
                      items items'
  | Some _ => v = k
  | None => False
  end.

(** The state of a copy under way; [P] holds the containers whose items
    are being copied. *)
Record imaging (h0 : heap) (P : gset loc) (memo : gmap loc loc) (h : heap)
  : Prop := {
  imaging_copying : copying h0 memo h;
  imaging_keys : forall k v, memo !! k = Some v -> (k < length h0)%nat;
  imaging_done : forall k v, memo !! k = Some v -> k ∉ P -> image h0 memo h k v;
  imaging_inj : forall k1 k2 v,
    memo !! k1 = Some v -> memo !! k2 = Some v -> (length h0 <= v)%nat ->
    k1 = k2;
  imaging_stack : forall k, k ∈ P -> is_Some (memo !! k)
}.

Definition copier_images (h0 : heap) (cp : copier) : Prop :=
  forall P x memo h y memo' h',
    (x < length h0)%nat ->
    imaging h0 P memo h -> cp x memo h = Some (y, memo', h') ->
    imaging h0 P memo' h' /\ memo ⊆ memo' /\ memo' !! x = Some y
    /\ (forall k v, k ∈ P -> memo !! k = Some v -> h' !! v = h !! v)
    /\ (length h <= length h')%nat.

(** How many objects of [h0] the memo does not hold yet. *)
Definition uncopied (h0 : heap) (memo : gmap loc loc) : nat :=
  length (filter (fun k => memo !! k = None) (seq 0 (length h0))).

(** A heap with two names bound to one list:
    [[
    0: 1    1: 2    2: [<0>, <1>]    3: {'a': <2>, 'b': <2>}    4: 7
    ]]
    the store after a capture of the locals at address 3, and after the list
    was then appended to and [a] rebound. *)
Definition sample_heap : heap :=
  [OInt 1; OInt 2; OList [0; 1]%nat; ODict [("a", 2%nat); ("b", 2%nat)]; OInt 7].

Definition sample_captured : state :=
  default (fresh sample_heap) (run 6 [Capture 2 3%nat] (fresh sample_heap)).

Definition sample_mutated : state :=
  default sample_captured
    (run 6 [Mutate (Append 2%nat 4%nat); Mutate (SetKey 3%nat "a" 4%nat)]
         sample_captured).

End ObjectModel.

(** ** Measures for further properties of the rewriter, the session and
    the copy *)

Module Markers.

(** The line markers of the capture calls of a tree, in source order, over
    the statement lists the rewriter looks at ([body], [orelse] and the
    bodies of [handlers]). *)
Fixpoint capture_lines_item (item : stmt) : list Z :=
  match item with
  | Expr _ e =>
      match is_record_call e with
      | Some lineno => [lineno]
      | None => []
      end
  | FunctionDef _ _ body | ClassDef _ _ body | With _ _ body
  | TryFinally _ body _ => flat_map capture_lines_item body
  | For _ _ _ body orelse | While _ _ body orelse | If _ _ body orelse =>
      flat_map capture_lines_item body ++ flat_map capture_lines_item orelse
  | TryExcept _ body handlers orelse =>
      flat_map capture_lines_item body
      ++ flat_map (fun handler =>
                     match handler with
                     | ExceptHandler _ _ _ hbody =>
                         flat_map capture_lines_item hbody
                     end) handlers
      ++ flat_map capture_lines_item orelse
  | _ => []
  end.

Definition capture_lines (body : list stmt) : list Z :=
  flat_map capture_lines_item body.

(** The line numbers of the statements of a tree, in source order, over the
    same statement lists; the line of an [if], [while] or [for] stands once
    more where its [else] branch begins. *)
Fixpoint statement_lines_item (item : stmt) : list Z :=
  match item with
  | FunctionDef l _ body | ClassDef l _ body | With l _ body
  | TryFinally l body _ => l :: flat_map statement_lines_item body
  | For l _ _ body orelse | While l _ body orelse | If l _ body orelse =>
      l :: flat_map statement_lines_item body
        ++ l :: flat_map statement_lines_item orelse
  | TryExcept l body handlers orelse =>
      l :: flat_map statement_lines_item body
        ++ flat_map (fun handler =>
                       match handler with
                       | ExceptHandler _ _ _ hbody =>
                           flat_map statement_lines_item hbody
                       end) handlers
        ++ flat_map statement_lines_item orelse
  | _ => [lineno_of item]
  end.

Definition statement_lines (body : list stmt) : list Z :=
  flat_map statement_lines_item body.

(** No [return] without an expression, over the same statement lists. *)
Fixpoint valued_item (item : stmt) : bool :=
  match item with
  | Return _ None => false
  | FunctionDef _ _ body | ClassDef _ _ body | With _ _ body
  | TryFinally _ body _ => forallb valued_item body
  | For _ _ _ body orelse | While _ _ body orelse | If _ _ body orelse =>
      forallb valued_item body && forallb valued_item orelse
  | TryExcept _ body handlers orelse =>
      forallb valued_item body
      && forallb (fun handler =>
                    match handler with
                    | ExceptHandler _ _ _ hbody => forallb valued_item hbody
                    end) handlers
      && forallb valued_item orelse
  | _ => true
  end.

Definition valued (body : list stmt) : bool := forallb valued_item body.

End Markers.

Module Growth.
Import Semantics Session.

(** The record store [S'] holds what [S] holds, in the same order, and
    possibly more after it; a store that is not initialised stays so. *)
Definition extends (S S' : record_store) : Prop :=
  match S with
  | None => S' = None
  | Some data => exists more, S' = Some (data ++ more)
  end.

(** The lines of a file are kept, possibly with more after them. *)
Definition appended (fs fs' : list (list line)) : Prop :=
  forall i content, fs !! i = Some content ->
    exists more, fs' !! i = Some (content ++ more).

Section Calls.
Context (H : host).

(** A caller that invokes the wrapper on one argument list after the other
    and keeps what each call returned or raised. *)
Fixpoint invoke_all (fuel : nat) (w : closure)
    (calls : list (list value * list (string * value))) (st : state)
  : option (list (result value) * state) :=
  match calls with
  | [] => Some ([], st)
  | (args, kwargs) :: calls =>
      match wrapped H fuel w args kwargs st with
      | None => None
      | Some (r, st) =>
          match invoke_all fuel w calls st with
          | None => None
          | Some (rs, st) => Some (r :: rs, st)
          end
      end
  end.

End Calls.

(** What holds of the module state at any time of a process: the counter
    is 0 or 1, there is at most one trace file, and the file exists exactly
    when the record store is initialised, which takes a registration that
    went through. *)
Definition single_registration (st : state) : Prop :=
  (num_fns_recorded st = 0 \/ num_fns_recorded st = 1)
  /\ (length (files st) <= 1)%nat
  /\ (is_Some (_record_store_hidden_123 st) <-> length (files st) = 1%nat)
  /\ (length (files st) = 1%nat ->
      num_fns_recorded st = 1 /\ _blocked st = false).

Definition returned (r : result value) : bool :=
  match r with Ok _ => true | Exc _ => false end.

End Growth.

Module Coverage.
Import ObjectModel.

(** Every cell allocated since the copy started is registered in the memo
    as the copy of some object. *)
Definition covered (h0 : heap) (memo : gmap loc loc) (h : heap) : Prop :=
  forall l, (length h0 <= l < length h)%nat -> exists k, memo !! k = Some l.

Definition copier_covers (h0 : heap) (cp : copier) : Prop :=
  forall x memo h y memo' h',
    covered h0 memo h -> cp x memo h = Some (y, memo', h') ->
    covered h0 memo' h' /\ memo ⊆ memo'.

End Coverage.

Module Reflection.
Import Semantics Session Preservation.

Section Relations.
Context (H : host).

(** What the rewriting of a statement or of a body does, the statement or
    the body does too, from the same locals and with the same bound. *)
Definition item_back (n : nat) (item : stmt) : Prop :=
  forall f_locals S S1 o fr1,
    is_Some S -> is_Some S1 ->
    exec_block (exec_stmt H n) (_fill_body_with_record [item] false 0)
               (f_locals, S1) = Some (o, fr1) ->
    exists fr,
      exec_stmt H n item (f_locals, S) = Some (o, fr) /\ agree o fr fr1.

Definition body_back (n : nat) (body : list stmt) : Prop :=
  forall p l f_locals S S1 o fr1,
    is_Some S -> is_Some S1 ->
    exec_block (exec_stmt H n) (_fill_body_with_record body p l)
               (f_locals, S1) = Some (o, fr1) ->
    exists fr,
      exec_block (exec_stmt H n) body (f_locals, S) = Some (o, fr)
      /\ agree o fr fr1.

End Relations.

End Reflection.

(** * Properties *)

(** ** Induction over statement trees *)

Section NestedInduction.
Variable P : stmt -> Prop.
Hypothesis HFunctionDef : forall l name body, Forall P body -> P (FunctionDef l name body).
Hypothesis HClassDef : forall l name body, Forall P body -> P (ClassDef l name body).
Hypothesis HReturn : forall l v, P (Return l v).
Hypothesis HAssign : forall l ts v, P (Assign l ts v).
Hypothesis HExpr : forall l e, P (Expr l e).
Hypothesis HPass : forall l, P (Pass l).
Hypothesis HBreak : forall l, P (Break l).
Hypothesis HContinue : forall l, P (Continue l).
Hypothesis HRaise : forall l e, P (Raise l e).
Hypothesis HSimple : forall l c, P (Simple l c).
Hypothesis HFor : forall l t i body orelse,
  Forall P body -> Forall P orelse -> P (For l t i body orelse).
Hypothesis HWhile : forall l t body orelse,
  Forall P body -> Forall P orelse -> P (While l t body orelse).
Hypothesis HIf : forall l t body orelse,
  Forall P body -> Forall P orelse -> P (If l t body orelse).
Hypothesis HWith : forall l c body, Forall P body -> P (With l c body).
Hypothesis HTryExcept : forall l body handlers orelse,
  Forall P body -> Forall (fun h => Forall P (handler_body h)) handlers ->
  Forall P orelse -> P (TryExcept l body handlers orelse).
Hypothesis HTryFinally : forall l body finalbody,
  Forall P body -> Forall P finalbody -> P (TryFinally l body finalbody).

Lemma stmt_nested_ind : forall item, P item.
Proof.
  fix IH 1.
  assert (IHs : forall body, Forall P body).
  { fix IHb 1. intros [|s body]; constructor; [apply IH | apply IHb]. }
  assert (IHh : forall handlers,
             Forall (fun h => Forall P (handler_body h)) handlers).
  { fix IHh 1. intros [|[hl ty nm hbody] hs]; constructor;
      [apply IHs | apply IHh]. }
  clear IH.
  intros [l name body|l name body|l v|l ts v|l e|l|l|l|l e|l c
         |l t i body orelse|l t body orelse|l t body orelse|l c body
         |l body handlers orelse|l body finalbody]; auto.
Qed.
End NestedInduction.

Lemma fill_step_acc nested acc item :
  fill_step nested acc item = acc ++ fill_step nested [] item.
Proof.
  destruct item; simpl; try reflexivity;
    destruct (nested _) as [item' [|]]; simpl;
    rewrite <- ?app_assoc; reflexivity.
Qed.

Lemma fill_fold_acc nested body acc :
  fold_left (fill_step nested) body acc
  = acc ++ fold_left (fill_step nested) body [].
Proof.
  revert acc. induction body as [|item body IH]; intros acc; simpl.
  - by rewrite app_nil_r.
  - rewrite IH, (IH (fill_step nested [] item)), (fill_step_acc nested acc).
    by rewrite app_assoc.
Qed.

Lemma fill_prepend body l :
  _fill_body_with_record body true l
  = _make_record_state_call_expr l :: _fill_body_with_record body false l.
Proof.
  unfold _fill_body_with_record, fill_from. simpl.
  by rewrite fill_fold_acc.
Qed.

Lemma fill_cons item body l :
  _fill_body_with_record (item :: body) false l
  = _fill_body_with_record [item] false l ++ _fill_body_with_record body false l.
Proof.
  unfold _fill_body_with_record, fill_from. simpl.
  by rewrite fill_fold_acc.
Qed.

Lemma fill_lineno_irrelevant body l l' :
  _fill_body_with_record body false l = _fill_body_with_record body false l'.
Proof. reflexivity. Qed.

Lemma fill_app body1 body2 l :
  _fill_body_with_record (body1 ++ body2) false l
  = _fill_body_with_record body1 false l ++ _fill_body_with_record body2 false l.
Proof.
  induction body1 as [|item body1 IH]; [done|].
  rewrite <- app_comm_cons, fill_cons, IH, (fill_cons item body1).
  by rewrite app_assoc.
Qed.

Lemma fill_plain item l :
  plain item = true ->
  _fill_body_with_record [item] false l
  = [item; _make_record_state_call_expr (lineno_of item)].
Proof. by destruct item. Qed.

Lemma fill_return n v l :
  _fill_body_with_record [Return n v] false l
  = [Assign 0 [Name RETVAL_NAME Store] v;
     _make_record_state_call_expr n;
     Return 0 (Some (Name RETVAL_NAME Load))].
Proof. reflexivity. Qed.

(** head of a rewritten body is never a Return *)
Lemma fill_head_not_return body p l n v rest :
  _fill_body_with_record body p l <> Return n v :: rest.
Proof.
  destruct p; [by rewrite fill_prepend|].
  destruct body as [|item body]; [done|].
  rewrite fill_cons. by destruct item.
Qed.

Lemma is_capture_record_call l : is_capture (_make_record_state_call_expr l) = true.
Proof. reflexivity. Qed.

Lemma original_list_capture f l rest :
  original_list f (_make_record_state_call_expr l :: rest) = original_list f rest.
Proof. reflexivity. Qed.


Lemma fill_FunctionDef n name body l :
  _fill_body_with_record [FunctionDef n name body] false l
  = [FunctionDef n name (_fill_body_with_record body true n)].
Proof. reflexivity. Qed.
Lemma fill_ClassDef n name body l :
  _fill_body_with_record [ClassDef n name body] false l
  = [ClassDef n name (_fill_body_with_record body true n)].
Proof. reflexivity. Qed.
Lemma fill_With n ctx body l :
  _fill_body_with_record [With n ctx body] false l
  = [With n ctx (_fill_body_with_record body true n)].
Proof. reflexivity. Qed.
Lemma fill_TryFinally n body finalbody l :
  _fill_body_with_record [TryFinally n body finalbody] false l
  = [TryFinally n (_fill_body_with_record body true n) finalbody].
Proof. reflexivity. Qed.
Lemma fill_For n target iter body orelse l :
  _fill_body_with_record [For n target iter body orelse] false l
  = [For n target iter (_fill_body_with_record body true n)
                       (_fill_body_with_record orelse true n)].
Proof. reflexivity. Qed.
Lemma fill_While n test body orelse l :
  _fill_body_with_record [While n test body orelse] false l
  = [While n test (_fill_body_with_record body true n)
                  (_fill_body_with_record orelse true n)].
Proof. reflexivity. Qed.
Lemma fill_If n test body orelse l :
  _fill_body_with_record [If n test body orelse] false l
  = [If n test (_fill_body_with_record body true n)
               (_fill_body_with_record orelse true n)].
Proof. reflexivity. Qed.
Lemma fill_TryExcept n body handlers orelse l :
  _fill_body_with_record [TryExcept n body handlers orelse] false l
  = [TryExcept n (_fill_body_with_record body true n)
                 (map fill_handler handlers)
                 (_fill_body_with_record orelse false n)].
Proof. reflexivity. Qed.

Lemma roundtrip_list body :
  Forall roundtrip_item body -> untraced body = true ->
  forall p l, original_of (_fill_body_with_record body p l) = body.
Proof.
  intros HF Hu.
  assert (Hf : original_of (_fill_body_with_record body false 0) = body).
  { induction HF as [|item body Hi _ IH]; [done|].
    simpl in Hu. apply andb_prop in Hu as [Hu1 Hu2]. apply Hi; auto. }
  intros [|] l; [|exact Hf].
  rewrite fill_prepend. exact Hf.
Qed.

Lemma original_of_cons_compound item rest :
  is_capture item = false ->
  (forall l ts v, item <> Assign l ts v) ->
  original_of (item :: rest) = original_item item :: original_of rest.
Proof.
  intros Hc Hne. unfold original_of.
  destruct item; simpl in *; try done. 
  - by destruct (Hne lineno targets value).
  - by rewrite Hc.
Qed.

Lemma original_of_plain item rest :
  plain item = true -> is_capture item = false ->
  original_of (item :: _make_record_state_call_expr (lineno_of item)
                    :: _fill_body_with_record rest false 0)
  = item :: original_of (_fill_body_with_record rest false 0).
Proof.
  intros Hp Hc. unfold original_of.
  destruct item; try discriminate Hp; try reflexivity.
  - destruct targets as [|t [|t' ts]]; try reflexivity.
    cbn [original_list lineno_of _make_record_state_call_expr].
    destruct (_fill_body_with_record rest false 0) as [|[] R] eqn:E;
      try reflexivity.
    by apply fill_head_not_return in E.
  - cbn [original_list]. by rewrite Hc.
Qed.

Lemma untraced_not_capture item :
  untraced_item item = true -> is_capture item = false.
Proof.
  destruct item; try done.
  simpl. intros Hu. apply andb_prop in Hu as [Hu _].
  by apply negb_true_iff in Hu.
Qed.

Lemma original_of_return l v rest :
  original_of (_fill_body_with_record [Return l v] false 0 ++ rest)
  = Return l v :: original_of rest.
Proof. reflexivity. Qed.

Lemma roundtrip_handlers handlers :
  Forall (fun h => Forall roundtrip_item (handler_body h)) handlers ->
  forallb (fun handler =>
             match handler with
             | ExceptHandler _ _ _ hbody => forallb untraced_item hbody
             end) handlers = true ->
  map (fun handler =>
         match handler with
         | ExceptHandler hl ty nm hbody =>
             ExceptHandler hl ty nm (original_list original_item hbody)
         end) (map fill_handler handlers) = handlers.
Proof.
  induction 1 as [|[hl ty nm hbody] hs Hh _ IH]; [done|].
  simpl. intros Hu. apply andb_prop in Hu as [Hu1 Hu2].
  rewrite (IH Hu2). f_equal. f_equal.
  by apply (roundtrip_list hbody).
Qed.

Lemma roundtrip_all item : roundtrip_item item.
Proof.
  induction item using stmt_nested_ind; intros Hu rest IHrest;
    rewrite fill_cons;
    try (rewrite fill_plain by done; cbn [app];
         rewrite original_of_plain;
         [by rewrite IHrest|done|by apply untraced_not_capture]).
  all: try (rewrite original_of_return; by rewrite IHrest).
  all: simpl in Hu; repeat (apply andb_prop in Hu as [Hu ?]).
  all: rewrite ?fill_FunctionDef, ?fill_ClassDef, ?fill_With, ?fill_TryFinally,
         ?fill_For, ?fill_While, ?fill_If, ?fill_TryExcept; cbn [app];
       rewrite original_of_cons_compound by done; rewrite IHrest;
       cbn [original_item]; f_equal; f_equal;
       try (by apply roundtrip_list); by apply roundtrip_handlers.
Qed.

Lemma original_of_fill body p l :
  untraced body = true ->
  original_of (_fill_body_with_record body p l) = body.
Proof.
  intros Hu. apply roundtrip_list; [|done].
  apply Forall_forall. intros item _. apply roundtrip_all.
Qed.

(** ** The rewritten function behaves like the original *)

Module PreservationFacts.
Import Semantics Session Preservation.

Section Simulation.
Context (H : host).

Lemma exec_block_app run a b fr :
  exec_block run (a ++ b) fr
  = match exec_block run a fr with
    | Some (Normal, fr') => exec_block run b fr'
    | r => r
    end.
Proof.
  revert fr. induction a as [|s a IH]; intros fr; simpl; [done|].
  destruct (run s fr) as [[[] fr']|]; auto.
Qed.

Lemma exec_block_singleton run item fr :
  exec_block run [item] fr = run item fr.
Proof. simpl. by destruct (run item fr) as [[[] fr']|]. Qed.

Lemma exec_plain_fuel n item :
  plain item = true -> exec_stmt H n item = exec_stmt H 0 item.
Proof. by destruct n, item. Qed.

Lemma exec_return_fuel n l v :
  exec_stmt H n (Return l v) = exec_stmt H 0 (Return l v).
Proof. by destruct n. Qed.

Lemma exec_capture n l f_locals data :
  exec_stmt H n (_make_record_state_call_expr l) (f_locals, Some data)
  = Some (Normal, (f_locals, Some (data ++ [(l, f_locals)]))).
Proof. by destruct n. Qed.

Lemma compilable_app a b : compilable (a ++ b) = compilable a && compilable b.
Proof. apply forallb_app. Qed.

Lemma body_sim_of_items n body :
  (forall item, item_sim H n item) -> body_sim H n body.
Proof.
  intros HP.
  assert (Hnp : forall f_locals S S1 o fr,
    is_Some S -> is_Some S1 ->
    compilable (_fill_body_with_record body false 0) = true ->
    exec_block (exec_stmt H n) body (f_locals, S) = Some (o, fr) ->
    exists fr1,
      exec_block (exec_stmt H n) (_fill_body_with_record body false 0)
                 (f_locals, S1) = Some (o, fr1)
      /\ agree o fr fr1).
  { induction body as [|item body IH]; intros f_locals S S1 o fr HS HS1 Hc He.
    - simpl in He. injection He as <- <-. eexists; split; [reflexivity|].
      by repeat split.
    - rewrite fill_cons, compilable_app in Hc. apply andb_prop in Hc as [Hc1 Hc2].
      rewrite fill_cons, exec_block_app. simpl in He.
      destruct (exec_stmt H n item (f_locals, S)) as [[oi fri]|] eqn:Ei; [|done].
      destruct (HP item _ _ S1 _ _ HS HS1 Hc1 Ei) as (fr1 & -> & Ha).
      destruct oi; try (injection He as <- <-; by exists fr1).
      destruct Ha as (Hs1 & Hs2 & Hl). destruct fri as [li Si], fr1 as [l1 S1'].
      simpl in *. subst l1. by apply (IH li Si S1'). }
  intros [|] l f_locals S S1 o fr HS HS1 Hc He; [|by apply (Hnp _ S)].
  rewrite fill_prepend in *. simpl in Hc. 
  destruct HS1 as [d ->]. cbn [exec_block]. rewrite exec_capture.
  by apply (Hnp _ S).
Qed.

Lemma exec_block_plain n item l fr :
  exec_block (exec_stmt H n) [item; _make_record_state_call_expr l] fr
  = match exec_stmt H n item fr with
    | Some (Normal, (f_locals, Some data)) =>
        Some (Normal, (f_locals, Some (data ++ [(l, f_locals)])))
    | Some (Normal, (f_locals, None)) =>
        Some (Raised (TypeError "'NoneType' object has no attribute '__getitem__'"),
              (f_locals, None))
    | r => r
    end.
Proof.
  cbn [exec_block].
  destruct (exec_stmt H n item fr) as [[[] [f_locals [d|]]]|]; try done.
  - by rewrite exec_capture.
  - by destruct n.
Qed.

Ltac finish_sim :=
  match goal with
  | He : Some _ = Some _ |- _ => injection He as <- <-
  end; eexists; (split; [reflexivity|]); by repeat split.

Lemma plain_sim n item : plain item = true -> item_sim H n item.
Proof.
  intros Hp f_locals S S1 o fr [d ->] [d1 ->] _ He.
  rewrite fill_plain by done. rewrite exec_block_plain.
  rewrite exec_plain_fuel in * by done.
  destruct item as [| | |? targets [e|]|? e| | | |? [e|]|? code| | | | | |];
    try discriminate Hp; simpl in *; try done.
  - (* Assign *)
    destruct (eval_expr H e f_locals) as [v|x]; [|finish_sim].
    destruct (assign_all H targets v f_locals) as [oa la].
    destruct oa; finish_sim.
  - (* Expr *)
    destruct (is_record_call e) as [k|]; [finish_sim|].
    destruct (eval_expr H e f_locals); finish_sim.
  - finish_sim.
  - finish_sim.
  - finish_sim.
  - destruct (eval_expr H e f_locals) as [[]|x]; finish_sim.
  - destruct (exec_simple H code f_locals); finish_sim.
Qed.

Lemma return_sim n l v : item_sim H n (Return l v).
Proof.
  intros f_locals S S1 o fr [d ->] [d1 ->] Hc He.
  destruct v as [e|]; [|done].
  rewrite fill_return.
  change [Assign 0 [Name RETVAL_NAME Store] (Some e);
          _make_record_state_call_expr l;
          Return 0 (Some (Name RETVAL_NAME Load))]
    with ([Assign 0 [Name RETVAL_NAME Store] (Some e);
           _make_record_state_call_expr l]
          ++ [Return 0 (Some (Name RETVAL_NAME Load))]).
  rewrite exec_block_app, exec_block_plain.
  rewrite (exec_plain_fuel n (Assign _ _ _)) by done.
  rewrite exec_return_fuel in He. simpl in *.
  destruct (eval_expr H e f_locals) as [v|x]; [|finish_sim].
  rewrite exec_return_fuel. simpl.
  rewrite lookup_insert_eq. finish_sim.
Qed.

Lemma compilable_branches item :
  compilable [item] = true ->
  match item with
  | For _ _ _ b o | While _ _ b o | If _ _ b o =>
      compilable b = true /\ compilable o = true
  | _ => True
  end.
Proof.
  unfold compilable. simpl. rewrite andb_true_r.
  destruct item; try done; intros Hc; by apply andb_prop in Hc.
Qed.

Lemma compilable_TryExcept l b hs o :
  compilable [TryExcept l b hs o] = true ->
  compilable b = true
  /\ forallb (fun handler =>
                match handler with
                | ExceptHandler _ _ _ hbody => forallb compilable_item hbody
                end) hs = true
  /\ compilable o = true.
Proof.
  unfold compilable. simpl. rewrite andb_true_r. intros Hc.
  apply andb_prop in Hc as [Hc Ho]. by apply andb_prop in Hc as [Hb Hh].
Qed.

Lemma agree_locals o fr fr1 :
  agree o fr fr1 ->
  match o with
  | Returned _ => True
  | _ => exists f_locals S S1,
           fr = (f_locals, S) /\ fr1 = (f_locals, S1)
           /\ is_Some S /\ is_Some S1
  end.
Proof.
  destruct fr as [l S], fr1 as [l1 S1]. intros (HS & HS1 & Hl).
  destruct o; simpl in *; subst; eauto 10.
Qed.

Lemma for_sim n target (body orelse : list stmt) l :
  body_sim H n body -> body_sim H n orelse ->
  compilable (_fill_body_with_record body true l) = true ->
  compilable (_fill_body_with_record orelse true l) = true ->
  forall items f_locals S S1 o fr,
    is_Some S -> is_Some S1 ->
    exec_for H target (exec_block (exec_stmt H n) body)
             (exec_block (exec_stmt H n) orelse) items (f_locals, S)
    = Some (o, fr) ->
    exists fr1,
      exec_for H target
        (exec_block (exec_stmt H n) (_fill_body_with_record body true l))
        (exec_block (exec_stmt H n) (_fill_body_with_record orelse true l))
        items (f_locals, S1) = Some (o, fr1)
      /\ agree o fr fr1.
Proof.
  intros Hb Ho Hcb Hco.
  induction items as [|v items IH]; intros f_locals S S1 o fr HS HS1 He;
    simpl in *.
  - by apply (Ho true l _ S).
  - destruct (assign H target v f_locals) as [f_locals'|x]; [|finish_sim].
    destruct (exec_block (exec_stmt H n) body (f_locals', S))
      as [[ob frb]|] eqn:Eb; [|done].
    destruct (Hb true l _ _ S1 _ _ HS HS1 Hcb Eb) as (fr1b & -> & Ha).
    pose proof (agree_locals _ _ _ Ha) as Hl.
    destruct ob; try (injection He as <- <-; by exists fr1b);
      destruct Hl as (lb & Sb & S1b & -> & -> & HSb & HS1b).
    + by apply (IH _ Sb).
    + by apply (IH _ Sb).
Qed.

Lemma handlers_sim n handlers :
  (forall body, body_sim H n body) ->
  forallb (fun handler =>
             match handler with
             | ExceptHandler _ _ _ hbody => forallb compilable_item hbody
             end) (map fill_handler handlers) = true ->
  forall x f_locals S S1 o fr,
    is_Some S -> is_Some S1 ->
    exec_handlers H (exec_stmt H n) handlers x (f_locals, S) = Some (o, fr) ->
    exists fr1,
      exec_handlers H (exec_stmt H n) (map fill_handler handlers) x
                    (f_locals, S1) = Some (o, fr1)
      /\ agree o fr fr1.
Proof.
  intros Hb.
  induction handlers as [|[hl ty nm hbody] hs IH];
    intros Hc x f_locals S S1 o fr HS HS1 He; simpl in *.
  - finish_sim.
  - apply andb_prop in Hc as [Hc1 Hc2].
    destruct (match ty with Some t => exc_matches H t x f_locals | None => true end).
    + destruct nm as [t|].
      * destruct (assign H t (VExc x.1 x.2) f_locals) as [f_locals'|x'];
          [|finish_sim].
        by apply (Hb hbody false hl _ S).
      * by apply (Hb hbody false hl _ S).
    + by apply (IH Hc2 _ _ S).
Qed.

Lemma stmt_sim n : forall item, item_sim H n item.
Proof.
  induction n as [|n IH]; intros item;
    (destruct (plain item) eqn:Hp; [by apply plain_sim|]);
    destruct item as [| |l v| | | | | | | |l t i body orelse|l t body orelse
                     |l t body orelse| |l body hs orelse|];
    try discriminate Hp; try apply return_sim;
    intros f_locals S S1 o fr HS HS1 Hc He; try done.
  all: pose proof (fun body => body_sim_of_items n body IH) as Hbody.
  - (* For *)
    rewrite fill_For in Hc |- *. rewrite exec_block_singleton.
    destruct (compilable_branches _ Hc) as [Hcb Hco].
    simpl in He |- *.
    destruct (eval_expr H i f_locals) as [v|x]; [|finish_sim].
    destruct (iterate v) as [items|x]; [|finish_sim].
    by apply (for_sim n t body orelse l (Hbody _) (Hbody _) Hcb Hco items _ S).
  - (* While *)
    pose proof Hc as Hc'.
    rewrite fill_While in Hc |- *. rewrite exec_block_singleton.
    destruct (compilable_branches _ Hc) as [Hcb Hco].
    simpl in He |- *.
    destruct (eval_expr H t f_locals) as [v|x]; [|finish_sim].
    destruct (truthy v); [|by apply (Hbody _ true l _ S)].
    destruct (exec_block (exec_stmt H n) body (f_locals, S))
      as [[ob frb]|] eqn:Eb; [|done].
    destruct (Hbody _ true l _ _ S1 _ _ HS HS1 Hcb Eb) as (fr1b & -> & Ha).
    pose proof (agree_locals _ _ _ Ha) as Hl.
    destruct ob; try (injection He as <- <-; by exists fr1b);
      destruct Hl as (lb & Sb & S1b & -> & -> & HSb & HS1b);
      destruct (IH _ _ _ S1b _ _ HSb HS1b Hc' He) as (fr1 & He1 & Ha1);
      rewrite fill_While, exec_block_singleton in He1; eauto.
  - (* If *)
    rewrite fill_If in Hc |- *. rewrite exec_block_singleton.
    destruct (compilable_branches _ Hc) as [Hcb Hco].
    simpl in He |- *.
    destruct (eval_expr H t f_locals) as [v|x]; [|finish_sim].
    destruct (truthy v); by apply (Hbody _ true l _ S).
  - (* TryExcept *)
    rewrite fill_TryExcept in Hc |- *. rewrite exec_block_singleton.
    apply compilable_TryExcept in Hc as (Hcb & Hch & Hco).
    simpl in He |- *.
    destruct (exec_block (exec_stmt H n) body (f_locals, S))
      as [[ob frb]|] eqn:Eb; [|done].
    destruct (Hbody _ true l _ _ S1 _ _ HS HS1 Hcb Eb) as (fr1b & -> & Ha).
    pose proof (agree_locals _ _ _ Ha) as Hl.
    destruct ob; try (injection He as <- <-; by exists fr1b);
      destruct Hl as (lb & Sb & S1b & -> & -> & HSb & HS1b).
    + by apply (Hbody _ false l _ Sb).
    + by apply (handlers_sim n hs Hbody Hch _ _ Sb).
Qed.

Lemma body_sim_all n body : body_sim H n body.
Proof. apply body_sim_of_items, stmt_sim. Qed.

Lemma exec_block_keeps_store run body :
  keeps_store run ->
  forall fr o fr', is_Some fr.2 -> exec_block run body fr = Some (o, fr') ->
    is_Some fr'.2.
Proof.
  intros Hrun. induction body as [|item body IH]; intros fr o fr' HS He;
    simpl in He.
  - by injection He as <- <-.
  - destruct (run item fr) as [[oi fri]|] eqn:Ei; [|done].
    pose proof (Hrun _ _ _ _ HS Ei) as HSi.
    destruct oi; try (by injection He as <- <-). by apply (IH fri o).
Qed.

Lemma exec_for_keeps_store target run_body run_orelse items :
  (forall fr o fr', is_Some fr.2 -> run_body fr = Some (o, fr') -> is_Some fr'.2) ->
  (forall fr o fr', is_Some fr.2 -> run_orelse fr = Some (o, fr') -> is_Some fr'.2) ->
  forall fr o fr', is_Some fr.2 ->
    exec_for H target run_body run_orelse items fr = Some (o, fr') ->
    is_Some fr'.2.
Proof.
  intros Hb Ho. induction items as [|v items IH]; intros fr o fr' HS He;
    simpl in He; [by apply (Ho fr o)|].
  destruct (assign H target v fr.1) as [f_locals|x];
    [|by injection He as <- <-].
  destruct (run_body (f_locals, fr.2)) as [[ob frb]|] eqn:Eb; [|done].
  pose proof (Hb (f_locals, fr.2) _ _ HS Eb) as HSb.
  destruct ob; try (by injection He as <- <-); by apply (IH frb o).
Qed.

Lemma exec_handlers_keeps_store run handlers :
  keeps_store run ->
  forall x fr o fr', is_Some fr.2 ->
    exec_handlers H run handlers x fr = Some (o, fr') -> is_Some fr'.2.
Proof.
  intros Hrun. induction handlers as [|[hl ty nm hbody] hs IH];
    intros x fr o fr' HS He; simpl in He; [by injection He as <- <-|].
  destruct (match ty with Some t => exc_matches H t x fr.1 | None => true end);
    [|by apply (IH x fr o)].
  destruct nm as [t|]; [|by apply (exec_block_keeps_store run hbody Hrun fr o)].
  destruct (assign H t (VExc x.1 x.2) fr.1) as [f_locals|x'];
    [|by injection He as <- <-].
  by apply (exec_block_keeps_store run hbody Hrun (f_locals, fr.2) o).
Qed.

Lemma exec_stmt_keeps_store n : keeps_store (exec_stmt H n).
Proof.
  induction n as [|n IH]; intros item [f_locals S] o fr' HS He;
    destruct item as [| |l [e|]|l ts [e|]|l e| | | |l [e|]|l c|l t i body orelse
                     |l t body orelse|l t body orelse| |l body hs orelse|];
    simpl in *; try done; try (by injection He as <- <-).
  all: try (destruct (eval_expr H e f_locals) as [v|x];
            try destruct v; by injection He as <- <-).
  all: try (destruct (eval_expr H e f_locals) as [v|x];
            [destruct (assign_all H ts v f_locals)|]; by injection He as <- <-).
  all: try (destruct (is_record_call e);
            [destruct HS as [d ->]; simpl in He
            |destruct (eval_expr H e f_locals)]; by injection He as <- <-).
  all: try (destruct (exec_simple H c f_locals); by injection He as <- <-).
  - destruct (eval_expr H i f_locals) as [v|x]; [|by injection He as <- <-].
    destruct (iterate v) as [items|x]; [|by injection He as <- <-].
    apply (exec_for_keeps_store t (exec_block (exec_stmt H n) body)
             (exec_block (exec_stmt H n) orelse) items)
      with (fr := (f_locals, S)) (o := o); [| |done|done];
      intros fr o1 fr1; by apply exec_block_keeps_store.
  - destruct (eval_expr H t f_locals) as [v|x]; [|by injection He as <- <-].
    destruct (truthy v);
      [|by apply (exec_block_keeps_store _ orelse IH (f_locals, S) o)].
    destruct (exec_block (exec_stmt H n) body (f_locals, S))
      as [[ob frb]|] eqn:Eb; [|done].
    pose proof (exec_block_keeps_store _ body IH (f_locals, S) _ _ HS Eb) as HSb.
    destruct ob; try (by injection He as <- <-);
      by apply (IH (While l t body orelse) frb o).
  - destruct (eval_expr H t f_locals) as [v|x]; [|by injection He as <- <-].
    destruct (truthy v);
      [by apply (exec_block_keeps_store _ body IH (f_locals, S) o)
      |by apply (exec_block_keeps_store _ orelse IH (f_locals, S) o)].
  - destruct (exec_block (exec_stmt H n) body (f_locals, S))
      as [[ob frb]|] eqn:Eb; [|done].
    pose proof (exec_block_keeps_store _ body IH (f_locals, S) _ _ HS Eb) as HSb.
    destruct ob; try (by injection He as <- <-).
    + by apply (exec_block_keeps_store _ orelse IH frb o).
    + by apply (exec_handlers_keeps_store _ hs IH e frb o).
Qed.

Lemma call_function_keeps_store n params body args kwargs S r S' :
  is_Some S ->
  call_function H n params body args kwargs S = Some (r, S') -> is_Some S'.
Proof.
  unfold call_function. intros HS He.
  destruct (bind_args params args kwargs) as [f_locals|x];
    [|by injection He as <- <-].
  destruct (exec_block (exec_stmt H n) body (f_locals, S))
    as [[ob frb]|] eqn:Eb; [|done].
  pose proof (exec_block_keeps_store _ body (exec_stmt_keeps_store n)
                (f_locals, S) _ _ HS Eb) as HSb.
  destruct ob; try done; by injection He as <- <-.
Qed.

Lemma call_function_sim n params body args kwargs S S1 r S' :
  is_Some S -> is_Some S1 ->
  compilable (_fill_body_with_record body false 0) = true ->
  call_function H n params body args kwargs S = Some (r, S') ->
  exists S1',
    call_function H n params (_fill_body_with_record body false 0)
                  args kwargs S1 = Some (r, S1')
    /\ is_Some S1'.
Proof.
  unfold call_function. intros HS HS1 Hc He.
  destruct (bind_args params args kwargs) as [f_locals|x];
    [|injection He as <- <-; eauto].
  destruct (exec_block (exec_stmt H n) body (f_locals, S))
    as [[ob frb]|] eqn:Eb; [|done].
  destruct (body_sim_all n body false 0 _ _ S1 _ _ HS HS1 Hc Eb)
    as (fr1 & -> & _ & HS1' & _).
  destruct ob; try done; injection He as <- <-; eauto.
Qed.
End Simulation.

End PreservationFacts.

(** ** Recorded snapshots are independent of the live objects *)

Module ObjectModelFacts.
Import ObjectModel.

Lemma good_mono h0 len len' c :
  (len <= len')%nat -> good h0 len c -> good h0 len' c.
Proof. intros Hl [Hc|Hc]; [left; lia|by right]. Qed.

Lemma copying_grow h0 memo h o :
  atomic o = false -> children o = [] ->
  copying h0 memo h -> copying h0 memo (h ++ [o]).
Proof.
  intros Ha Hch [H1 H2 H3 H4]. split.
  - rewrite length_app. simpl. lia.
  - intros l Hl. rewrite lookup_app_l by lia. auto.
  - intros l Hl. rewrite length_app in *. simpl in *.
    destruct (decide (l < length h)%nat) as [Hlt|Hge].
    + rewrite lookup_app_l by lia.
      destruct (H3 l) as (o' & Ho' & Ha' & Hc'); [lia|].
      exists o'. repeat split; try done.
      eapply Forall_impl; [exact Hc'|]. intros c. apply good_mono. lia.
    + assert (l = length h) as -> by lia.
      rewrite lookup_app_r by lia. rewrite Nat.sub_diag. simpl.
      exists o. rewrite Hch. by repeat split.
  - intros k v Hk. eapply good_mono; [|by eapply H4].
    rewrite length_app. simpl. lia.
Qed.

Lemma copying_memo_insert h0 memo h k v :
  good h0 (length h) v -> copying h0 memo h -> copying h0 (<[k := v]> memo) h.
Proof.
  intros Hv [H1 H2 H3 H4]. split; try done.
  intros k' v' Hk'. destruct (decide (k = k')) as [->|Hne].
  - rewrite lookup_insert_eq in Hk'. by injection Hk' as <-.
  - rewrite lookup_insert_ne in Hk' by done. by eapply H4.
Qed.

(** replacing the content of a new cell by a container with good children *)
Lemma copying_update h0 memo h y o :
  (length h0 <= y)%nat -> atomic o = false ->
  Forall (good h0 (length h)) (children o) ->
  copying h0 memo h -> copying h0 memo (<[y := o]> h).
Proof.
  intros Hy Ha Hc [H1 H2 H3 H4]. split.
  - by rewrite length_insert.
  - intros l Hl. rewrite list_lookup_insert_ne by lia. auto.
  - intros l Hl. rewrite length_insert in *.
    destruct (decide (y = l)) as [->|Hne].
    + rewrite list_lookup_insert_eq by lia. by exists o.
    + rewrite list_lookup_insert_ne by done. by apply H3.
  - intros k v Hk. rewrite length_insert. by eapply H4.
Qed.

Lemma copying_list_append h0 memo h y a :
  (length h0 <= y)%nat -> good h0 (length h) a ->
  copying h0 memo h -> copying h0 memo (list_append y a h).
Proof.
  intros Hy Ha Hc. unfold list_append.
  destruct (h !! y) as [[| | |items|]|] eqn:E; try done.
  apply copying_update; try done.
  destruct (copying_new _ _ _ Hc y) as (o & Ho & _ & Hch).
  { split; [done|]. by apply lookup_lt_Some in E. }
  rewrite E in Ho. injection Ho as <-. simpl in *.
  apply Forall_app. split; [done|]. by constructor.
Qed.

Lemma copying_dict_setitem h0 memo h y key a :
  (length h0 <= y)%nat -> good h0 (length h) a ->
  copying h0 memo h -> copying h0 memo (dict_setitem y key a h).
Proof.
  intros Hy Ha Hc. unfold dict_setitem.
  destruct (h !! y) as [[| | | |items]|] eqn:E; try done.
  apply copying_update; try done.
  destruct (copying_new _ _ _ Hc y) as (o & Ho & _ & Hch).
  { split; [done|]. by apply lookup_lt_Some in E. }
  rewrite E in Ho. injection Ho as <-. simpl in *.
  rewrite fmap_app. apply Forall_app. split; [|by constructor].
  rewrite Forall_forall in Hch |- *.
  intros c Hin. apply list_elem_of_fmap in Hin as (kv & -> & Hkv).
  apply list_elem_of_filter in Hkv as [_ Hkv].
  apply Hch. apply list_elem_of_fmap. eauto.
Qed.

Lemma length_list_append y a h : length (list_append y a h) = length h.
Proof.
  unfold list_append. destruct (h !! y) as [[]|]; try done.
  by rewrite length_insert.
Qed.

Lemma length_dict_setitem y key a h :
  length (dict_setitem y key a h) = length h.
Proof.
  unfold dict_setitem. destruct (h !! y) as [[]|]; try done.
  by rewrite length_insert.
Qed.

Section Deepcopy.
Context (h0 : heap).

Lemma copy_list_items_ok cp y items :
  copier_ok h0 cp -> (length h0 <= y)%nat ->
  forall memo h memo' h',
    copying h0 memo h ->
    copy_list_items cp y items memo h = Some (memo', h') ->
    copying h0 memo' h' /\ (length h <= length h')%nat.
Proof.
  intros Hcp Hy. induction items as [|a items IH]; intros memo h memo' h' Hc;
    simpl.
  - by intros [= <- <-].
  - destruct (cp a memo h) as [[[a' memo1] h1]|] eqn:E; [|done].
    destruct (Hcp _ _ _ _ _ _ Hc E) as (Hc1 & Ha' & Hl). intros E'.
    apply IH in E' as [Hc' Hl']; [|by apply copying_list_append].
    rewrite length_list_append in Hl'. split; [done|lia].
Qed.

Lemma copy_dict_items_ok cp y items :
  copier_ok h0 cp -> (length h0 <= y)%nat ->
  forall memo h memo' h',
    copying h0 memo h ->
    copy_dict_items cp y items memo h = Some (memo', h') ->
    copying h0 memo' h' /\ (length h <= length h')%nat.
Proof.
  intros Hcp Hy. induction items as [|[key a] items IH];
    intros memo h memo' h' Hc; simpl.
  - by intros [= <- <-].
  - destruct (cp a memo h) as [[[a' memo1] h1]|] eqn:E; [|done].
    destruct (Hcp _ _ _ _ _ _ Hc E) as (Hc1 & Ha' & Hl). intros E'.
    apply IH in E' as [Hc' Hl']; [|by apply copying_dict_setitem].
    rewrite length_dict_setitem in Hl'. split; [done|lia].
Qed.

Lemma deepcopy_ok fuel : copier_ok h0 (deepcopy fuel).
Proof.
  induction fuel as [|fuel IH]; intros x memo h y memo' h' Hc; simpl; [done|].
  destruct (memo !! x) as [y0|] eqn:Em.
  { intros [= <- <- <-]. split; [done|]. split; [|done].
    by eapply copying_memo. }
  destruct (h !! x) as [o|] eqn:Ex; [|done].
  pose proof (copying_length _ _ _ Hc) as Hl.
  assert (Hnew : forall o', atomic o' = false -> children o' = [] ->
            copying h0 (<[x := length h]> memo) (h ++ [o'])).
  { intros o' Ha Hch. apply copying_memo_insert; [|by apply copying_grow].
    left. rewrite length_app. simpl. lia. }
  assert (Hatom : atomic o = true ->
            copying h0 (<[x := x]> memo) h /\ good h0 (length h) x
            /\ (length h <= length h)%nat).
  { intros Ha. assert (good h0 (length h) x) as Hg.
    { right. exists o. split; [|done].
      destruct (decide (x < length h0)%nat) as [Hlt|Hge].
      - by rewrite <- (copying_old _ _ _ Hc).
      - destruct (copying_new _ _ _ Hc x) as (o' & Ho' & Ha' & _).
        { split; [lia|]. by apply lookup_lt_Some in Ex. }
        congruence. }
    split; [|done]. by apply copying_memo_insert. }
  destruct o as [| | |items|items]; try (intros [= <- <- <-]; by apply Hatom).
  - destruct (copy_list_items _ _ _ _ _) as [[memo2 h2]|] eqn:E; [|done].
    intros [= <- <- <-].
    apply (copy_list_items_ok _ _ _ IH Hl _ _ _ _
             (Hnew (OList []) eq_refl eq_refl)) in E as [Hc2 Hl2].
    rewrite length_app in Hl2. simpl in Hl2.
    assert (good h0 (length h2) (length h)) as Hg2 by (left; lia).
    split; [by apply copying_memo_insert|]. split; [done|lia].
  - destruct (copy_dict_items _ _ _ _ _) as [[memo2 h2]|] eqn:E; [|done].
    intros [= <- <- <-].
    apply (copy_dict_items_ok _ _ _ IH Hl _ _ _ _
             (Hnew (ODict []) eq_refl eq_refl)) in E as [Hc2 Hl2].
    rewrite length_app in Hl2. simpl in Hl2.
    assert (good h0 (length h2) (length h)) as Hg2 by (left; lia).
    split; [by apply copying_memo_insert|]. split; [done|lia].
Qed.

Lemma copying_start : copying h0 ∅ h0.
Proof.
  split.
  - done.
  - done.
  - intros l Hl. lia.
  - intros k v Hk. by rewrite lookup_empty in Hk.
Qed.
End Deepcopy.

Lemma settled_keeps owned h h' l :
  keeps owned h h' -> settled owned h l -> settled owned h' l.
Proof.
  intros [_ Ha] [Hl|(o & Ho & Hat)]; [by left|right]. exists o. auto.
Qed.

Lemma content_keeps owned h h' :
  closed owned h -> keeps owned h h' ->
  forall n l, settled owned h l -> content n h' l = content n h l.
Proof.
  intros Hcl Hk. induction n as [|n IH]; intros l Hs; simpl; [done|].
  destruct Hs as [Hl|(o & Ho & Hat)].
  - rewrite (proj1 Hk l Hl). destruct (Hcl l Hl) as (o & -> & Hch).
    destruct o as [| | |items|items]; try done; simpl in Hch.
    + f_equal. apply Forall_mapM_ext. eapply Forall_impl; [exact Hch|].
      intros c. apply IH.
    + f_equal. apply Forall_mapM_ext. apply Forall_forall.
      intros kv Hkv. rewrite IH; [done|].
      apply (proj1 (Forall_forall _ _) Hch).
      apply list_elem_of_fmap. eauto.
  - rewrite (proj2 Hk l o Ho Hat), Ho. by destruct o.
Qed.

Lemma closed_lt owned h l : closed owned h -> l ∈ owned -> (l < length h)%nat.
Proof.
  intros Hcl Hl. destruct (Hcl l Hl) as (o & Ho & _).
  by apply lookup_lt_Some in Ho.
Qed.

Lemma closed_keeps owned h h' :
  closed owned h -> keeps owned h h' -> closed owned h'.
Proof.
  intros Hcl Hk l Hl. destruct (Hcl l Hl) as (o & Ho & Hch).
  exists o. rewrite (proj1 Hk l Hl). split; [done|].
  eapply Forall_impl; [exact Hch|]. intros c. by apply settled_keeps.
Qed.

Lemma keeps_insert owned h l o :
  l ∉ owned ->
  (forall o', h !! l = Some o' -> atomic o' = false) ->
  keeps owned h (<[l := o]> h).
Proof.
  intros Hl Ha. split.
  - intros l' Hl'. apply list_lookup_insert_ne. by intros ->.
  - intros l' o' Ho' Hat. rewrite list_lookup_insert_ne; [done|].
    intros ->. apply Ha in Ho'. congruence.
Qed.

Lemma keeps_refl owned h : keeps owned h h.
Proof. by split. Qed.

Lemma keeps_app owned h ext : closed owned h -> keeps owned h (h ++ ext).
Proof.
  intros Hcl. split.
  - intros l Hl. apply lookup_app_l. by apply (closed_lt owned).
  - intros l o Ho _. rewrite lookup_app_l; [done|]. by apply lookup_lt_Some in Ho.
Qed.

Lemma mutate_keeps owned h m :
  closed owned h ->
  match target m with Some l => l ∉ owned | None => True end ->
  keeps owned h (mutate m h).
Proof.
  intros Hcl Ht.
  destruct m as [o|l i a|l a|l key a|l key]; simpl in *;
    [by apply keeps_app|..]; unfold list_append, dict_setitem;
    destruct (h !! l) as [[]|] eqn:E; try apply keeps_refl;
    apply keeps_insert; try done; intros o' Ho'; rewrite E in Ho';
    by injection Ho' as <-.
Qed.

Lemma capture_keeps fuel h x y memo h' owned :
  closed owned h ->
  deepcopy fuel x ∅ h = Some (y, memo, h') ->
  keeps owned h h'
  /\ closed (owned ∪ set_seq (length h) (length h' - length h)) h'
  /\ settled (owned ∪ set_seq (length h) (length h' - length h)) h' y.
Proof.
  intros Hcl E.
  destruct (deepcopy_ok h fuel _ _ _ _ _ _ (copying_start h) E)
    as (Hc & Hy & Hlen).
  assert (Hk : keeps owned h h').
  { split.
    - intros l Hl. apply (copying_old _ _ _ Hc). by apply (closed_lt owned).
    - intros l o Ho _. rewrite (copying_old _ _ _ Hc); [done|].
      by apply lookup_lt_Some in Ho. }
  assert (Hgood : forall c, good h (length h') c ->
            settled (owned ∪ set_seq (length h) (length h' - length h)) h' c).
  { intros c [Hc'|(o & Ho & Hat)].
    - left. apply elem_of_union_r, elem_of_set_seq. lia.
    - right. exists o. split; [|done]. by apply (proj2 Hk). }
  split; [done|]. split; [|by apply Hgood].
  intros l Hl. apply elem_of_union in Hl as [Hl|Hl].
  - destruct (Hcl l Hl) as (o & Ho & Hch). exists o.
    rewrite (proj1 Hk l Hl). split; [done|].
    eapply Forall_impl; [exact Hch|]. intros c Hs.
    destruct (settled_keeps _ _ _ _ Hk Hs) as [?|?]; [left|by right].
    by apply elem_of_union_l.
  - apply elem_of_set_seq in Hl.
    destruct (copying_new _ _ _ Hc l) as (o & Ho & _ & Hch); [lia|].
    exists o. split; [done|]. eapply Forall_impl; [exact Hch|]. done.
Qed.

Lemma settled_mono owned owned' h l :
  owned ⊆ owned' -> settled owned h l -> settled owned' h l.
Proof. intros Hsub [Hl|Hl]; [left; set_solver|by right]. Qed.

Lemma step_ok fuel ev st st' :
  store_ok st -> step fuel ev st = Some st' ->
  store_ok st'
  /\ data st `prefix_of` data st'
  /\ keeps (copies st) (objects st) (objects st').
Proof.
  intros [Hcl Hd] Hs. destruct ev as [lineno x|m]; simpl in Hs.
  - unfold _record_state_fn_hidden_123 in Hs.
    destruct (deepcopy fuel x ∅ (objects st)) as [[[y memo] h']|] eqn:E;
      [|done].
    injection Hs as <-. simpl.
    destruct (capture_keeps _ _ _ _ _ _ _ Hcl E) as (Hk & Hcl' & Hy).
    split; [split; [done|]|split; [by apply prefix_app_r|done]].
    simpl. apply Forall_app. split; [|by constructor].
    eapply Forall_impl; [exact Hd|]. intros snap Hsn.
    apply (settled_mono (copies st)); [set_solver|].
    by apply (settled_keeps _ (objects st)).
  - assert (Hm : match target m with
                 | Some l => l ∉ copies st | None => True end
                 /\ st' = {| objects := mutate m (objects st);
                             data := data st; copies := copies st |}).
    { destruct (target m) as [l|]; [|by injection Hs as <-].
      destruct (bool_decide (l ∈ copies st)) eqn:Eb; [done|].
      injection Hs as <-. by apply bool_decide_eq_false in Eb. }
    destruct Hm as [Hm ->]. simpl.
    pose proof (mutate_keeps _ _ _ Hcl Hm) as Hk.
    split; [split|done]; simpl.
    + by apply (closed_keeps _ (objects st)).
    + eapply Forall_impl; [exact Hd|]. intros snap.
      by apply settled_keeps.
Qed.

Lemma run_ok fuel evs st st' :
  store_ok st -> run fuel evs st = Some st' ->
  store_ok st'
  /\ data st `prefix_of` data st'
  /\ forall snap, snap ∈ data st ->
       forall n, content n (objects st') snap.2 = content n (objects st) snap.2.
Proof.
  revert st. induction evs as [|ev evs IH]; intros st Hok; simpl.
  - intros [= <-]. split; [done|]. split; [done|]. done.
  - destruct (step fuel ev st) as [st1|] eqn:E; [|done]. intros Hr.
    destruct (step_ok _ _ _ _ Hok E) as (Hok1 & Hp1 & Hk).
    destruct (IH _ Hok1 Hr) as (Hok' & Hp & Hc).
    split; [done|]. split; [by trans (data st1)|].
    intros snap Hsn n. rewrite Hc; [|by eapply elem_of_prefix].
    apply (content_keeps (copies st)); [apply Hok|done|].
    by apply (proj1 (Forall_forall _ _) (proj2 Hok)).
Qed.

Lemma fresh_ok h : store_ok (fresh h).
Proof. split; [|by constructor]. intros l Hl. set_solver. Qed.

(** *** The copy has the content of the original

    Counting the objects still to copy bounds the depth of the recursion. *)
Lemma filter_length_le {A} (P Q : A -> Prop) `{!forall x, Decision (P x)}
    `{!forall x, Decision (Q x)} (l : list A) :
  (forall x, P x -> Q x) -> (length (filter P l) <= length (filter Q l))%nat.
Proof.
  intros HPQ. induction l as [|a l IH]; [done|].
  destruct (decide (P a)) as [Hp|Hp].
  - rewrite (filter_cons_True P) by done.
    rewrite (filter_cons_True Q) by auto. simpl. lia.
  - rewrite (filter_cons_False P) by done.
    destruct (decide (Q a)).
    + rewrite (filter_cons_True Q) by done. simpl. lia.
    + by rewrite (filter_cons_False Q) by done.
Qed.

Lemma filter_length_lt {A} (P Q : A -> Prop) `{!forall x, Decision (P x)}
    `{!forall x, Decision (Q x)} (l : list A) x :
  (forall x, P x -> Q x) -> x ∈ l -> Q x -> ~ P x ->
  (length (filter P l) < length (filter Q l))%nat.
Proof.
  intros HPQ Hin Hq Hp. induction l as [|a l IH]; [by apply elem_of_nil in Hin|].
  apply elem_of_cons in Hin as [<-|Hin].
  - rewrite (filter_cons_False P) by done.
    rewrite (filter_cons_True Q) by done. simpl.
    pose proof (filter_length_le P Q l HPQ). lia.
  - specialize (IH Hin). destruct (decide (P a)).
    + rewrite (filter_cons_True P) by done.
      rewrite (filter_cons_True Q) by auto. simpl. lia.
    + rewrite (filter_cons_False P) by done.
      destruct (decide (Q a)).
      * rewrite (filter_cons_True Q) by done. simpl. lia.
      * by rewrite (filter_cons_False Q) by done.
Qed.

Lemma uncopied_mono h0 memo memo' :
  memo ⊆ memo' -> (uncopied h0 memo' <= uncopied h0 memo)%nat.
Proof.
  intros Hsub. apply filter_length_le. intros k Hk.
  destruct (memo !! k) as [v|] eqn:E; [|done].
  by rewrite (lookup_weaken _ _ _ _ E Hsub) in Hk.
Qed.

Lemma uncopied_insert h0 memo x v :
  memo !! x = None -> (x < length h0)%nat ->
  (uncopied h0 (<[x := v]> memo) < uncopied h0 memo)%nat.
Proof.
  intros Hx Hlt. apply (filter_length_lt _ _ _ x).
  - intros k Hk. destruct (decide (x = k)) as [<-|Hne]; [done|].
    by rewrite lookup_insert_ne in Hk.
  - apply elem_of_seq. lia.
  - done.
  - by rewrite lookup_insert_eq.
Qed.

Lemma uncopied_le h0 memo : (uncopied h0 memo <= length h0)%nat.
Proof.
  unfold uncopied. etrans; [apply length_filter|]. by rewrite length_seq.
Qed.

Lemma wf_heap_lookup h x o :
  wf_heap h = true -> h !! x = Some o ->
  Forall (fun c => (c < length h)%nat) (children o)
  /\ match o with ODict items => NoDup items.*1 | _ => True end.
Proof.
  intros Hwf Hx. unfold wf_heap in Hwf. rewrite forallb_forall in Hwf.
  assert (Ho : wf_obj h o = true).
  { apply Hwf. apply list_elem_of_In. by eapply list_elem_of_lookup_2. }
  apply andb_prop in Ho as [Hc Hd]. split.
  - apply Forall_forall. intros c Hin. rewrite forallb_forall in Hc.
    apply Nat.ltb_lt. apply Hc. by apply list_elem_of_In.
  - destruct o; try done. by apply bool_decide_eq_true in Hd.
Qed.

Lemma image_mono h0 memo memo' h h' k v :
  memo ⊆ memo' ->
  (forall items, h !! v = Some items -> (length h0 <= v)%nat -> h' !! v = Some items) ->
  image h0 memo h k v -> image h0 memo' h' k v.
Proof.
  intros Hsub Hh. unfold image.
  destruct (h0 !! k) as [[| | |items|items]|]; try done.
  - intros (Hv & items' & Hi & HF). split; [done|]. exists items'.
    split; [exact (Hh _ Hi Hv)|]. eapply Forall2_impl; [exact HF|].
    intros a a' Ha. exact (lookup_weaken _ _ _ _ Ha Hsub).
  - intros (Hv & items' & Hi & HF). split; [done|]. exists items'.
    split; [exact (Hh _ Hi Hv)|]. eapply Forall2_impl; [exact HF|].
    intros a a' [? Ha]. split; [done|]. exact (lookup_weaken _ _ _ _ Ha Hsub).
Qed.

Lemma memo_value_lt h0 memo h k v :
  copying h0 memo h -> memo !! k = Some v -> (v < length h)%nat.
Proof.
  intros Hc Hk. pose proof (copying_length _ _ _ Hc).
  destruct (copying_memo _ _ _ Hc k v Hk) as [?|(o & Ho & _)]; [lia|].
  apply lookup_lt_Some in Ho. lia.
Qed.

(** the content of the copies, once all are finished *)
Lemma content_image h0 memo h :
  (forall l, (l < length h0)%nat -> h !! l = h0 !! l) ->
  (forall k v, memo !! k = Some v -> image h0 memo h k v) ->
  forall n k v, memo !! k = Some v -> content n h v = content n h0 k.
Proof.
  intros Hold Himg. induction n as [|n IH]; intros k v Hk; simpl; [done|].
  pose proof (Himg k v Hk) as Hi. unfold image in Hi.
  destruct (h0 !! k) as [o|] eqn:Ek; [|done].
  assert (Hatom : atomic o = true -> h !! v = Some o /\ v = k).
  { intros Ha. assert (v = k) as -> by (by destruct o).
    split; [|done]. rewrite Hold; [done|]. by apply lookup_lt_Some in Ek. }
  destruct o as [| | |items|items];
    try (destruct Hatom as [-> _]; done).
  - destruct Hi as (_ & items' & -> & HF). f_equal.
    symmetry. apply Forall2_mapM_ext. eapply Forall2_impl; [exact HF|].
    intros a a' Ha. symmetry. by apply IH.
  - destruct Hi as (_ & items' & -> & HF). f_equal.
    symmetry. apply Forall2_mapM_ext. eapply Forall2_impl; [exact HF|].
    intros [key a] [key' a'] [Hkey Ha]. simpl in *. subst key'.
    by rewrite (IH a a').
Qed.

Lemma in_progress (P : gset loc) x : x ∈ P ∪ {[x]}.
Proof. apply elem_of_union_r. by apply elem_of_singleton. Qed.

Section Images.
Context (h0 : heap).

(** starting on a container: its empty copy is registered and filled next *)
Lemma imaging_enter P memo h x (o' : obj) :
  imaging h0 P memo h -> memo !! x = None -> (x < length h0)%nat ->
  atomic o' = false -> children o' = [] ->
  imaging h0 (P ∪ {[x]}) (<[x := length h]> memo) (h ++ [o']).
Proof.
  intros [Hc Hk Hd Hi Hs] Hx Hlt Ha Hch.
  pose proof (copying_length _ _ _ Hc) as Hl.
  assert (Hsub : memo ⊆ <[x := length h]> memo) by by apply insert_subseteq.
  split.
  - apply copying_memo_insert; [|by apply copying_grow].
    left. rewrite length_app. simpl. lia.
  - intros k v. destruct (decide (x = k)) as [<-|Hne]; [done|].
    rewrite lookup_insert_ne by done. apply Hk.
  - intros k v Hkv Hn. 
    assert (k ≠ x) as Hne
      by (intros ->; apply Hn, elem_of_union_r; by apply elem_of_singleton).
    rewrite lookup_insert_ne in Hkv by done.
    apply (image_mono h0 memo _ h);
      [done| |apply Hd; [done|intros ?; by apply Hn, elem_of_union_l]].
    intros ob Hob _. rewrite lookup_app_l; [done|]. by apply lookup_lt_Some in Hob.
  - intros k1 k2 v H1 H2 Hv.
    destruct (decide (x = k1)) as [<-|Hn1]; destruct (decide (x = k2)) as [<-|Hn2];
      try done.
    + rewrite lookup_insert_eq in H1. injection H1 as <-.
      rewrite lookup_insert_ne in H2 by done.
      apply (memo_value_lt _ _ _ _ _ Hc) in H2. lia.
    + rewrite lookup_insert_eq in H2. injection H2 as <-.
      rewrite lookup_insert_ne in H1 by done.
      apply (memo_value_lt _ _ _ _ _ Hc) in H1. lia.
    + rewrite lookup_insert_ne in H1, H2 by done. by eapply Hi.
  - intros k Hkp. destruct (decide (x = k)) as [<-|Hne].
    + rewrite lookup_insert_eq. eauto.
    + rewrite lookup_insert_ne by done. apply Hs.
      apply elem_of_union in Hkp as [?|?%elem_of_singleton]; done.
Qed.

(** replacing the content of the copy under construction *)
Lemma imaging_fill P memo h x y (o : obj) :
  imaging h0 P memo h -> x ∈ P -> memo !! x = Some y ->
  copying h0 memo (<[y := o]> h) ->
  imaging h0 P memo (<[y := o]> h).
Proof.
  intros [Hc Hk Hd Hi Hs] Hx Hy Hc'. split; try done.
  intros k v Hkv Hn. apply (image_mono h0 memo _ h); [done| |by apply Hd].
  intros ob Hob Hv. rewrite list_lookup_insert_ne; [done|].
  intros ->. assert (x = k) as -> by by eapply Hi. done.
Qed.

(** one round of the loop over a list: the item is copied and appended to
    the copy under construction *)
Lemma list_item_copied cp y x P a a' done done' memo h memo1 h1 :
  copier_images h0 cp -> x ∉ P -> (length h0 <= y)%nat ->
  imaging h0 (P ∪ {[x]}) memo h -> memo !! x = Some y ->
  h !! y = Some (OList done') ->
  Forall2 (fun a a' => memo !! a = Some a') done done' ->
  (a < length h0)%nat ->
  cp a memo h = Some (a', memo1, h1) ->
  imaging h0 (P ∪ {[x]}) memo1 (list_append y a' h1)
  /\ memo ⊆ memo1 /\ memo1 !! x = Some y
  /\ list_append y a' h1 !! y = Some (OList (done' ++ [a']))
  /\ Forall2 (fun a a' => memo1 !! a = Some a') (done ++ [a]) (done' ++ [a'])
  /\ (forall k v, k ∈ P -> memo !! k = Some v ->
        list_append y a' h1 !! v = h !! v)
  /\ (length h <= length (list_append y a' h1))%nat.
Proof.
  intros Hcp HxP Hy Him Hx Hcell HF Ha E.
  destruct (Hcp _ _ _ _ _ _ _ Ha Him E) as (Him1 & Hsub & Ha' & Hsame & Hl).
  pose proof (lookup_weaken _ _ _ _ Hx Hsub) as Hx1.
  assert (Hcell1 : h1 !! y = Some (OList done')).
  { rewrite (Hsame x y); [done|apply in_progress|done]. }
  assert (Hap : list_append y a' h1 = <[y := OList (done' ++ [a'])]> h1).
  { unfold list_append. by rewrite Hcell1. }
  split.
  { rewrite Hap. apply (imaging_fill _ _ _ x); [done|apply in_progress|done|].
    rewrite <- Hap. apply copying_list_append; [done| |apply Him1].
    by apply (copying_memo _ _ _ (imaging_copying _ _ _ _ Him1) a). }
  split; [done|]. split; [done|]. split.
  { rewrite Hap. apply list_lookup_insert_eq. by apply lookup_lt_Some in Hcell1. }
  split.
  { apply Forall2_app; [|by repeat constructor].
    eapply Forall2_impl; [exact HF|]. intros b b' Hb.
    exact (lookup_weaken _ _ _ _ Hb Hsub). }
  split; [|by rewrite length_list_append].
  intros k v Hk Hkv.
  rewrite Hap, list_lookup_insert_ne;
    [apply (Hsame k v); [by apply elem_of_union_l|done]|].
  intros ->. assert (x = k) as <-; [|done].
  eapply (imaging_inj _ _ _ _ Him1); [exact Hx1| |done].
  exact (lookup_weaken _ _ _ _ Hkv Hsub).
Qed.

Lemma copy_list_items_images cp y x P :
  copier_images h0 cp -> x ∉ P -> (length h0 <= y)%nat ->
  forall rest done done' memo h memo' h',
    imaging h0 (P ∪ {[x]}) memo h -> memo !! x = Some y ->
    h !! y = Some (OList done') ->
    Forall2 (fun a a' => memo !! a = Some a') done done' ->
    Forall (fun c => (c < length h0)%nat) rest ->
    copy_list_items cp y rest memo h = Some (memo', h') ->
    imaging h0 (P ∪ {[x]}) memo' h' /\ memo ⊆ memo'
    /\ (forall k v, k ∈ P -> memo !! k = Some v -> h' !! v = h !! v)
    /\ (length h <= length h')%nat
    /\ exists all', h' !! y = Some (OList all')
         /\ Forall2 (fun a a' => memo' !! a = Some a') (done ++ rest) all'.
Proof.
  intros Hcp HxP Hy.
  induction rest as [|a rest IH];
    intros done done' memo h memo' h' Him Hx Hcell HF Hrest; simpl.
  - intros [= <- <-]. rewrite app_nil_r.
    split; [done|]. split; [done|]. split; [done|]. split; [done|]. eauto.
  - apply Forall_cons in Hrest as [Ha Hrest].
    destruct (cp a memo h) as [[[a' memo1] h1]|] eqn:E; [|done].
    destruct (list_item_copied _ _ _ _ _ _ _ _ _ _ _ _
                Hcp HxP Hy Him Hx Hcell HF Ha E)
      as (Him2 & Hsub & Hx1 & Hcell2 & HF2 & Hsame & Hl).
    intros E2.
    apply (IH (done ++ [a]) (done' ++ [a'])) in E2
      as (Him' & Hsub' & Hsame' & Hl' & all' & Hall & HF'); try done.
    split; [done|]. split; [by trans memo1|].
    split; [|split; [lia|]].
    + intros k v Hk Hkv.
      rewrite (Hsame' k v Hk (lookup_weaken _ _ _ _ Hkv Hsub)).
      exact (Hsame k v Hk Hkv).
    + exists all'. split; [done|]. by rewrite <- app_assoc in HF'.
Qed.

(** the loop over a list ends when every copy of an item does *)
Lemma copy_list_items_total cp y x P bound :
  copier_images h0 cp ->
  (forall Q a memo h, (a < length h0)%nat -> imaging h0 Q memo h ->
     (uncopied h0 memo < bound)%nat -> is_Some (cp a memo h)) ->
  x ∉ P -> (length h0 <= y)%nat ->
  forall rest done done' memo h,
    imaging h0 (P ∪ {[x]}) memo h -> memo !! x = Some y ->
    h !! y = Some (OList done') ->
    Forall2 (fun a a' => memo !! a = Some a') done done' ->
    Forall (fun c => (c < length h0)%nat) rest ->
    (uncopied h0 memo < bound)%nat ->
    is_Some (copy_list_items cp y rest memo h).
Proof.
  intros Hcp Htot HxP Hy.
  induction rest as [|a rest IH];
    intros done done' memo h Him Hx Hcell HF Hrest Hb; simpl; [by eauto|].
  apply Forall_cons in Hrest as [Ha Hrest].
  destruct (Htot _ a memo h Ha Him Hb) as [[[a' memo1] h1] E]. rewrite E.
  destruct (list_item_copied _ _ _ _ _ _ _ _ _ _ _ _
              Hcp HxP Hy Him Hx Hcell HF Ha E)
    as (Him2 & Hsub & Hx1 & Hcell2 & HF2 & _).
  apply (IH (done ++ [a]) (done' ++ [a'])); try done.
  pose proof (uncopied_mono h0 _ _ Hsub). lia.
Qed.

Lemma filter_other_keys key (done done' : list (string * loc))
    (memo : gmap loc loc) :
  Forall2 (fun kv kv' : string * loc =>
             kv.1 = kv'.1 /\ memo !! kv.2 = Some kv'.2) done done' ->
  key ∉ done.*1 ->
  filter (fun kv : string * loc => kv.1 ≠ key) done' = done'.
Proof.
  induction 1 as [|[k a] [k' a'] done done' [Hk _] _ IH]; [done|].
  simpl in *. subst k'. intros Hn. apply not_elem_of_cons in Hn as [Hne Hn].
  rewrite filter_cons_True by (simpl; congruence). by rewrite IH.
Qed.

(** one round of the loop over a dictionary *)
Lemma dict_item_copied cp y x P key a a' done done' memo h memo1 h1 :
  copier_images h0 cp -> x ∉ P -> (length h0 <= y)%nat ->
  imaging h0 (P ∪ {[x]}) memo h -> memo !! x = Some y ->
  h !! y = Some (ODict done') ->
  Forall2 (fun kv kv' : string * loc =>
             kv.1 = kv'.1 /\ memo !! kv.2 = Some kv'.2) done done' ->
  (a < length h0)%nat -> key ∉ done.*1 ->
  cp a memo h = Some (a', memo1, h1) ->
  imaging h0 (P ∪ {[x]}) memo1 (dict_setitem y key a' h1)
  /\ memo ⊆ memo1 /\ memo1 !! x = Some y
  /\ dict_setitem y key a' h1 !! y = Some (ODict (done' ++ [(key, a')]))
  /\ Forall2 (fun kv kv' : string * loc =>
                kv.1 = kv'.1 /\ memo1 !! kv.2 = Some kv'.2)
             (done ++ [(key, a)]) (done' ++ [(key, a')])
  /\ (forall k v, k ∈ P -> memo !! k = Some v ->
        dict_setitem y key a' h1 !! v = h !! v)
  /\ (length h <= length (dict_setitem y key a' h1))%nat.
Proof.
  intros Hcp HxP Hy Him Hx Hcell HF Ha Hkey E.
  destruct (Hcp _ _ _ _ _ _ _ Ha Him E) as (Him1 & Hsub & Ha' & Hsame & Hl).
  pose proof (lookup_weaken _ _ _ _ Hx Hsub) as Hx1.
  assert (Hcell1 : h1 !! y = Some (ODict done')).
  { rewrite (Hsame x y); [done|apply in_progress|done]. }
  assert (Hap : dict_setitem y key a' h1
                = <[y := ODict (done' ++ [(key, a')])]> h1).
  { unfold dict_setitem. rewrite Hcell1.
    by rewrite (filter_other_keys key done done' memo). }
  split.
  { rewrite Hap. apply (imaging_fill _ _ _ x); [done|apply in_progress|done|].
    rewrite <- Hap. apply copying_dict_setitem; [done| |apply Him1].
    by apply (copying_memo _ _ _ (imaging_copying _ _ _ _ Him1) a). }
  split; [done|]. split; [done|]. split.
  { rewrite Hap. apply list_lookup_insert_eq. by apply lookup_lt_Some in Hcell1. }
  split.
  { apply Forall2_app; [|by repeat constructor].
    eapply Forall2_impl; [exact HF|]. intros b b' [? Hb]. split; [done|].
    exact (lookup_weaken _ _ _ _ Hb Hsub). }
  split; [|by rewrite length_dict_setitem].
  intros k v Hk Hkv.
  rewrite Hap, list_lookup_insert_ne;
    [apply (Hsame k v); [by apply elem_of_union_l|done]|].
  intros ->. assert (x = k) as <-; [|done].
  eapply (imaging_inj _ _ _ _ Him1); [exact Hx1| |done].
  exact (lookup_weaken _ _ _ _ Hkv Hsub).
Qed.

Lemma next_key_new (done rest : list (string * loc)) key (a : loc) :
  NoDup (done ++ (key, a) :: rest).*1 -> key ∉ done.*1.
Proof.
  rewrite fmap_app. intros Hnd. apply NoDup_app in Hnd as (_ & Hnd & _).
  intros Hin. apply (Hnd key Hin). simpl. left.
Qed.

Lemma copy_dict_items_images cp y x P :
  copier_images h0 cp -> x ∉ P -> (length h0 <= y)%nat ->
  forall rest done done' memo h memo' h',
    imaging h0 (P ∪ {[x]}) memo h -> memo !! x = Some y ->
    h !! y = Some (ODict done') ->
    Forall2 (fun kv kv' : string * loc =>
               kv.1 = kv'.1 /\ memo !! kv.2 = Some kv'.2) done done' ->
    Forall (fun c => (c < length h0)%nat) rest.*2 ->
    NoDup (done ++ rest).*1 ->
    copy_dict_items cp y rest memo h = Some (memo', h') ->
    imaging h0 (P ∪ {[x]}) memo' h' /\ memo ⊆ memo'
    /\ (forall k v, k ∈ P -> memo !! k = Some v -> h' !! v = h !! v)
    /\ (length h <= length h')%nat
    /\ exists all', h' !! y = Some (ODict all')
         /\ Forall2 (fun kv kv' : string * loc =>
                        kv.1 = kv'.1 /\ memo' !! kv.2 = Some kv'.2)
                     (done ++ rest) all'.
Proof.
  intros Hcp HxP Hy.
  induction rest as [|[key a] rest IH];
    intros done done' memo h memo' h' Him Hx Hcell HF Hrest Hnd; simpl.
  - intros [= <- <-]. rewrite app_nil_r.
    split; [done|]. split; [done|]. split; [done|]. split; [done|]. eauto.
  - simpl in Hrest. apply Forall_cons in Hrest as [Ha Hrest].
    destruct (cp a memo h) as [[[a' memo1] h1]|] eqn:E; [|done].
    destruct (dict_item_copied _ _ _ _ key _ _ _ _ _ _ _ _
                Hcp HxP Hy Him Hx Hcell HF Ha (next_key_new _ _ _ _ Hnd) E)
      as (Him2 & Hsub & Hx1 & Hcell2 & HF2 & Hsame & Hl).
    intros E2.
    apply (IH (done ++ [(key, a)]) (done' ++ [(key, a')])) in E2
      as (Him' & Hsub' & Hsame' & Hl' & all' & Hall & HF'); try done.
    + split; [done|]. split; [by trans memo1|].
      split; [|split; [lia|]].
      * intros k v Hk Hkv.
        rewrite (Hsame' k v Hk (lookup_weaken _ _ _ _ Hkv Hsub)).
        exact (Hsame k v Hk Hkv).
      * exists all'. split; [done|]. by rewrite <- app_assoc in HF'.
    + by rewrite <- app_assoc.
Qed.

Lemma copy_dict_items_total cp y x P bound :
  copier_images h0 cp ->
  (forall Q a memo h, (a < length h0)%nat -> imaging h0 Q memo h ->
     (uncopied h0 memo < bound)%nat -> is_Some (cp a memo h)) ->
  x ∉ P -> (length h0 <= y)%nat ->
  forall rest done done' memo h,
    imaging h0 (P ∪ {[x]}) memo h -> memo !! x = Some y ->
    h !! y = Some (ODict done') ->
    Forall2 (fun kv kv' : string * loc =>
               kv.1 = kv'.1 /\ memo !! kv.2 = Some kv'.2) done done' ->
    Forall (fun c => (c < length h0)%nat) rest.*2 ->
    NoDup (done ++ rest).*1 ->
    (uncopied h0 memo < bound)%nat ->
    is_Some (copy_dict_items cp y rest memo h).
Proof.
  intros Hcp Htot HxP Hy.
  induction rest as [|[key a] rest IH];
    intros done done' memo h Him Hx Hcell HF Hrest Hnd Hb; simpl; [by eauto|].
  simpl in Hrest. apply Forall_cons in Hrest as [Ha Hrest].
  destruct (Htot _ a memo h Ha Him Hb) as [[[a' memo1] h1] E]. rewrite E.
  destruct (dict_item_copied _ _ _ _ key _ _ _ _ _ _ _ _
              Hcp HxP Hy Him Hx Hcell HF Ha (next_key_new _ _ _ _ Hnd) E)
    as (Him2 & Hsub & Hx1 & Hcell2 & HF2 & _).
  apply (IH (done ++ [(key, a)]) (done' ++ [(key, a')])); try done.
  - by rewrite <- app_assoc.
  - pose proof (uncopied_mono h0 _ _ Hsub). lia.
Qed.

(** an atomic object is its own copy *)
Lemma imaging_atomic P memo h x o :
  imaging h0 P memo h -> memo !! x = None -> h0 !! x = Some o ->
  atomic o = true ->
  imaging h0 P (<[x := x]> memo) h.
Proof.
  intros [Hc Hk Hd Hi Hs] Hx Ho Ha.
  assert (Hsub : memo ⊆ <[x := x]> memo) by by apply insert_subseteq.
  pose proof (lookup_lt_Some _ _ _ Ho) as Hlt.
  split.
  - apply copying_memo_insert; [|done]. right. eauto.
  - intros k v. destruct (decide (x = k)) as [<-|Hne]; [done|].
    rewrite lookup_insert_ne by done. apply Hk.
  - intros k v Hkv Hn. destruct (decide (x = k)) as [<-|Hne].
    + rewrite lookup_insert_eq in Hkv. injection Hkv as <-.
      unfold image. rewrite Ho. by destruct o.
    + rewrite lookup_insert_ne in Hkv by done.
      apply (image_mono h0 memo _ h); [done|done|by apply Hd].
  - intros k1 k2 v H1 H2 Hv.
    destruct (decide (x = k1)) as [<-|Hn1].
    { rewrite lookup_insert_eq in H1. injection H1 as <-. lia. }
    destruct (decide (x = k2)) as [<-|Hn2].
    { rewrite lookup_insert_eq in H2. injection H2 as <-. lia. }
    rewrite lookup_insert_ne in H1, H2 by done. by eapply Hi.
  - intros k Hkp. destruct (decide (x = k)) as [<-|Hne].
    + rewrite lookup_insert_eq. eauto.
    + rewrite lookup_insert_ne by done. by apply Hs.
Qed.

(** a container whose items are all copied is finished *)
Lemma imaging_leave P memo h x y :
  imaging h0 (P ∪ {[x]}) memo h -> image h0 memo h x y ->
  memo !! x = Some y -> imaging h0 P memo h.
Proof.
  intros [Hc Hk Hd Hi Hs] Himg Hx. split; try done.
  - intros k v Hkv Hn. destruct (decide (k = x)) as [->|Hne].
    + rewrite Hx in Hkv. by injection Hkv as <-.
    + apply Hd; [done|]. intros [?|?%elem_of_singleton]%elem_of_union; done.
  - intros k Hkp. apply Hs. by apply elem_of_union_l.
Qed.

Lemma deepcopy_images fuel :
  wf_heap h0 = true -> copier_images h0 (deepcopy fuel).
Proof.
  intros Hwf. induction fuel as [|fuel IH];
    intros P x memo h y memo' h' Hlt Him; simpl; [done|].
  destruct (memo !! x) as [y0|] eqn:Em.
  { intros [= <- <- <-].
    split; [done|]. split; [done|]. split; [done|]. by split. }
  pose proof (imaging_copying _ _ _ _ Him) as Hc.
  pose proof (copying_length _ _ _ Hc) as Hl.
  rewrite (copying_old _ _ _ Hc x Hlt).
  destruct (h0 !! x) as [o|] eqn:Ex; [|done].
  assert (HxP : x ∉ P).
  { intros HxP. destruct (imaging_stack _ _ _ _ Him x HxP) as [? ?]. congruence. }
  assert (Hsub : forall v, memo ⊆ <[x := v]> memo)
    by (intros v; by apply insert_subseteq).
  destruct (wf_heap_lookup _ _ _ Hwf Ex) as [Hch Hnd].
  assert (Hatom : atomic o = true ->
            imaging h0 P (<[x := x]> memo) h /\ memo ⊆ <[x := x]> memo
            /\ <[x := x]> memo !! x = Some x
            /\ (forall k v, k ∈ P -> memo !! k = Some v -> h !! v = h !! v)
            /\ (length h <= length h)%nat).
  { intros Ha. split; [by apply (imaging_atomic _ _ _ _ o)|].
    split; [done|]. split; [apply lookup_insert_eq|done]. }
  destruct o as [| | |items|items]; try (intros [= <- <- <-]; by apply Hatom).
  - destruct (copy_list_items _ _ _ _ _) as [[memo2 h2]|] eqn:E; [|done].
    intros [= <- <- <-].
    apply (copy_list_items_images _ _ x P IH HxP Hl items [] []) in E
      as (Him2 & Hsub2 & Hsame & Hl2 & all' & Hall & HF); try done.
    + rewrite length_app in Hl2. simpl in Hl2.
      assert (Hx2 : memo2 !! x = Some (length h)).
      { apply (lookup_weaken _ _ _ _ (lookup_insert_eq memo x (length h)) Hsub2). }
      rewrite (insert_id memo2 x (length h) Hx2).
      split.
      { apply (imaging_leave _ _ _ x (length h)); [done| |done].
        unfold image. rewrite Ex. split; [done|]. eauto. }
      split; [by trans (<[x := length h]> memo)|]. split; [done|].
      split; [|lia].
      intros k v Hk Hkv.
      rewrite (Hsame k v Hk (lookup_weaken _ _ _ _ Hkv (Hsub _))).
      apply lookup_app_l. by apply (memo_value_lt h0 memo h k).
    + by apply (imaging_enter _ _ _ _ (OList [])).
    + apply lookup_insert_eq.
    + rewrite lookup_app_r by lia. by rewrite Nat.sub_diag.
  - destruct (copy_dict_items _ _ _ _ _) as [[memo2 h2]|] eqn:E; [|done].
    intros [= <- <- <-].
    apply (copy_dict_items_images _ _ x P IH HxP Hl items [] []) in E
      as (Him2 & Hsub2 & Hsame & Hl2 & all' & Hall & HF); try done.
    + rewrite length_app in Hl2. simpl in Hl2.
      assert (Hx2 : memo2 !! x = Some (length h)).
      { apply (lookup_weaken _ _ _ _ (lookup_insert_eq memo x (length h)) Hsub2). }
      rewrite (insert_id memo2 x (length h) Hx2).
      split.
      { apply (imaging_leave _ _ _ x (length h)); [done| |done].
        unfold image. rewrite Ex. split; [done|]. eauto. }
      split; [by trans (<[x := length h]> memo)|]. split; [done|].
      split; [|lia].
      intros k v Hk Hkv.
      rewrite (Hsame k v Hk (lookup_weaken _ _ _ _ Hkv (Hsub _))).
      apply lookup_app_l. by apply (memo_value_lt h0 memo h k).
    + by apply (imaging_enter _ _ _ _ (ODict [])).
    + apply lookup_insert_eq.
    + rewrite lookup_app_r by lia. by rewrite Nat.sub_diag.
Qed.

(** With more fuel than objects left to copy, [deepcopy] returns. *)
Lemma deepcopy_total fuel :
  wf_heap h0 = true ->
  forall P x memo h, (x < length h0)%nat -> imaging h0 P memo h ->
    (uncopied h0 memo < fuel)%nat -> is_Some (deepcopy fuel x memo h).
Proof.
  intros Hwf. induction fuel as [|fuel IH]; intros P x memo h Hlt Him Hb;
    [lia|]. simpl.
  destruct (memo !! x) as [y0|] eqn:Em; [by eauto|].
  pose proof (imaging_copying _ _ _ _ Him) as Hc.
  pose proof (copying_length _ _ _ Hc) as Hl.
  rewrite (copying_old _ _ _ Hc x Hlt).
  destruct (lookup_lt_is_Some_2 h0 x Hlt) as [o Ex]. rewrite Ex.
  assert (HxP : x ∉ P).
  { intros HxP. destruct (imaging_stack _ _ _ _ Him x HxP) as [? ?]. congruence. }
  destruct (wf_heap_lookup _ _ _ Hwf Ex) as [Hch Hnd].
  pose proof (uncopied_insert h0 memo x (length h) Em Hlt) as Hless.
  destruct o as [| | |items|items]; try by eauto.
  - destruct (copy_list_items_total (deepcopy fuel) (length h) x P fuel
                (deepcopy_images fuel Hwf) IH HxP Hl items [] []
                (<[x := length h]> memo) (h ++ [OList []]))
      as [[memo2 h2] E]; try done.
    + by apply (imaging_enter _ _ _ _ (OList [])).
    + apply lookup_insert_eq.
    + rewrite lookup_app_r by lia. by rewrite Nat.sub_diag.
    + lia.
    + rewrite E. eauto.
  - destruct (copy_dict_items_total (deepcopy fuel) (length h) x P fuel
                (deepcopy_images fuel Hwf) IH HxP Hl items [] []
                (<[x := length h]> memo) (h ++ [ODict []]))
      as [[memo2 h2] E]; try done.
    + by apply (imaging_enter _ _ _ _ (ODict [])).
    + apply lookup_insert_eq.
    + rewrite lookup_app_r by lia. by rewrite Nat.sub_diag.
    + lia.
    + rewrite E. eauto.
Qed.

Lemma imaging_start : imaging h0 ∅ ∅ h0.
Proof.
  split.
  - apply copying_start.
  - intros k v Hk. by rewrite lookup_empty in Hk.
  - intros k v Hk. by rewrite lookup_empty in Hk.
  - intros k1 k2 v Hk. by rewrite lookup_empty in Hk.
  - intros k Hk. by apply not_elem_of_empty in Hk.
Qed.

(** The copy has the content of the original. *)
Lemma deepcopy_content fuel x y memo h :
  wf_heap h0 = true -> deepcopy fuel x ∅ h0 = Some (y, memo, h) ->
  forall n, content n h y = content n h0 x.
Proof.
  intros Hwf E n.
  assert (Hlt : (x < length h0)%nat).
  { destruct fuel; [done|]. simpl in E. rewrite lookup_empty in E.
    destruct (h0 !! x) eqn:Ex; [|done]. by apply lookup_lt_Some in Ex. }
  destruct (deepcopy_images fuel Hwf ∅ _ _ _ _ _ _ Hlt imaging_start E)
    as (Him & _ & Hx & _).
  apply (content_image h0 memo h); [| |done].
  - apply (copying_old _ _ _ (imaging_copying _ _ _ _ Him)).
  - intros k v Hk. apply (imaging_done _ _ _ _ Him k v Hk).
    apply not_elem_of_empty.
Qed.

End Images.

(** A capture call on a well-formed heap returns, and what it appends to the
    store has the content of the captured locals. *)
Lemma capture_copies fuel lineno x st :
  wf_heap (objects st) = true -> (x < length (objects st))%nat ->
  (length (objects st) < fuel)%nat ->
  exists st' y,
    step fuel (Capture lineno x) st = Some st'
    /\ data st' = data st ++ [(lineno, y)]
    /\ forall n, content n (objects st') y = content n (objects st) x.
Proof.
  intros Hwf Hlt Hfuel. simpl. unfold _record_state_fn_hidden_123.
  destruct (deepcopy_total (objects st) fuel Hwf ∅ x ∅ (objects st) Hlt
              (imaging_start _)) as [[[y memo] h'] E].
  { pose proof (uncopied_le (objects st) ∅). lia. }
  rewrite E. eexists _, y. split; [done|]. split; [done|]. simpl.
  by apply (deepcopy_content _ fuel x y memo).
Qed.

Lemma recorded_snapshots_unchanged fuel h evs1 st1 evs2 st2 :
  run fuel evs1 (fresh h) = Some st1 ->
  run fuel evs2 st1 = Some st2 ->
  data st1 `prefix_of` data st2
  /\ forall snap, snap ∈ data st1 ->
       forall n, content n (objects st2) snap.2 = content n (objects st1) snap.2.
Proof.
  intros H1 H2.
  destruct (run_ok _ _ _ _ (fresh_ok h) H1) as (Hok1 & _).
  by destruct (run_ok _ _ _ _ Hok1 H2) as (_ & Hp & Hc).
Qed.

Lemma run_snoc fuel evs ev st st1 st2 :
  run fuel evs st = Some st1 -> step fuel ev st1 = Some st2 ->
  run fuel (evs ++ [ev]) st = Some st2.
Proof.
  revert st. induction evs as [|e evs IH]; intros st; simpl.
  - intros [= ->] ->. done.
  - destruct (step fuel e st); [|done]. apply IH.
Qed.



End ObjectModelFacts.

(** ** The decorator and the wrapper *)

Module SessionFacts.
Import Semantics Session Preservation PreservationFacts Samples.

Lemma record_taken g st :
  taken st ->
  record g st
  = (Exc (ValueError "Cannot `record` more than one function at a time."), st).
Proof.
  intros [Hn Hb]. unfold record. rewrite Hb.
  destruct (Z.eqb_spec (num_fns_recorded st) 0); [done|reflexivity].
Qed.

Lemma record_wrapped f st w st1 :
  record f st = (Ok (Wrapped w), st1) ->
  bound f st1 /\ taken st1
  /\ is_Some (_record_store_hidden_123 st1)
  /\ compilable (fn_body (instrumented f)) = true
  /\ wrapped_f w = f /\ wrapped_first_dump_call w = true
  /\ fn_source f = Some (wrapped_source w)
  /\ wrapped_file w = length (files st)
  /\ files st1 = files st ++ [[]].
Proof.
  unfold record.
  destruct (_blocked st) eqn:Hb; [done|].
  destruct (Z.eqb_spec (num_fns_recorded st) 0) as [Hn|Hn]; [|done]. simpl.
  destruct (fn_source f) as [source|]; [|done].
  destruct (compilable (_fill_body_with_record (fn_body f) false 0)) eqn:Hc;
    [|done].
  simpl. destruct (fn_exec_error f); [done|].
  intros [= <- <-]. simpl. repeat split; try done.
  - apply lookup_insert_eq.
  - simpl. lia.
Qed.

Section Ops.

Context (H : host).

Lemma untouched_refl st : untouched st st.
Proof. by repeat split. Qed.

Lemma untouched_trans st1 st2 st3 :
  untouched st1 st2 -> untouched st2 st3 -> untouched st1 st3.
Proof.
  intros (Hn & Hb & He & HS) (Hn' & Hb' & He' & HS').
  repeat split; try congruence. auto.
Qed.

Lemma wrapped_rest_untouched w r st r' st' :
  (forall r1 st1, r = Some (r1, st1) -> untouched st st1) ->
  wrapped_rest w r = Some (r', st') -> untouched st st'.
Proof.
  intros Hr. destruct r as [[[ret|e] st1]|]; simpl; [| |done].
  - specialize (Hr _ _ eq_refl).
    unfold dump_recorded_state, dump_fn_source.
    destruct (wrapped_first_dump_call w); destruct (store_serializable _);
      intros [= <- <-]; (eapply untouched_trans; [exact Hr|]);
      by repeat split.
  - intros [= <- <-]. exact (Hr _ _ eq_refl).
Qed.

Lemma wrapped_untouched fuel w args kwargs st r st' :
  wrapped H fuel w args kwargs st = Some (r, st') -> untouched st st'.
Proof.
  revert w st r st'. induction fuel as [|fuel IH]; intros w st r st'; simpl;
    apply wrapped_rest_untouched; intros r1 st1;
    (destruct (env st !! fn_name (wrapped_f w)) as [[g|w']|];
     [|try done; by eapply IH|intros [= <- <-]; apply untouched_refl]).
  all: destruct (call H _ g args kwargs (_record_store_hidden_123 st))
         as [[r0 store]|] eqn:E; [|done];
       intros [= <- <-]; repeat split; try done; simpl; intros HS;
       by apply call_function_keeps_store in E.
Qed.

Lemma run_op_taken fuel o st st' :
  taken st -> run_op H fuel o st = Some st' -> taken st'.
Proof.
  intros Ht. destruct o as [g|w args kwargs|name c]; simpl.
  - rewrite record_taken by done. by intros [= <-].
  - destruct (wrapped H fuel w args kwargs st) as [[r st1]|] eqn:E; [|done].
    intros [= <-]. apply wrapped_untouched in E as (Hn & Hb & _).
    destruct Ht. split; congruence.
  - by intros [= <-].
Qed.

Lemma run_ops_taken fuel ops st st' :
  taken st -> run_ops H fuel ops st = Some st' -> taken st'.
Proof.
  revert st. induction ops as [|o ops IH]; intros st Ht; simpl.
  - by intros [= <-].
  - destruct (run_op H fuel o st) as [st1|] eqn:E; [|done].
    apply IH. by apply (run_op_taken fuel o st).
Qed.

Lemma run_op_store fuel o st st' :
  taken st -> is_Some (_record_store_hidden_123 st) ->
  run_op H fuel o st = Some st' -> is_Some (_record_store_hidden_123 st').
Proof.
  intros Ht HS. destruct o as [g|w args kwargs|name c]; simpl.
  - rewrite record_taken by done. by intros [= <-].
  - destruct (wrapped H fuel w args kwargs st) as [[r st1]|] eqn:E; [|done].
    intros [= <-]. apply wrapped_untouched in E as (_ & _ & _ & HS'). auto.
  - by intros [= <-].
Qed.

Lemma run_ops_store fuel ops st st' :
  taken st -> is_Some (_record_store_hidden_123 st) ->
  run_ops H fuel ops st = Some st' -> is_Some (_record_store_hidden_123 st').
Proof.
  revert st. induction ops as [|o ops IH]; intros st Ht HS; simpl.
  - by intros [= <-].
  - destruct (run_op H fuel o st) as [st1|] eqn:E; [|done].
    apply IH; [by apply (run_op_taken fuel o st)
              |by apply (run_op_store fuel o st)].
Qed.

(** C4.  After [record] has returned a wrapper for one function, whatever
    further decorations, calls of wrappers and bindings of global names
    take place, decorating any function [g] (the same one or another)
    raises the [ValueError] of the single-function check and leaves the
    state as it is. *)
Theorem second_registration_raises fuel f st w st1 ops st2 g :
  record f st = (Ok (Wrapped w), st1) ->
  run_ops H fuel ops st1 = Some st2 ->
  record g st2
  = (Exc (ValueError "Cannot `record` more than one function at a time."), st2).
Proof.
  intros Hr Ho. apply record_wrapped in Hr as (_ & Ht & _).
  apply record_taken. by apply (run_ops_taken fuel ops st1).
Qed.


End Ops.




End SessionFacts.

(** ** Where the capture calls go *)

Module PlacementFacts.
Import Semantics Session Preservation PreservationFacts Samples SessionFacts.

Lemma fill_app_any body1 body2 p l :
  _fill_body_with_record (body1 ++ body2) p l
  = _fill_body_with_record body1 p l ++ _fill_body_with_record body2 false l.
Proof.
  destruct p; [|apply fill_app]. by rewrite !fill_prepend, fill_app.
Qed.





End PlacementFacts.

(** ** What the trace file holds *)

Module TraceFacts.
Import Semantics Session Preservation PreservationFacts Samples SessionFacts.

(** Once the module binds the name of the function to its wrapper, a call
    of the wrapper finds the wrapper again and never returns. *)
Lemma rebound_wrapper_loops H fuel w args kwargs st :
  env st !! fn_name (wrapped_f w) = Some (Wrapper w) ->
  wrapped H fuel w args kwargs st = None.
Proof.
  intros He. induction fuel as [|fuel IH]; simpl; rewrite He; [done|].
  by rewrite IH.
Qed.



Lemma second_registration_raises_witness :
  record keep (registered_state foo)
  = (Exc (ValueError "Cannot `record` more than one function at a time."),
     registered_state foo).
Proof.
  apply (second_registration_raises sample_host 0 foo initial (wrapper_of foo)
           (registered_state foo) [] (registered_state foo) keep).
  - reflexivity.
  - reflexivity.
Defined.

(** Every call that returns writes the source record and then the whole
    record store. *)
Lemma wrapped_ok_trace H fuel w g args kwargs st ret st' :
  env st !! fn_name (wrapped_f w) = Some (Function g) ->
  wrapped H fuel w args kwargs st = Some (Ok ret, st') ->
  wrapped_first_dump_call w = true ->
  (wrapped_file w < length (files st))%nat ->
  trace_file w st'
  = trace_file w st
    ++ [SourceLine (wrapped_source w);
        StateLine (_record_store_hidden_123 st')].
Proof.
  intros He Hw Hfirst Hfile.
  assert (Hw' : wrapped_rest w
            match call H fuel g args kwargs (_record_store_hidden_123 st) with
            | None => None
            | Some (r, store) => Some (r, set_store store st)
            end = Some (Ok ret, st')).
  { destruct fuel; simpl in Hw; by rewrite He in Hw. }
  clear Hw.
  destruct (call H fuel g args kwargs (_record_store_hidden_123 st))
    as [[[ret'|e] store]|]; try done.
  simpl in Hw'. rewrite Hfirst in Hw'.
  unfold dump_recorded_state, dump_fn_source in Hw'.
  simpl in Hw'. destruct (store_serializable store); [|done].
  injection Hw' as <- <-. unfold trace_file. simpl.
  destruct (lookup_lt_is_Some_2 _ _ Hfile) as [content Hc].
  rewrite !list_lookup_alter_eq, Hc. simpl. by rewrite <- app_assoc.
Qed.

(** C5 on the code: after two calls of the wrapper of [foo], the trace file
    holds two source records, the second one after an execution record;
    [first_dump_call] is never cleared. *)
Theorem source_written_on_every_call :
  record foo initial = (Ok (Wrapped (wrapper_of foo)), registered_state foo)
  /\ exists st2,
       run_ops sample_host 0
         [Invoke (wrapper_of foo) [] []; Invoke (wrapper_of foo) [] []]
         (registered_state foo) = Some st2
       /\ is_source <$> trace_file (wrapper_of foo) st2
          = [true; false; true; false].
Proof. split; [reflexivity|]. eexists. split; vm_compute; reflexivity. Qed.

(** C6 on the code: the record store is never emptied, so the execution
    record of the second call of [ident] starts with the snapshot of the
    first. *)
Theorem store_not_reset_between_calls :
  record ident initial
  = (Ok (Wrapped (wrapper_of ident)), registered_state ident)
  /\ exists st2,
       run_ops sample_host 0
         [Invoke (wrapper_of ident) [VInt 1] [];
          Invoke (wrapper_of ident) [VInt 2] []]
         (registered_state ident) = Some st2
       /\ trace_file (wrapper_of ident) st2 !! 3%nat
          = Some (StateLine
                    (Some [(3, {["x" := VInt 1; RETVAL_NAME := VInt 1]});
                           (3, {["x" := VInt 2; RETVAL_NAME := VInt 2]})])).
Proof. split; [reflexivity|]. eexists. split; vm_compute; reflexivity. Qed.

(** C7 on the code: [record] takes no cap, and two calls of the wrapper of
    [foo] leave two execution records. *)
Theorem every_call_is_dumped :
  record foo initial = (Ok (Wrapped (wrapper_of foo)), registered_state foo)
  /\ exists st2,
       run_ops sample_host 0
         [Invoke (wrapper_of foo) [] []; Invoke (wrapper_of foo) [] []]
         (registered_state foo) = Some st2
       /\ length (filter (fun l => is_execution l = true)
                         (trace_file (wrapper_of foo) st2)) = 2%nat.
Proof. split; [reflexivity|]. eexists. split; vm_compute; reflexivity. Qed.

(** C8 on the code: the call [check(True)] raises and writes nothing, but
    its two snapshots stay in the record store and are the first two of
    the execution record that the next call, [check(False)], writes. *)
Theorem snapshots_of_failed_call_are_dumped_later :
  record check initial
  = (Ok (Wrapped (wrapper_of check)), registered_state check)
  /\ exists st1 st2,
       wrapped sample_host 1 (wrapper_of check) [VBool true] []
               (registered_state check)
       = Some (Exc ("ValueError", []), st1)
       /\ trace_file (wrapper_of check) st1 = []
       /\ wrapped sample_host 1 (wrapper_of check) [VBool false] [] st1
          = Some (Ok (VInt 1), st2)
       /\ trace_file (wrapper_of check) st2
          = [SourceLine (wrapped_source (wrapper_of check));
             StateLine
               (Some [(3, {["x" := VBool true; "y" := VInt 1]});
                      (4, {["x" := VBool true; "y" := VInt 1]});
                      (3, {["x" := VBool false; "y" := VInt 1]});
                      (4, {["x" := VBool false; "y" := VInt 1]});
                      (6, {["x" := VBool false; "y" := VInt 1;
                            RETVAL_NAME := VInt 1]})])].
Proof.
  split; [reflexivity|]. eexists _, _.
  split; [vm_compute; reflexivity|]. repeat split; vm_compute; reflexivity.
Qed.

End TraceFacts.

(** ** The line markers of a rewritten body *)

Module MarkerFacts.
Import Semantics Session Samples Markers.

Lemma capture_lines_app a b :
  capture_lines (a ++ b) = capture_lines a ++ capture_lines b.
Proof. apply flat_map_app. Qed.

Lemma capture_lines_plain item :
  plain item = true -> is_capture item = false -> capture_lines_item item = [].
Proof.
  destruct item as [| | | |? e| | | | | | | | | | |]; try done.
  simpl. intros _ Hc.
  destruct (is_record_call e) eqn:E; [|done].
  apply bool_decide_eq_false in Hc. destruct Hc. eauto.
Qed.

Lemma capture_lines_fill_body body :
  Forall (fun item =>
            untraced_item item = true ->
            capture_lines (_fill_body_with_record [item] false 0)
            = statement_lines_item item) body ->
  untraced body = true ->
  forall p l,
    capture_lines (_fill_body_with_record body p l)
    = (if p then [l] else []) ++ statement_lines body.
Proof.
  intros HF Hu.
  assert (Hf : capture_lines (_fill_body_with_record body false 0)
               = statement_lines body).
  { induction HF as [|item body Hi _ IH]; [done|].
    simpl in Hu. apply andb_prop in Hu as [Hu1 Hu2].
    rewrite fill_cons, capture_lines_app, (Hi Hu1), (IH Hu2). done. }
  intros [|] l; [|exact Hf]. rewrite fill_prepend.
  rewrite (fill_lineno_irrelevant body l 0).
  change (capture_lines (_make_record_state_call_expr l :: ?b))
    with (l :: capture_lines b).
  by rewrite Hf.
Qed.

Lemma capture_lines_fill_handlers handlers :
  Forall (fun h =>
            Forall (fun item =>
                      untraced_item item = true ->
                      capture_lines (_fill_body_with_record [item] false 0)
                      = statement_lines_item item) (handler_body h))
         handlers ->
  forallb (fun handler =>
             match handler with
             | ExceptHandler _ _ _ hbody => forallb untraced_item hbody
             end) handlers = true ->
  flat_map (fun handler =>
              match handler with
              | ExceptHandler _ _ _ hbody => flat_map capture_lines_item hbody
              end) (map fill_handler handlers)
  = flat_map (fun handler =>
                match handler with
                | ExceptHandler _ _ _ hbody =>
                    flat_map statement_lines_item hbody
                end) handlers.
Proof.
  induction 1 as [|[hl ty nm hbody] hs Hh _ IH]; [done|].
  simpl. intros Hu. apply andb_prop in Hu as [Hu1 Hu2].
  rewrite (IH Hu2). f_equal.
  apply (capture_lines_fill_body hbody Hh Hu1 false hl).
Qed.

Lemma capture_lines_fill_item item :
  untraced_item item = true ->
  capture_lines (_fill_body_with_record [item] false 0)
  = statement_lines_item item.
Proof.
  induction item using stmt_nested_ind; intros Hu;
    try (rewrite fill_plain by done; unfold capture_lines; cbn [flat_map];
         rewrite capture_lines_plain;
         [done|done|by apply untraced_not_capture]).
  all: try done.
  all: simpl in Hu; repeat (apply andb_prop in Hu as [Hu ?]).
  all: rewrite ?fill_FunctionDef, ?fill_ClassDef, ?fill_With, ?fill_TryFinally,
         ?fill_For, ?fill_While, ?fill_If, ?fill_TryExcept;
       unfold capture_lines; cbn [flat_map capture_lines_item statement_lines_item];
       rewrite ?app_nil_r;
       repeat match goal with
       | HF : Forall _ ?b |- context [flat_map capture_lines_item
                                        (_fill_body_with_record ?b ?p ?l)] =>
           change (flat_map capture_lines_item (_fill_body_with_record b p l))
             with (capture_lines (_fill_body_with_record b p l));
           rewrite (capture_lines_fill_body b HF) by done
       end; try done.
  (* TryExcept *)
  rewrite capture_lines_fill_handlers by done. done.
Qed.

(** X1.  The line markers of the capture calls in a rewritten body, read
    in source order, are the line numbers of the statements of the original
    body in source order, over all nested bodies, [else] branches and
    handler bodies: one marker for each statement, one more for the [else]
    branch of each [if], [while] and [for] (tagged with the line of that
    statement), and the given line first under [prepend].  The original
    body is one that holds no capture call of its own. *)
Theorem capture_lines_are_statement_lines body prepend lineno :
  untraced body = true ->
  capture_lines (_fill_body_with_record body prepend lineno)
  = (if prepend then [lineno] else []) ++ statement_lines body.
Proof.
  intros Hu. apply capture_lines_fill_body; [|done].
  apply Forall_forall. intros item _. apply capture_lines_fill_item.
Qed.

Lemma capture_lines_are_statement_lines_witness :
  capture_lines (_fill_body_with_record (fn_body check) false 0)
  = [3; 4; 5; 4; 6].
Proof.
  apply (capture_lines_are_statement_lines (fn_body check) false 0).
  reflexivity.
Defined.

Lemma compilable_fill_body body :
  Forall (fun item =>
            compilable (_fill_body_with_record [item] false 0)
            = compilable_item item && valued_item item) body ->
  forall p l,
    compilable (_fill_body_with_record body p l)
    = compilable body && valued body.
Proof.
  intros HF.
  assert (Hf : compilable (_fill_body_with_record body false 0)
               = compilable body && valued body).
  { induction HF as [|item body Hi _ IH]; [done|].
    rewrite fill_cons. unfold compilable in *. rewrite forallb_app, Hi, IH.
    unfold valued. simpl.
    destruct (compilable_item item), (valued_item item),
      (forallb compilable_item body), (forallb valued_item body); done. }
  intros [|] l; [|exact Hf]. rewrite fill_prepend. exact Hf.
Qed.

Lemma compilable_fill_handlers handlers :
  Forall (fun h =>
            Forall (fun item =>
                      compilable (_fill_body_with_record [item] false 0)
                      = compilable_item item && valued_item item)
                   (handler_body h)) handlers ->
  forallb (fun handler =>
             match handler with
             | ExceptHandler _ _ _ hbody => forallb compilable_item hbody
             end) (map fill_handler handlers)
  = forallb (fun handler =>
               match handler with
               | ExceptHandler _ _ _ hbody => forallb compilable_item hbody
               end) handlers
    && forallb (fun handler =>
                  match handler with
                  | ExceptHandler _ _ _ hbody => forallb valued_item hbody
                  end) handlers.
Proof.
  induction 1 as [|[hl ty nm hbody] hs Hh _ IH]; [done|].
  simpl. rewrite IH.
  pose proof (compilable_fill_body hbody Hh false hl) as Hb.
  unfold compilable, valued in Hb. rewrite Hb.
  repeat match goal with |- context [forallb ?f ?x] =>
    destruct (forallb f x); simpl; try done end.
Qed.

Lemma compilable_fill_item item :
  compilable (_fill_body_with_record [item] false 0)
  = compilable_item item && valued_item item.
Proof.
  induction item using stmt_nested_ind;
    try (unfold compilable; simpl; by rewrite ?andb_true_r).
  all: try (match goal with v : option expr |- _ => by destruct v end).
  all: rewrite ?fill_FunctionDef, ?fill_ClassDef, ?fill_With, ?fill_TryFinally,
         ?fill_For, ?fill_While, ?fill_If, ?fill_TryExcept;
       unfold compilable;
       cbn [forallb compilable_item valued_item]; rewrite andb_true_r;
       repeat match goal with
       | HF : Forall _ ?b |- context [forallb compilable_item
                                        (_fill_body_with_record ?b ?p ?l)] =>
           change (forallb compilable_item (_fill_body_with_record b p l))
             with (compilable (_fill_body_with_record b p l));
           rewrite (compilable_fill_body b HF)
       end; unfold compilable, valued.
  all: try (change (map _ handlers) with (map fill_handler handlers);
            rewrite compilable_fill_handlers by done).
  all: repeat match goal with |- context [forallb ?f ?x] =>
         destruct (forallb f x); simpl; try done end.
Qed.

(** X2.  The rewritten body compiles exactly when the original body does
    and no [return] in a statement list the rewriter looks at is without
    expression: the assignment that replaces such a [return] has no value,
    and nothing else the rewriter builds can be rejected. *)
Theorem rewritten_compiles_iff body prepend lineno :
  compilable (_fill_body_with_record body prepend lineno)
  = compilable body && valued body.
Proof.
  apply compilable_fill_body.
  apply Forall_forall. intros item _. apply compilable_fill_item.
Qed.

End MarkerFacts.

(** ** Snapshots of straight-line code *)

Module RunFacts.
Import Semantics Session Preservation PreservationFacts Samples.

Section Running.
Context (H : host).


Lemma exec_plain_store n item f_locals S o fr :
  plain item = true -> is_capture item = false ->
  exec_stmt H n item (f_locals, S) = Some (o, fr) ->
  fr.2 = S
  /\ forall S1, exec_stmt H n item (f_locals, S1) = Some (o, (fr.1, S1)).
Proof.
  intros Hp Hc. rewrite exec_plain_fuel by done.
  destruct item as [| | |? targets [e|]|? e| | | |? [e|]|? code| | | | | |];
    try discriminate Hp; simpl in *; try done.
  - destruct (eval_expr H e f_locals) as [v|x]; [|by intros [= <- <-]].
    destruct (assign_all H targets v f_locals) as [oa la].
    by intros [= <- <-].
  - destruct (is_record_call e) eqn:E.
    { apply bool_decide_eq_false in Hc. destruct Hc. eauto. }
    destruct (eval_expr H e f_locals); by intros [= <- <-].
  - by intros [= <- <-].
  - by intros [= <- <-].
  - by intros [= <- <-].
  - destruct (eval_expr H e f_locals) as [[]|x]; by intros [= <- <-].
  - destruct (exec_simple H code f_locals); by intros [= <- <-].
Qed.


End Running.



End RunFacts.

(** ** The rewritten function adds no behaviour *)

Module ReflectionFacts.
Import Semantics Session Preservation PreservationFacts Samples Reflection.

Section Back.
Context (H : host).

Ltac finish_back :=
  match goal with
  | He : Some _ = Some _ |- _ => injection He as <- <-
  end; eexists; (split; [reflexivity|]); by repeat split.

Lemma body_back_of_items n body :
  (forall item, item_back H n item) -> body_back H n body.
Proof.
  intros HP.
  assert (Hnp : forall f_locals S S1 o fr1,
    is_Some S -> is_Some S1 ->
    exec_block (exec_stmt H n) (_fill_body_with_record body false 0)
               (f_locals, S1) = Some (o, fr1) ->
    exists fr,
      exec_block (exec_stmt H n) body (f_locals, S) = Some (o, fr)
      /\ agree o fr fr1).
  { induction body as [|item body IH]; intros f_locals S S1 o fr1 HS HS1 He.
    - simpl in He. injection He as <- <-. eexists; split; [reflexivity|].
      by repeat split.
    - rewrite fill_cons, exec_block_app in He. cbn [exec_block].
      destruct (exec_block (exec_stmt H n)
                  (_fill_body_with_record [item] false 0) (f_locals, S1))
        as [[oi fri]|] eqn:Ei; [|done].
      destruct (HP item _ S _ _ _ HS HS1 Ei) as (fr & -> & Ha).
      destruct oi; try (injection He as <- <-; by exists fr).
      destruct Ha as (Hs1 & Hs2 & Hl). destruct fri as [li Si], fr as [l0 S0].
      simpl in *. subst li. by apply (IH l0 S0 Si). }
  intros [|] l f_locals S S1 o fr1 HS HS1 He; [|by apply (Hnp _ S S1)].
  rewrite fill_prepend in He.
  destruct HS1 as [d ->]. cbn [exec_block] in He. rewrite exec_capture in He.
  by apply (Hnp _ S (Some (d ++ [(l, f_locals)]))).
Qed.

Lemma plain_back n item : plain item = true -> item_back H n item.
Proof.
  intros Hp f_locals S S1 o fr1 [d ->] [d1 ->] He.
  rewrite fill_plain in He by done. rewrite exec_block_plain in He.
  rewrite exec_plain_fuel in * by done.
  destruct item as [| | |? targets [e|]|? e| | | |? [e|]|? code| | | | | |];
    try discriminate Hp; simpl in *; try done.
  - (* Assign *)
    destruct (eval_expr H e f_locals) as [v|x]; [|finish_back].
    destruct (assign_all H targets v f_locals) as [oa la].
    destruct oa; finish_back.
  - (* Expr *)
    destruct (is_record_call e) as [k|]; [finish_back|].
    destruct (eval_expr H e f_locals); finish_back.
  - finish_back.
  - finish_back.
  - finish_back.
  - destruct (eval_expr H e f_locals) as [[]|x]; finish_back.
  - destruct (exec_simple H code f_locals); finish_back.
Qed.

Lemma return_back n l v : item_back H n (Return l v).
Proof.
  intros f_locals S S1 o fr1 [d ->] [d1 ->] He.
  rewrite fill_return in He.
  change [Assign 0 [Name RETVAL_NAME Store] v;
          _make_record_state_call_expr l;
          Return 0 (Some (Name RETVAL_NAME Load))]
    with ([Assign 0 [Name RETVAL_NAME Store] v;
           _make_record_state_call_expr l]
          ++ [Return 0 (Some (Name RETVAL_NAME Load))]) in He.
  rewrite exec_block_app, exec_block_plain in He.
  rewrite (exec_plain_fuel H n (Assign _ _ _)) in He by done.
  rewrite exec_return_fuel. destruct v as [e|]; [|done]. simpl in *.
  destruct (eval_expr H e f_locals) as [v|x]; [|finish_back].
  rewrite exec_return_fuel in He. simpl in He.
  rewrite lookup_insert_eq in He. finish_back.
Qed.

Lemma for_back n target (body orelse : list stmt) l :
  body_back H n body -> body_back H n orelse ->
  forall items f_locals S S1 o fr1,
    is_Some S -> is_Some S1 ->
    exec_for H target
      (exec_block (exec_stmt H n) (_fill_body_with_record body true l))
      (exec_block (exec_stmt H n) (_fill_body_with_record orelse true l))
      items (f_locals, S1) = Some (o, fr1) ->
    exists fr,
      exec_for H target (exec_block (exec_stmt H n) body)
               (exec_block (exec_stmt H n) orelse) items (f_locals, S)
      = Some (o, fr)
      /\ agree o fr fr1.
Proof.
  intros Hb Ho.
  induction items as [|v items IH]; intros f_locals S S1 o fr1 HS HS1 He;
    simpl in *.
  - by apply (Ho true l _ S S1).
  - destruct (assign H target v f_locals) as [f_locals'|x]; [|finish_back].
    destruct (exec_block (exec_stmt H n) (_fill_body_with_record body true l)
                (f_locals', S1)) as [[ob frb]|] eqn:Eb; [|done].
    destruct (Hb true l _ S _ _ _ HS HS1 Eb) as (fr0 & -> & Ha).
    pose proof (agree_locals _ _ _ Ha) as Hl.
    destruct ob; try (injection He as <- <-; by exists fr0);
      destruct Hl as (lb & Sb & S1b & -> & -> & HSb & HS1b).
    + by apply (IH _ Sb S1b).
    + by apply (IH _ Sb S1b).
Qed.

Lemma handlers_back n handlers :
  (forall body, body_back H n body) ->
  forall x f_locals S S1 o fr1,
    is_Some S -> is_Some S1 ->
    exec_handlers H (exec_stmt H n) (map fill_handler handlers) x
                  (f_locals, S1) = Some (o, fr1) ->
    exists fr,
      exec_handlers H (exec_stmt H n) handlers x (f_locals, S) = Some (o, fr)
      /\ agree o fr fr1.
Proof.
  intros Hb.
  induction handlers as [|[hl ty nm hbody] hs IH];
    intros x f_locals S S1 o fr1 HS HS1 He; simpl in *.
  - finish_back.
  - destruct (match ty with Some t => exc_matches H t x f_locals | None => true end).
    + destruct nm as [t|].
      * destruct (assign H t (VExc x.1 x.2) f_locals) as [f_locals'|x'];
          [|finish_back].
        by apply (Hb hbody false hl _ S S1).
      * by apply (Hb hbody false hl _ S S1).
    + by apply (IH _ _ S S1).
Qed.

Lemma stmt_back n : forall item, item_back H n item.
Proof.
  induction n as [|n IH]; intros item;
    (destruct (plain item) eqn:Hp; [by apply plain_back|]);
    destruct item as [| |l v| | | | | | | |l t i body orelse|l t body orelse
                     |l t body orelse| |l body hs orelse|];
    try discriminate Hp; try apply return_back;
    intros f_locals S S1 o fr1 HS HS1 He; try done.
  all: pose proof (fun body => body_back_of_items n body IH) as Hbody.
  - (* For *)
    rewrite fill_For, exec_block_singleton in He. simpl in He |- *.
    destruct (eval_expr H i f_locals) as [v|x]; [|finish_back].
    destruct (iterate v) as [items|x]; [|finish_back].
    by apply (for_back n t body orelse l (Hbody _) (Hbody _) items _ S S1).
  - (* While *)
    pose proof He as He'.
    rewrite fill_While, exec_block_singleton in He. simpl in He |- *.
    destruct (eval_expr H t f_locals) as [v|x]; [|finish_back].
    destruct (truthy v); [|by apply (Hbody _ true l _ S S1)].
    destruct (exec_block (exec_stmt H n) (_fill_body_with_record body true l)
                (f_locals, S1)) as [[ob frb]|] eqn:Eb; [|done].
    destruct (Hbody _ true l _ S _ _ _ HS HS1 Eb) as (fr0 & -> & Ha).
    pose proof (agree_locals _ _ _ Ha) as Hl.
    destruct ob; try (injection He as <- <-; by exists fr0);
      destruct Hl as (lb & Sb & S1b & -> & -> & HSb & HS1b);
      apply (IH (While l t body orelse) lb Sb S1b); try done;
      by rewrite fill_While, exec_block_singleton.
  - (* If *)
    rewrite fill_If, exec_block_singleton in He. simpl in He |- *.
    destruct (eval_expr H t f_locals) as [v|x]; [|finish_back].
    destruct (truthy v); by apply (Hbody _ true l _ S S1).
  - (* TryExcept *)
    rewrite fill_TryExcept, exec_block_singleton in He. simpl in He |- *.
    destruct (exec_block (exec_stmt H n) (_fill_body_with_record body true l)
                (f_locals, S1)) as [[ob frb]|] eqn:Eb; [|done].
    destruct (Hbody _ true l _ S _ _ _ HS HS1 Eb) as (fr0 & -> & Ha).
    pose proof (agree_locals _ _ _ Ha) as Hl.
    destruct ob; try (injection He as <- <-; by exists fr0);
      destruct Hl as (lb & Sb & S1b & -> & -> & HSb & HS1b).
    + by apply (Hbody _ false l _ Sb S1b).
    + by apply (handlers_back n hs Hbody _ _ Sb S1b).
Qed.

Lemma body_back_all n body : body_back H n body.
Proof. apply body_back_of_items, stmt_back. Qed.


End Back.


End ReflectionFacts.

(** ** The store and the files only grow *)

Module GrowthFacts.
Import Semantics Session Preservation PreservationFacts Samples.
Import SessionFacts Growth.

Lemma extends_refl S : extends S S.
Proof. destruct S as [d|]; [|done]. exists []. by rewrite app_nil_r. Qed.

Lemma extends_trans S1 S2 S3 : extends S1 S2 -> extends S2 S3 -> extends S1 S3.
Proof.
  destruct S1 as [d|]; simpl.
  - intros [m ->] [m' ->]. exists (m ++ m'). by rewrite app_assoc.
  - by intros ->.
Qed.

Section Running.
Context (H : host).

Lemma exec_block_extends (run : runner) body :
  (forall item fr o fr', run item fr = Some (o, fr') -> extends fr.2 fr'.2) ->
  forall fr o fr', exec_block run body fr = Some (o, fr') -> extends fr.2 fr'.2.
Proof.
  intros Hrun. induction body as [|item body IH]; intros fr o fr' He;
    simpl in He.
  - injection He as <- <-. apply extends_refl.
  - destruct (run item fr) as [[oi fri]|] eqn:Ei; [|done].
    pose proof (Hrun _ _ _ _ Ei) as Hi.
    destruct oi; try (by injection He as <- <-).
    eapply extends_trans; [exact Hi|]. by apply (IH fri o).
Qed.

Lemma exec_for_extends target run_body run_orelse items :
  (forall fr o fr', run_body fr = Some (o, fr') -> extends fr.2 fr'.2) ->
  (forall fr o fr', run_orelse fr = Some (o, fr') -> extends fr.2 fr'.2) ->
  forall fr o fr',
    exec_for H target run_body run_orelse items fr = Some (o, fr') ->
    extends fr.2 fr'.2.
Proof.
  intros Hb Ho. induction items as [|v items IH]; intros fr o fr' He;
    simpl in He; [by apply (Ho fr o)|].
  destruct (assign H target v fr.1) as [f_locals|x];
    [|injection He as <- <-; apply extends_refl].
  destruct (run_body (f_locals, fr.2)) as [[ob frb]|] eqn:Eb; [|done].
  pose proof (Hb (f_locals, fr.2) _ _ Eb) as Hi. simpl in Hi.
  destruct ob; try (by injection He as <- <-);
    (eapply extends_trans; [exact Hi|]); by apply (IH frb o).
Qed.

Lemma exec_handlers_extends (run : runner) handlers :
  (forall item fr o fr', run item fr = Some (o, fr') -> extends fr.2 fr'.2) ->
  forall x fr o fr',
    exec_handlers H run handlers x fr = Some (o, fr') -> extends fr.2 fr'.2.
Proof.
  intros Hrun. induction handlers as [|[hl ty nm hbody] hs IH];
    intros x fr o fr' He; simpl in He;
    [injection He as <- <-; apply extends_refl|].
  destruct (match ty with Some t => exc_matches H t x fr.1 | None => true end);
    [|by apply (IH x fr o)].
  destruct nm as [t|]; [|by apply (exec_block_extends run hbody Hrun fr o)].
  destruct (assign H t (VExc x.1 x.2) fr.1) as [f_locals|x'];
    [|injection He as <- <-; apply extends_refl].
  by apply (exec_block_extends run hbody Hrun (f_locals, fr.2) o).
Qed.

Lemma exec_stmt_extends n item fr o fr' :
  exec_stmt H n item fr = Some (o, fr') -> extends fr.2 fr'.2.
Proof.
  revert item fr o fr'.
  induction n as [|n IH]; intros item [f_locals S] o fr' He;
    destruct item as [| |l [e|]|l ts [e|]|l e| | | |l [e|]|l c|l t i body orelse
                     |l t body orelse|l t body orelse| |l body hs orelse|];
    simpl in *; try done;
    try (injection He as <- <-; apply extends_refl).
  all: try (destruct (eval_expr H e f_locals) as [v|x];
            try destruct v; injection He as <- <-; apply extends_refl).
  all: try (destruct (eval_expr H e f_locals) as [v|x];
            [destruct (assign_all H ts v f_locals)|];
            injection He as <- <-; apply extends_refl).
  all: try (destruct (is_record_call e);
            [destruct S as [d|]; simpl in He
            |destruct (eval_expr H e f_locals)];
            injection He as <- <-; simpl; eauto using extends_refl).
  all: try (destruct (exec_simple H c f_locals);
            injection He as <- <-; apply extends_refl).
  - destruct (eval_expr H i f_locals) as [v|x];
      [|injection He as <- <-; apply extends_refl].
    destruct (iterate v) as [items|x];
      [|injection He as <- <-; apply extends_refl].
    apply (exec_for_extends t (exec_block (exec_stmt H n) body)
             (exec_block (exec_stmt H n) orelse) items)
      with (fr := (f_locals, S)) (o := o); [| |done];
      intros fr o1 fr1; by apply exec_block_extends.
  - destruct (eval_expr H t f_locals) as [v|x];
      [|injection He as <- <-; apply extends_refl].
    destruct (truthy v);
      [|by apply (exec_block_extends _ orelse IH (f_locals, S) o)].
    destruct (exec_block (exec_stmt H n) body (f_locals, S))
      as [[ob frb]|] eqn:Eb; [|done].
    pose proof (exec_block_extends _ body IH (f_locals, S) _ _ Eb) as Hb.
    destruct ob; try (by injection He as <- <-);
      (eapply extends_trans; [exact Hb|]);
      by apply (IH (While l t body orelse) frb o).
  - destruct (eval_expr H t f_locals) as [v|x];
      [|injection He as <- <-; apply extends_refl].
    destruct (truthy v);
      [by apply (exec_block_extends _ body IH (f_locals, S) o)
      |by apply (exec_block_extends _ orelse IH (f_locals, S) o)].
  - destruct (exec_block (exec_stmt H n) body (f_locals, S))
      as [[ob frb]|] eqn:Eb; [|done].
    pose proof (exec_block_extends _ body IH (f_locals, S) _ _ Eb) as Hb.
    destruct ob; try (by injection He as <- <-);
      (eapply extends_trans; [exact Hb|]).
    + by apply (exec_block_extends _ orelse IH frb o).
    + by apply (exec_handlers_extends _ hs IH e frb o).
Qed.

Lemma call_function_extends n params body args kwargs S r S' :
  call_function H n params body args kwargs S = Some (r, S') -> extends S S'.
Proof.
  unfold call_function. intros He.
  destruct (bind_args params args kwargs) as [f_locals|x];
    [|injection He as <- <-; apply extends_refl].
  destruct (exec_block (exec_stmt H n) body (f_locals, S))
    as [[ob frb]|] eqn:Eb; [|done].
  pose proof (exec_block_extends _ body (exec_stmt_extends n)
                (f_locals, S) _ _ Eb) as Hb.
  destruct ob; try done; by injection He as <- <-.
Qed.

Lemma appended_refl fs : appended fs fs.
Proof. intros i content Hi. exists []. by rewrite app_nil_r. Qed.

Lemma appended_trans fs1 fs2 fs3 :
  appended fs1 fs2 -> appended fs2 fs3 -> appended fs1 fs3.
Proof.
  intros H12 H23 i content Hi.
  destruct (H12 i content Hi) as [m Hm].
  destruct (H23 i _ Hm) as [m' Hm'].
  exists (m ++ m'). by rewrite app_assoc.
Qed.

Lemma write_appended file l st : appended (files st) (files (write file l st)).
Proof.
  intros i content Hi. simpl.
  destruct (decide (i = file)) as [->|Hne].
  - exists [l]. by rewrite list_lookup_alter_eq, Hi.
  - exists []. by rewrite list_lookup_alter_ne, app_nil_r.
Qed.

Lemma write_length file l st :
  length (files (write file l st)) = length (files st).
Proof. simpl. apply length_alter. Qed.

Lemma wrapped_rest_files w r0 st r st' :
  (forall r1 st1, r0 = Some (r1, st1) -> length (files st1) = length (files st)) ->
  wrapped_rest w r0 = Some (r, st') -> length (files st') = length (files st).
Proof.
  intros Hr. destruct r0 as [[[ret|e] st1]|]; simpl; [| |done].
  - specialize (Hr _ _ eq_refl).
    unfold dump_recorded_state, dump_fn_source.
    destruct (wrapped_first_dump_call w); destruct (store_serializable _);
      intros [= <- <-]; by rewrite ?write_length.
  - intros [= <- <-]. exact (Hr _ _ eq_refl).
Qed.

Lemma wrapped_files_length fuel w args kwargs st r st' :
  wrapped H fuel w args kwargs st = Some (r, st') ->
  length (files st') = length (files st).
Proof.
  revert w st r st'. induction fuel as [|fuel IH]; intros w st r st'; simpl;
    apply wrapped_rest_files; intros r1 st1;
    (destruct (env st !! fn_name (wrapped_f w)) as [[g|w']|];
     [|try done; by eapply IH|by intros [= <- <-]]).
  all: destruct (call H _ g args kwargs (_record_store_hidden_123 st))
         as [[r0 store]|] eqn:E; [|done];
       by intros [= <- <-].
Qed.

Lemma wrapped_rest_grows w r0 st r st' :
  (forall r1 st1, r0 = Some (r1, st1) ->
     extends (_record_store_hidden_123 st) (_record_store_hidden_123 st1)
     /\ appended (files st) (files st1)) ->
  wrapped_rest w r0 = Some (r, st') ->
  extends (_record_store_hidden_123 st) (_record_store_hidden_123 st')
  /\ appended (files st) (files st').
Proof.
  intros Hr. destruct r0 as [[[ret|e] st1]|]; simpl; [| |done].
  - destruct (Hr _ _ eq_refl) as [He Ha].
    unfold dump_recorded_state, dump_fn_source.
    destruct (wrapped_first_dump_call w); destruct (store_serializable _);
      intros [= <- <-]; (split; [exact He|]);
      repeat (eapply appended_trans; [|apply write_appended]); exact Ha.
  - intros [= <- <-]. exact (Hr _ _ eq_refl).
Qed.

Lemma wrapped_grows fuel w args kwargs st r st' :
  wrapped H fuel w args kwargs st = Some (r, st') ->
  extends (_record_store_hidden_123 st) (_record_store_hidden_123 st')
  /\ appended (files st) (files st').
Proof.
  revert w st r st'. induction fuel as [|fuel IH]; intros w st r st'; simpl;
    apply wrapped_rest_grows; intros r1 st1;
    (destruct (env st !! fn_name (wrapped_f w)) as [[g|w']|];
     [|try done; by eapply IH
      |intros [= <- <-]; split; [apply extends_refl|apply appended_refl]]).
  all: destruct (call H _ g args kwargs (_record_store_hidden_123 st))
         as [[r0 store]|] eqn:E; [|done];
       intros [= <- <-]; split; [|apply appended_refl]; simpl;
       by apply call_function_extends in E.
Qed.

Lemma record_appended g st : appended (files st) (files (record g st).2).
Proof.
  unfold record.
  destruct (_blocked st); [apply appended_refl|].
  destruct (negb _); [apply appended_refl|].
  destruct (fn_source g); [|apply appended_refl].
  destruct (negb _); [apply appended_refl|].
  destruct (fn_exec_error g); [apply appended_refl|]. simpl.
  intros i content Hi. exists [].
  rewrite app_nil_r. by apply lookup_app_l_Some.
Qed.

Lemma run_ops_appended fuel ops st st' :
  run_ops H fuel ops st = Some st' -> appended (files st) (files st').
Proof.
  revert st. induction ops as [|o ops IH]; intros st; simpl.
  - intros [= <-]. apply appended_refl.
  - destruct (run_op H fuel o st) as [st1|] eqn:E; [|done]. intros Hr.
    eapply appended_trans; [|by apply IH].
    destruct o as [g|w args kwargs|name c]; simpl in E.
    + injection E as <-. apply record_appended.
    + destruct (wrapped H fuel w args kwargs st) as [[r st2]|] eqn:Ew; [|done].
      injection E as <-. by apply wrapped_grows in Ew as [_ ?].
    + injection E as <-. apply appended_refl.
Qed.

Lemma run_ops_extends fuel ops st st' :
  taken st -> run_ops H fuel ops st = Some st' ->
  extends (_record_store_hidden_123 st) (_record_store_hidden_123 st').
Proof.
  revert st. induction ops as [|o ops IH]; intros st Ht; simpl.
  - intros [= <-]. apply extends_refl.
  - destruct (run_op H fuel o st) as [st1|] eqn:E; [|done]. intros Hr.
    pose proof (run_op_taken H fuel o st st1 Ht E) as Ht1.
    eapply extends_trans; [|by apply IH].
    destruct o as [g|w args kwargs|name c]; simpl in E.
    + rewrite record_taken in E by done. injection E as <-. apply extends_refl.
    + destruct (wrapped H fuel w args kwargs st) as [[r st2]|] eqn:Ew; [|done].
      injection E as <-. by apply wrapped_grows in Ew as [? _].
    + injection E as <-. apply extends_refl.
Qed.

(** X6.  Whatever is decorated, called or bound, from any state: a trace
    file that exists is never removed, truncated or rewritten; its lines
    stay as they are, with new lines after them. *)
Theorem trace_files_only_appended fuel ops st st' :
  run_ops H fuel ops st = Some st' -> appended (files st) (files st').
Proof. apply run_ops_appended. Qed.

(** X7.  Once a function is registered, the record store only grows:
    whatever is decorated, called or bound afterwards, the snapshots
    recorded so far stay in the store, in order, with the later ones after
    them.  Nothing resets the store between two calls or after a call that
    raised. *)
Theorem store_only_grows fuel ops st st' :
  taken st -> run_ops H fuel ops st = Some st' ->
  extends (_record_store_hidden_123 st) (_record_store_hidden_123 st').
Proof. apply run_ops_extends. Qed.

End Running.

Lemma trace_files_only_appended_witness :
  match run_ops sample_host 0
          [Invoke (wrapper_of foo) [] []; Decorate keep;
           Invoke (wrapper_of foo) [] []]
          (registered_state foo) with
  | Some st' => appended (files (registered_state foo)) (files st')
  | None => False
  end.
Proof.
  destruct (run_ops sample_host 0
              [Invoke (wrapper_of foo) [] []; Decorate keep;
               Invoke (wrapper_of foo) [] []]
              (registered_state foo)) as [st'|] eqn:E.
  - exact (trace_files_only_appended sample_host 0
             [Invoke (wrapper_of foo) [] []; Decorate keep;
              Invoke (wrapper_of foo) [] []]
             (registered_state foo) st' E).
  - vm_compute in E. discriminate E.
Defined.

Lemma store_only_grows_witness :
  match run_ops sample_host 1
          [Invoke (wrapper_of check) [VBool true] [];
           Invoke (wrapper_of check) [VBool false] []]
          (registered_state check) with
  | Some st' => extends (Some []) (_record_store_hidden_123 st')
  | None => False
  end.
Proof.
  destruct (run_ops sample_host 1
              [Invoke (wrapper_of check) [VBool true] [];
               Invoke (wrapper_of check) [VBool false] []]
              (registered_state check)) as [st'|] eqn:E.
  - apply (store_only_grows sample_host 1
             [Invoke (wrapper_of check) [VBool true] [];
              Invoke (wrapper_of check) [VBool false] []]
             (registered_state check) st'); [|exact E].
    split; [simpl; lia|reflexivity].
  - vm_compute in E. discriminate E.
Defined.

End GrowthFacts.

(** ** Decorations that fail, and the one that goes through *)

Module RegistrationFacts.
Import Semantics Session Samples SessionFacts.
Import Markers Growth MarkerFacts GrowthFacts.

Lemma record_failure_frame f st e st' :
  record f st = (Exc e, st') ->
  env st' = env st /\ files st' = files st
  /\ _record_store_hidden_123 st' = _record_store_hidden_123 st
  /\ num_fns_recorded st' <> 0.
Proof.
  unfold record.
  destruct (_blocked st); [done|].
  destruct (Z.eqb_spec (num_fns_recorded st) 0) as [Hn|Hn]; simpl.
  2: { by intros [= <- <-]. }
  destruct (fn_source f); [|intros [= <- <-]; simpl; repeat split; lia].
  destruct (negb _); [intros [= <- <-]; simpl; repeat split; lia|].
  destruct (fn_exec_error f); [|done].
  intros [= <- <-]; simpl; repeat split; lia.
Qed.


Lemma record_closed g st :
  _blocked st = true \/ num_fns_recorded st <> 0 ->
  record g st = (Ok (Unchanged g), st)
  \/ record g st
     = (Exc (ValueError "Cannot `record` more than one function at a time."),
        st).
Proof.
  intros Hc. unfold record. destruct (_blocked st); [by left|].
  destruct Hc as [|Hn]; [done|].
  destruct (Z.eqb_spec (num_fns_recorded st) 0); [done|by right].
Qed.

Section Ops.
Context (H : host).

Lemma run_op_counter fuel o st st' :
  num_fns_recorded st <> 0 -> run_op H fuel o st = Some st' ->
  num_fns_recorded st' <> 0.
Proof.
  intros Hn. destruct o as [g|w args kwargs|name c]; simpl.
  - destruct (record_closed g st (or_intror Hn)) as [-> | ->];
      by intros [= <-].
  - destruct (wrapped H fuel w args kwargs st) as [[r st1]|] eqn:E; [|done].
    intros [= <-]. apply wrapped_untouched in E as (Hn' & _). congruence.
  - by intros [= <-].
Qed.

Lemma run_ops_counter fuel ops st st' :
  num_fns_recorded st <> 0 -> run_ops H fuel ops st = Some st' ->
  num_fns_recorded st' <> 0.
Proof.
  revert st. induction ops as [|o ops IH]; intros st Hn; simpl.
  - by intros [= <-].
  - destruct (run_op H fuel o st) as [st1|] eqn:E; [|done].
    apply IH. by apply (run_op_counter fuel o st).
Qed.

Lemma run_op_blocked fuel o st st' :
  _blocked st = true -> run_op H fuel o st = Some st' -> _blocked st' = true.
Proof.
  intros Hb. destruct o as [g|w args kwargs|name c]; simpl.
  - unfold record. rewrite Hb. by intros [= <-].
  - destruct (wrapped H fuel w args kwargs st) as [[r st1]|] eqn:E; [|done].
    intros [= <-]. apply wrapped_untouched in E as (_ & Hb' & _). congruence.
  - by intros [= <-].
Qed.

Lemma run_ops_blocked fuel ops st st' :
  _blocked st = true -> run_ops H fuel ops st = Some st' -> _blocked st' = true.
Proof.
  revert st. induction ops as [|o ops IH]; intros st Hb; simpl.
  - by intros [= <-].
  - destruct (run_op H fuel o st) as [st1|] eqn:E; [|done].
    apply IH. by apply (run_op_blocked fuel o st).
Qed.

(** X9.  After a decoration that raised, for any reason, no function is
    ever instrumented in the process: whatever is decorated, called or
    bound in between, [record] either raises the [ValueError] of the
    single-function check or returns its argument as it is, and in both
    cases leaves the state alone. *)
Theorem no_registration_after_failure fuel f st e st1 ops st2 g :
  record f st = (Exc e, st1) ->
  run_ops H fuel ops st1 = Some st2 ->
  record g st2 = (Ok (Unchanged g), st2)
  \/ record g st2
     = (Exc (ValueError "Cannot `record` more than one function at a time."),
        st2).
Proof.
  intros Hf Ho. apply record_closed. right.
  apply (run_ops_counter fuel ops st1); [|done].
  by apply record_failure_frame in Hf as (_ & _ & _ & Hn).
Qed.

(** X10.  When the source is available and the rewritten tree compiles but
    executing the rewritten definition raises, [record] lets the exception
    through with [_blocked] still set; from then on, whatever is decorated,
    called or bound, every decoration returns the function it is given,
    untraced, without raising. *)
Theorem failed_exec_disables_decorator fuel f st source e :
  _blocked st = false ->
  num_fns_recorded st = 0 ->
  fn_source f = Some source ->
  compilable (_fill_body_with_record (fn_body f) false 0) = true ->
  fn_exec_error f = Some e ->
  record f st = (Exc e, set_blocked true (set_num_fns_recorded 1 st))
  /\ forall ops st2 g,
       run_ops H fuel ops (set_blocked true (set_num_fns_recorded 1 st))
       = Some st2 ->
       record g st2 = (Ok (Unchanged g), st2).
Proof.
  intros Hb Hn Hs Hc He. split.
  - unfold record. by rewrite Hb, Hn, Hs, Hc, He.
  - intros ops st2 g Ho.
    apply run_ops_blocked in Ho; [|done]. unfold record. by rewrite Ho.
Qed.

End Ops.


Lemma no_registration_after_failure_witness :
  record foo (set_num_fns_recorded 1 initial)
  = (Ok (Unchanged foo), set_num_fns_recorded 1 initial)
  \/ record foo (set_num_fns_recorded 1 initial)
     = (Exc (ValueError "Cannot `record` more than one function at a time."),
        set_num_fns_recorded 1 initial).
Proof.
  apply (no_registration_after_failure sample_host 0 bare initial
           (ValueError "field value is required for Assign")
           (set_num_fns_recorded 1 initial) []
           (set_num_fns_recorded 1 initial) foo).
  - reflexivity.
  - reflexivity.
Defined.

Lemma failed_exec_disables_decorator_witness :
  record local_default initial
  = (Exc ("NameError", [VStr "name 'd' is not defined"]),
     set_blocked true (set_num_fns_recorded 1 initial))
  /\ forall ops st2 g,
       run_ops sample_host 0 ops
               (set_blocked true (set_num_fns_recorded 1 initial))
       = Some st2 ->
       record g st2 = (Ok (Unchanged g), st2).
Proof.
  apply (failed_exec_disables_decorator sample_host 0 local_default initial
           "    @record
    def local_default(x=d):
        return x
" ("NameError", [VStr "name 'd' is not defined"])).
  - reflexivity.
  - reflexivity.
  - reflexivity.
  - reflexivity.
  - reflexivity.
Defined.



Section Reachable.
Context (H : host).

Lemma single_registration_record g st :
  single_registration st -> single_registration (record g st).2.
Proof.
  intros Hi. pose proof Hi as (Hn & Hl & Hs & Hf). unfold record.
  destruct (_blocked st) eqn:Hb; [exact Hi|].
  destruct (Z.eqb_spec (num_fns_recorded st) 0) as [Hz|Hz]; simpl;
    [|exact Hi].
  assert (Hnil : length (files st) = 0%nat).
  { destruct (decide (length (files st) = 1%nat)) as [H1|H1]; [|lia].
    destruct (Hf H1). lia. }
  assert (Hnone : ~ is_Some (_record_store_hidden_123 st)).
  { rewrite Hs. lia. }
  assert (Hfail : forall st1,
    num_fns_recorded st1 = 1 -> files st1 = files st ->
    _record_store_hidden_123 st1 = _record_store_hidden_123 st ->
    single_registration st1).
  { intros st1 H1 H2 H3. unfold single_registration.
    rewrite H1, H2, H3. split; [by right|]. split; [done|].
    split; [done|]. lia. }
  destruct (fn_source g); [|apply Hfail; simpl; [lia|done|done]].
  destruct (negb _); [apply Hfail; simpl; [lia|done|done]|].
  destruct (fn_exec_error g); [apply Hfail; simpl; [lia|done|done]|]. simpl.
  rewrite Hz. split; [by right|]. simpl. rewrite length_app, Hnil. simpl.
  split; [done|]. split; [|done]. split; eauto.
Qed.

Lemma single_registration_op fuel o st st' :
  single_registration st -> run_op H fuel o st = Some st' ->
  single_registration st'.
Proof.
  intros Hi. destruct o as [g|w args kwargs|name c]; simpl.
  - intros [= <-]. by apply single_registration_record.
  - destruct (wrapped H fuel w args kwargs st) as [[r st1]|] eqn:E; [|done].
    intros [= <-].
    pose proof (wrapped_untouched H _ _ _ _ _ _ _ E) as (Hn & Hb & _ & HS).
    pose proof (wrapped_files_length H _ _ _ _ _ _ _ E) as Hl.
    pose proof (wrapped_grows H _ _ _ _ _ _ _ E) as [Hx _].
    destruct Hi as (Hn0 & Hl0 & Hs0 & Hf0). unfold single_registration.
    rewrite Hn, Hb, Hl. split; [done|]. split; [done|]. split; [|done].
    rewrite <- Hs0. split; [|done].
    destruct (_record_store_hidden_123 st); [by eauto|].
    simpl in Hx. rewrite Hx. by intros [? ?].
  - by intros [= <-].
Qed.

(** X12.  At any time of a process, whatever has been decorated, called or
    bound since it started: the counter is 0 or 1, there is at most one
    trace file, and that file exists exactly when the record store is
    initialised, in which case the counter is 1 and the guard is open. *)
Theorem at_most_one_trace_file fuel ops st :
  run_ops H fuel ops initial = Some st -> single_registration st.
Proof.
  assert (Hi : single_registration initial).
  { split; [by left|]. split; [simpl; lia|]. split; [|done].
    simpl. split; [by intros [? ?]|done]. }
  revert Hi. generalize initial. induction ops as [|o ops IH]; intros st0 Hi;
    simpl.
  - by intros [= <-].
  - destruct (run_op H fuel o st0) as [st1|] eqn:E; [|done].
    apply IH. by apply (single_registration_op fuel o st0).
Qed.

End Reachable.

Lemma at_most_one_trace_file_witness :
  match run_ops sample_host 0
          [Decorate dynamic; Decorate foo; Invoke (wrapper_of foo) [] []]
          initial with
  | Some st => single_registration st
  | None => False
  end.
Proof.
  destruct (run_ops sample_host 0
              [Decorate dynamic; Decorate foo; Invoke (wrapper_of foo) [] []]
              initial) as [st|] eqn:E.
  - exact (at_most_one_trace_file sample_host 0
             [Decorate dynamic; Decorate foo; Invoke (wrapper_of foo) [] []]
             st E).
  - vm_compute in E. discriminate E.
Defined.

End RegistrationFacts.

(** ** What the wrapper writes and returns *)

Module WrapperFacts.
Import Semantics Session Preservation PreservationFacts Samples.
Import SessionFacts TraceFacts Growth GrowthFacts Reflection ReflectionFacts.

Section Ops.
Context (H : host).

Lemma trace_file_write w l st :
  (wrapped_file w < length (files st))%nat ->
  trace_file w (write (wrapped_file w) l st) = trace_file w st ++ [l].
Proof.
  intros Hf. unfold trace_file. simpl.
  destruct (lookup_lt_is_Some_2 _ _ Hf) as [content Hc].
  by rewrite list_lookup_alter_eq, Hc.
Qed.

Lemma other_file_write file l st i :
  i <> file -> files (write file l st) !! i = files st !! i.
Proof. intros Hne. simpl. by apply list_lookup_alter_ne. Qed.

(** X13.  What one call of the wrapper writes, when the name of the function
    is bound to a function that returns or raises on the arguments: the
    record store is what that call left; no other file changes; if the
    function raised, the wrapper raises the same and writes nothing; if it
    returned, the wrapper writes the source record (as long as
    [first_dump_call] holds) and then either the whole record store,
    returning the value, or, when the store cannot be serialized, the
    beginning of a record with no end, raising the [TypeError] of
    [json.dump]. *)
Theorem what_a_call_writes fuel w g args kwargs st r0 store :
  env st !! fn_name (wrapped_f w) = Some (Function g) ->
  (wrapped_file w < length (files st))%nat ->
  call H fuel g args kwargs (_record_store_hidden_123 st) = Some (r0, store) ->
  exists r st',
    wrapped H fuel w args kwargs st = Some (r, st')
    /\ _record_store_hidden_123 st' = store
    /\ (forall i, i <> wrapped_file w -> files st' !! i = files st !! i)
    /\ match r0 with
       | Exc e => r = Exc e /\ trace_file w st' = trace_file w st
       | Ok ret =>
           let source_record :=
             if wrapped_first_dump_call w
             then [SourceLine (wrapped_source w)] else [] in
           if store_serializable store
           then r = Ok ret
                /\ trace_file w st'
                   = trace_file w st ++ source_record ++ [StateLine store]
           else r = Exc (TypeError "is not JSON serializable")
                /\ trace_file w st'
                   = trace_file w st ++ source_record ++ [TornLine]
       end.
Proof.
  intros He Hf Hc.
  assert (Hw : wrapped H fuel w args kwargs st
               = wrapped_rest w (Some (r0, set_store store st))).
  { destruct fuel; simpl; by rewrite He, Hc. }
  rewrite Hw. destruct r0 as [ret|e]; simpl; [|by eauto 10].
  unfold dump_recorded_state, dump_fn_source. simpl.
  destruct (wrapped_first_dump_call w), (store_serializable store) eqn:Es;
    simpl; rewrite ?Es; eexists _, _; (split; [reflexivity|]);
    (split; [reflexivity|]); (split; [|split; [reflexivity|]]).
  all: try (intros i Hne; by rewrite ?other_file_write).
  all: rewrite ?trace_file_write; rewrite ?write_length; try done.
  all: by rewrite <- ?app_assoc.
Qed.

Lemma invoke_all_returning fuel w g calls :
  wrapped_first_dump_call w = true ->
  forall st rs st',
    env st !! fn_name (wrapped_f w) = Some (Function g) ->
    (wrapped_file w < length (files st))%nat ->
    invoke_all H fuel w calls st = Some (rs, st') ->
    forallb returned rs = true ->
    is_source <$> trace_file w st'
    = (is_source <$> trace_file w st)
      ++ mjoin (replicate (length calls) [true; false])
    /\ is_execution <$> trace_file w st'
       = (is_execution <$> trace_file w st)
         ++ mjoin (replicate (length calls) [false; true]).
Proof.
  intros Hfirst. induction calls as [|[args kwargs] calls IH];
    intros st rs st' He Hf; simpl.
  - intros [= <- <-] _. by rewrite !app_nil_r.
  - destruct (wrapped H fuel w args kwargs st) as [[r st1]|] eqn:Ew; [|done].
    destruct (invoke_all H fuel w calls st1) as [[rs1 st2]|] eqn:Ei; [|done].
    intros [= <- <-]. simpl. intros Hr. apply andb_prop in Hr as [Hr1 Hr2].
    destruct r as [ret|e]; [|done].
    pose proof (wrapped_untouched H _ _ _ _ _ _ _ Ew) as (_ & _ & Henv & _).
    pose proof (wrapped_files_length H _ _ _ _ _ _ _ Ew) as Hl.
    destruct (IH st1 rs1 st2) as [Hs Hx]; try done.
    { by rewrite Henv. }
    { by rewrite Hl. }
    rewrite Hs, Hx.
    rewrite (wrapped_ok_trace H fuel w g args kwargs st ret st1) by done.
    rewrite !fmap_app. simpl. by rewrite <- !app_assoc.
Qed.

(** X14.  Calls of the wrapper that all return leave two records each in
    the trace file, a source record and then an execution record: after [N]
    such calls the file has grown by [N] source records and [N] execution
    records, alternating. *)
Theorem returning_calls_write_two_records_each fuel w g calls st rs st' :
  wrapped_first_dump_call w = true ->
  env st !! fn_name (wrapped_f w) = Some (Function g) ->
  (wrapped_file w < length (files st))%nat ->
  invoke_all H fuel w calls st = Some (rs, st') ->
  forallb returned rs = true ->
  is_source <$> trace_file w st'
  = (is_source <$> trace_file w st)
    ++ mjoin (replicate (length calls) [true; false])
  /\ is_execution <$> trace_file w st'
     = (is_execution <$> trace_file w st)
       ++ mjoin (replicate (length calls) [false; true]).
Proof. intros Hfirst. by apply invoke_all_returning. Qed.

Lemma call_function_back n params body args kwargs S S1 r S1' :
  is_Some S -> is_Some S1 ->
  call_function H n params (_fill_body_with_record body false 0)
                args kwargs S1 = Some (r, S1') ->
  exists S', call_function H n params body args kwargs S = Some (r, S').
Proof.
  unfold call_function. intros HS HS1 He.
  destruct (bind_args params args kwargs) as [f_locals|x];
    [|injection He as <- <-; eauto].
  destruct (exec_block (exec_stmt H n) (_fill_body_with_record body false 0)
              (f_locals, S1)) as [[ob frb]|] eqn:Eb; [|done].
  destruct (body_back_all H n body false 0 _ S _ _ _ HS HS1 Eb)
    as (fr & -> & _).
  destruct ob; try done; injection He as <- <-; eauto.
Qed.


End Ops.

Lemma what_a_call_writes_witness :
  exists r st',
    wrapped sample_host 0 (wrapper_of keep) [] [] (registered_state keep)
    = Some (r, st')
    /\ r = Exc (TypeError "is not JSON serializable")
    /\ trace_file (wrapper_of keep) st'
       = [SourceLine (wrapped_source (wrapper_of keep)); TornLine].
Proof.
  destruct (what_a_call_writes sample_host 0 (wrapper_of keep)
              (instrumented keep) [] [] (registered_state keep)
              (Ok (VInt 1))
              (Some [(3, {["s" := VSet []]});
                     (4, {["s" := VSet []; RETVAL_NAME := VInt 1]})]))
    as (r & st' & Hw & _ & _ & Hr & Ht).
  - reflexivity.
  - simpl. lia.
  - vm_compute. reflexivity.
  - exists r, st'. split; [exact Hw|]. split; [exact Hr|exact Ht].
Defined.

Lemma returning_calls_write_two_records_each_witness :
  match invoke_all sample_host 0 (wrapper_of ident)
          [([VInt 1], []); ([], [("x", VInt 2)]); ([VInt 3], [])]
          (registered_state ident) with
  | Some (rs, st') =>
      is_source <$> trace_file (wrapper_of ident) st'
      = [true; false; true; false; true; false]
      /\ is_execution <$> trace_file (wrapper_of ident) st'
         = [false; true; false; true; false; true]
  | None => False
  end.
Proof.
  destruct (invoke_all sample_host 0 (wrapper_of ident)
              [([VInt 1], []); ([], [("x", VInt 2)]); ([VInt 3], [])]
              (registered_state ident)) as [[rs st']|] eqn:E.
  - assert (Hrs : forallb returned rs = true).
    { vm_compute in E. injection E as <- _. reflexivity. }
    exact (returning_calls_write_two_records_each sample_host 0
             (wrapper_of ident) (instrumented ident)
             [([VInt 1], []); ([], [("x", VInt 2)]); ([VInt 3], [])]
             (registered_state ident) rs st' eq_refl eq_refl
             ltac:(simpl; lia) E Hrs).
  - vm_compute in E. discriminate E.
Defined.


End WrapperFacts.

(** ** The shape of a copy *)

Module CopyFacts.
Import ObjectModel ObjectModelFacts Coverage.

Lemma prefix_of_lookups {A} (l k : list A) :
  (length l <= length k)%nat ->
  (forall i, (i < length l)%nat -> k !! i = l !! i) ->
  l `prefix_of` k.
Proof.
  intros Hlen Hsame. exists (drop (length l) k).
  rewrite <- (take_drop (length l) k) at 1. f_equal.
  apply list_eq. intros i.
  destruct (decide (i < length l)%nat) as [Hi|Hi].
  - rewrite lookup_take_lt by done. by apply Hsame.
  - rewrite lookup_take_ge by lia. symmetry. apply lookup_ge_None. lia.
Qed.

(** X16.  A capture call leaves every live object as it is: the heap after
    the call is the heap before it with the cells of the copy after it.  The
    store gets one more entry, tagged with the line, which refers to an
    object of the new heap, and the copies are the earlier ones and the new
    cells. *)
Theorem capture_only_allocates fuel lineno f_locals st st' :
  step fuel (Capture lineno f_locals) st = Some st' ->
  objects st `prefix_of` objects st'
  /\ exists y, data st' = data st ++ [(lineno, y)]
       /\ (y < length (objects st'))%nat
       /\ copies st' = copies st
                       ∪ set_seq (length (objects st))
                                 (length (objects st') - length (objects st)).
Proof.
  simpl. unfold _record_state_fn_hidden_123.
  destruct (deepcopy fuel f_locals ∅ (objects st)) as [[[y memo] h']|] eqn:E;
    [|done].
  intros [= <-]. simpl.
  destruct (deepcopy_ok (objects st) fuel _ _ _ _ _ _
              (copying_start (objects st)) E) as (Hc & Hy & _).
  split.
  - apply prefix_of_lookups; [apply (copying_length _ _ _ Hc)|].
    intros i Hi. by apply (copying_old _ _ _ Hc).
  - exists y. split; [done|]. split; [|done].
    destruct Hy as [?|(o & Ho & _)]; [lia|].
    apply lookup_lt_Some in Ho. pose proof (copying_length _ _ _ Hc). lia.
Qed.

Lemma image_kind h0 memo h k v :
  image h0 memo h k v ->
  (v < length h0)%nat -> v = k.
Proof.
  unfold image. destruct (h0 !! k) as [[| | |items|items]|]; try done.
  - intros [? _]. lia.
  - intros [? _]. lia.
Qed.

Lemma deepcopy_isomorphic fuel h0 x y memo h :
  wf_heap h0 = true ->
  deepcopy fuel x ∅ h0 = Some (y, memo, h) ->
  memo !! x = Some y
  /\ (forall l, (l < length h0)%nat -> h !! l = h0 !! l)
  /\ (forall k v, memo !! k = Some v -> image h0 memo h k v)
  /\ (forall k1 k2 v, memo !! k1 = Some v -> memo !! k2 = Some v -> k1 = k2).
Proof.
  intros Hwf E.
  assert (Hlt : (x < length h0)%nat).
  { destruct fuel; [done|]. simpl in E. rewrite lookup_empty in E.
    destruct (h0 !! x) eqn:Ex; [|done]. by apply lookup_lt_Some in Ex. }
  destruct (deepcopy_images h0 fuel Hwf ∅ _ _ _ _ _ _ Hlt (imaging_start h0) E)
    as (Him & _ & Hx & _).
  assert (Hdone : forall k v, memo !! k = Some v -> image h0 memo h k v).
  { intros k v Hk. apply (imaging_done _ _ _ _ Him k v Hk).
    apply not_elem_of_empty. }
  split; [done|]. split.
  { apply (copying_old _ _ _ (imaging_copying _ _ _ _ Him)). }
  split; [done|].
  intros k1 k2 v H1 H2.
  destruct (decide (length h0 <= v)%nat) as [Hv|Hv].
  - by apply (imaging_inj _ _ _ _ Him k1 k2 v).
  - rewrite <- (image_kind _ _ _ _ _ (Hdone _ _ H1)) by lia.
    rewrite <- (image_kind _ _ _ _ _ (Hdone _ _ H2)) by lia. done.
Qed.

(** X17.  The copy has the shape of the original.  After [deepcopy] of [x]
    on a well-formed heap, the memo maps every object reached from [x] to
    its copy, [x] to the result; the original objects are unchanged; an
    atomic object is its own copy and a list or dictionary is copied to a
    new cell of the same kind whose items are, position by position and
    key by key, the copies of the original items; and no two objects share
    a copy.  So two names bound to one list are bound to one list in the
    snapshot, two names bound to different lists to different ones, and a
    structure that contains itself is copied to one that contains
    itself. *)
Theorem deepcopy_keeps_sharing fuel h0 x y memo h :
  wf_heap h0 = true ->
  deepcopy fuel x ∅ h0 = Some (y, memo, h) ->
  memo !! x = Some y
  /\ (forall l, (l < length h0)%nat -> h !! l = h0 !! l)
  /\ (forall k v, memo !! k = Some v -> image h0 memo h k v)
  /\ (forall k1 k2 v, memo !! k1 = Some v -> memo !! k2 = Some v -> k1 = k2).
Proof. apply deepcopy_isomorphic. Qed.

(** X18.  A list whose only item is the list itself is copied, with a
    bound of two or more levels, to one new list whose only item is that new
    list; the memo, filled before the items are copied, ends the
    recursion. *)
Theorem deepcopy_of_self_containing_list fuel h0 x :
  h0 !! x = Some (OList [x]) ->
  deepcopy (S (S fuel)) x ∅ h0
  = Some (length h0, {[x := length h0]}, h0 ++ [OList [length h0]]).
Proof.
  intros Hx. simpl. rewrite lookup_empty, Hx. simpl.
  rewrite lookup_insert_eq. unfold list_append.
  rewrite lookup_app_r by lia. rewrite Nat.sub_diag. simpl.
  rewrite insert_insert_eq.
  replace (<[length h0 := OList [length h0]]> (h0 ++ [OList []]))
    with (h0 ++ [OList [length h0]]); [done|].
  rewrite insert_app_r_alt by lia. by rewrite Nat.sub_diag.
Qed.

Lemma covered_mono h0 memo memo' h :
  memo ⊆ memo' -> covered h0 memo h -> covered h0 memo' h.
Proof.
  intros Hsub Hc l Hl. destruct (Hc l Hl) as [k Hk]. exists k.
  exact (lookup_weaken _ _ _ _ Hk Hsub).
Qed.

Lemma copy_list_items_covers h0 cp y items :
  copier_covers h0 cp ->
  forall memo h memo' h',
    covered h0 memo h -> copy_list_items cp y items memo h = Some (memo', h') ->
    covered h0 memo' h' /\ memo ⊆ memo'.
Proof.
  intros Hcp. induction items as [|a items IH]; intros memo h memo' h' Hc; simpl.
  - by intros [= <- <-].
  - destruct (cp a memo h) as [[[a' memo1] h1]|] eqn:E; [|done].
    destruct (Hcp _ _ _ _ _ _ Hc E) as [Hc1 Hsub]. intros E2.
    apply IH in E2 as [Hc2 Hsub2].
    + split; [done|]. by trans memo1.
    + intros l Hl. rewrite length_list_append in Hl. by apply Hc1.
Qed.

Lemma copy_dict_items_covers h0 cp y items :
  copier_covers h0 cp ->
  forall memo h memo' h',
    covered h0 memo h -> copy_dict_items cp y items memo h = Some (memo', h') ->
    covered h0 memo' h' /\ memo ⊆ memo'.
Proof.
  intros Hcp. induction items as [|[key a] items IH];
    intros memo h memo' h' Hc; simpl.
  - by intros [= <- <-].
  - destruct (cp a memo h) as [[[a' memo1] h1]|] eqn:E; [|done].
    destruct (Hcp _ _ _ _ _ _ Hc E) as [Hc1 Hsub]. intros E2.
    apply IH in E2 as [Hc2 Hsub2].
    + split; [done|]. by trans memo1.
    + intros l Hl. rewrite length_dict_setitem in Hl. by apply Hc1.
Qed.

Lemma covered_enter h0 memo h x (o : obj) :
  memo !! x = None -> covered h0 memo h ->
  covered h0 (<[x := length h]> memo) (h ++ [o]).
Proof.
  intros Hx Hc l Hl. rewrite length_app in Hl. simpl in Hl.
  destruct (decide (l = length h)) as [->|Hne].
  - exists x. apply lookup_insert_eq.
  - destruct (Hc l) as [k Hk]; [lia|]. exists k.
    rewrite lookup_insert_ne; [done|]. intros <-. congruence.
Qed.

Lemma deepcopy_covers h0 fuel : copier_covers h0 (deepcopy fuel).
Proof.
  induction fuel as [|fuel IH]; intros x memo h y memo' h' Hc; simpl; [done|].
  destruct (memo !! x) as [y0|] eqn:Em; [by intros [= <- <- <-]|].
  assert (Hsub : forall v, memo ⊆ <[x := v]> memo)
    by (intros v; by apply insert_subseteq).
  destruct (h !! x) as [[| | |items|items]|] eqn:Ex; try done;
    try (intros [= <- <- <-]; split; [|done];
         by apply (covered_mono _ memo)).
  - destruct (copy_list_items _ _ _ _ _) as [[memo2 h2]|] eqn:E; [|done].
    intros [= <- <- <-].
    apply (copy_list_items_covers h0 _ _ _ IH) in E as [Hc2 Hsub2];
      [|by apply covered_enter].
    assert (Hx2 : memo2 !! x = Some (length h)).
    { apply (lookup_weaken _ _ _ _ (lookup_insert_eq memo x (length h)) Hsub2). }
    rewrite (insert_id memo2 x (length h) Hx2).
    split; [done|]. by trans (<[x := length h]> memo).
  - destruct (copy_dict_items _ _ _ _ _) as [[memo2 h2]|] eqn:E; [|done].
    intros [= <- <- <-].
    apply (copy_dict_items_covers h0 _ _ _ IH) in E as [Hc2 Hsub2];
      [|by apply covered_enter].
    assert (Hx2 : memo2 !! x = Some (length h)).
    { apply (lookup_weaken _ _ _ _ (lookup_insert_eq memo x (length h)) Hsub2). }
    rewrite (insert_id memo2 x (length h) Hx2).
    split; [done|]. by trans (<[x := length h]> memo).
Qed.

(** X19.  No object is copied twice: every cell that [deepcopy] allocates
    on a well-formed heap is registered in the memo as the copy of exactly
    one object, a list or dictionary of the original heap. *)
Theorem every_copy_has_one_original fuel h0 x y memo h :
  wf_heap h0 = true ->
  deepcopy fuel x ∅ h0 = Some (y, memo, h) ->
  forall l, (length h0 <= l < length h)%nat ->
    exists k o,
      memo !! k = Some l /\ h0 !! k = Some o /\ atomic o = false
      /\ forall k', memo !! k' = Some l -> k' = k.
Proof.
  intros Hwf E l Hl.
  destruct (deepcopy_covers h0 fuel _ _ _ _ _ _
              (fun l (Hl : (length h0 <= l < length h0)%nat) =>
                 ltac:(lia)) E) as [Hc _].
  destruct (Hc l Hl) as [k Hk].
  destruct (deepcopy_isomorphic _ _ _ _ _ _ Hwf E) as (_ & _ & Himg & Hinj).
  pose proof (Himg k l Hk) as Hi. unfold image in Hi.
  destruct (h0 !! k) as [o|] eqn:Ek; [|done].
  exists k, o. split; [done|]. split; [done|]. split.
  - destruct o; try done; subst l; apply lookup_lt_Some in Ek; lia.
  - intros k' Hk'. by apply (Hinj k' k l).
Qed.

Lemma capture_only_allocates_witness :
  objects (fresh sample_heap) `prefix_of` objects sample_captured
  /\ exists y, data sample_captured = data (fresh sample_heap) ++ [(2, y)]
       /\ (y < length (objects sample_captured))%nat
       /\ copies sample_captured
          = copies (fresh sample_heap)
            ∪ set_seq (length (objects (fresh sample_heap)))
                      (length (objects sample_captured)
                       - length (objects (fresh sample_heap))).
Proof.
  apply (capture_only_allocates 6 2 3%nat (fresh sample_heap) sample_captured).
  reflexivity.
Defined.

Lemma deepcopy_keeps_sharing_witness :
  match deepcopy 6 3%nat ∅ sample_heap with
  | Some (y, memo, h) =>
      memo !! 3%nat = Some y
      /\ (forall l, (l < length sample_heap)%nat -> h !! l = sample_heap !! l)
      /\ (forall k v, memo !! k = Some v -> image sample_heap memo h k v)
      /\ (forall k1 k2 v,
            memo !! k1 = Some v -> memo !! k2 = Some v -> k1 = k2)
  | None => False
  end.
Proof.
  destruct (deepcopy 6 3%nat ∅ sample_heap) as [[[y memo] h]|] eqn:E.
  - exact (deepcopy_keeps_sharing 6 sample_heap 3%nat y memo h eq_refl E).
  - vm_compute in E. discriminate E.
Defined.

Lemma deepcopy_of_self_containing_list_witness :
  deepcopy 2 1%nat ∅ [OInt 5; OList [1%nat]]
  = Some (2%nat, {[1%nat := 2%nat]}, [OInt 5; OList [1%nat]; OList [2%nat]]).
Proof.
  apply (deepcopy_of_self_containing_list 0 [OInt 5; OList [1%nat]] 1%nat).
  reflexivity.
Defined.

Lemma every_copy_has_one_original_witness :
  match deepcopy 6 3%nat ∅ sample_heap with
  | Some (y, memo, h) =>
      forall l, (length sample_heap <= l < length h)%nat ->
        exists k o,
          memo !! k = Some l /\ sample_heap !! k = Some o
          /\ atomic o = false
          /\ forall k', memo !! k' = Some l -> k' = k
  | None => False
  end.
Proof.
  destruct (deepcopy 6 3%nat ∅ sample_heap) as [[[y memo] h]|] eqn:E.
  - exact (every_copy_has_one_original 6 sample_heap 3%nat y memo h eq_refl E).
  - vm_compute in E. discriminate E.
Defined.

End CopyFacts.
